(** * comfyui-bun-client: the client of [src/comfy-client.ts]

    A shallow embedding of the two classes of the client, [ComfyJob] and
    [ComfyClient]: the lifecycle of a job ([queue], [cancel], [clone],
    [completion], the registry of executing callbacks, the socket message
    listener, [clear_queue], [delete_queue_entries], [post_prompt]), the
    [running] flag of the socket and the other REST wrappers.

    Modelling conventions.
    - JavaScript objects live in a store: a job is a reference into [heap],
      a client a reference into [clients].  Private fields are record fields.
    - An [async] method is a computation in the monad [JS]: it threads the
      world and may throw; what was written before a throw stays written.
    - A run ([run], [reachable]) is sequential use of the client: each
      operation goes from its call to its end before the next one starts,
      as when every call is awaited.  Calls of [queue] that overlap are
      cut at their [await]s into segments, which a scheduler interleaves
      with each other and with whole operations ([step], [schedule]).
    - The network is the environment: the response of every [fetch] is an
      argument of the method that performs it, and every request is recorded
      in [network].  Inbound socket frames arrive already decoded.
    - The callbacks handed over by the user are opaque: calling one is
      recorded in [calls] and has no other effect on the world.
    - [console.log] output is not modelled. *)

From Stdlib Require Import ZArith.
From stdpp Require Import base decidable option list strings pretty.

Local Open Scope stdpp_scope.

(** ** Values *)

(** JSON-like values: workflows, error payloads and step indicators are
    [unknown] to the client. *)
#[local] Unset Elimination Schemes.
Inductive value : Type :=
  | VUndefined
  | VNull
  | VBool (b : bool)
  | VNum (n : Z)
  | VStr (s : string)
  | VArr (items : list value)
  | VObj (fields : list (string * value)).
#[local] Set Elimination Schemes.

(** [x === null] *)
Definition is_null (v : value) : bool :=
  match v with VNull => true | _ => false end.

(** [type ComfyJob_Status] *)
Inductive ComfyJob_Status : Type :=
  | building | queued | running | completed | failed | cancelled.

#[global] Instance ComfyJob_Status_eq_dec : EqDecision ComfyJob_Status.
Proof. solve_decision. Defined.

Abbreviation job_ref := nat.
Abbreviation client_ref := nat.

(** A function supplied by the user, known by its name only. *)
Abbreviation handler := nat.

(** The [callbacks] argument of [queue]: every member is optional. *)
Module Callbacks.
Record t : Type := Build {
  onCompleted : option handler;
  onCancelled : option handler;
  onUpdate : option handler;
  onError : option handler
}.
Definition none : t := Build None None None None.
End Callbacks.

(** ** class ComfyJob: fields *)
Module ComfyJob.
Record t : Type := Build {
  parent : option client_ref;
  uid : option string;
  status : ComfyJob_Status;
  onCompleted : option handler;
  onCancelled : option handler;
  onUpdate : option handler;
  onError : option handler;
  workflow : value;
  errors : value
}.

Definition set_parent (p : option client_ref) (o : t) : t :=
  Build p (uid o) (status o) (onCompleted o) (onCancelled o) (onUpdate o)
        (onError o) (workflow o) (errors o).
Definition set_uid (u : option string) (o : t) : t :=
  Build (parent o) u (status o) (onCompleted o) (onCancelled o) (onUpdate o)
        (onError o) (workflow o) (errors o).
Definition set_status (s : ComfyJob_Status) (o : t) : t :=
  Build (parent o) (uid o) s (onCompleted o) (onCancelled o) (onUpdate o)
        (onError o) (workflow o) (errors o).
Definition set_onCompleted (f : option handler) (o : t) : t :=
  Build (parent o) (uid o) (status o) f (onCancelled o) (onUpdate o)
        (onError o) (workflow o) (errors o).
Definition set_onUpdate (f : option handler) (o : t) : t :=
  Build (parent o) (uid o) (status o) (onCompleted o) (onCancelled o) f
        (onError o) (workflow o) (errors o).
Definition set_onError (f : option handler) (o : t) : t :=
  Build (parent o) (uid o) (status o) (onCompleted o) (onCancelled o)
        (onUpdate o) f (workflow o) (errors o).
Definition set_workflow (wk : value) (o : t) : t :=
  Build (parent o) (uid o) (status o) (onCompleted o) (onCancelled o)
        (onUpdate o) (onError o) wk (errors o).

(** Field initialisers followed by the constructor body. *)
Definition new (wk : value) : t :=
  Build None None building None None None None wk VUndefined.
End ComfyJob.

(** ** The registry [#jobs : Map<string, {job, onCompleted, ...}>] *)

(** The four arrow functions registered by [queue] close over [this] and
    over [callbacks]; an entry keeps the pair they capture. *)
Module Entry.
Record t : Type := Build {
  job : job_ref;
  this : job_ref;
  callbacks : Callbacks.t
}.
End Entry.

(** A JavaScript [Map] with string keys: entries in insertion order. *)
Abbreviation JsMap V := (list (string * V)).

Fixpoint map_get {V} (k : string) (m : JsMap V) : option V :=
  match m with
  | [] => None
  | (k', v) :: m' => if bool_decide (k' = k) then Some v else map_get k m'
  end.

(** [Map.prototype.set]: an existing key keeps its place, a new one goes
    last. *)
Fixpoint map_set {V} (k : string) (v : V) (m : JsMap V) : JsMap V :=
  match m with
  | [] => [(k, v)]
  | (k', v') :: m' =>
      if bool_decide (k' = k) then (k', v) :: m' else (k', v') :: map_set k v m'
  end.

Definition map_delete {V} (k : string) (m : JsMap V) : JsMap V :=
  filter (λ kv, kv.1 ≠ k) m.

Definition map_keys {V} (m : JsMap V) : list string := m.*1.

(** ** class ComfyClient: fields *)
Module ComfyClient.
Record t : Type := Build {
  endpoint : string;
  secure : bool;
  uid : string;
  jobs : JsMap Entry.t
}.
Definition set_jobs (m : JsMap Entry.t) (c : t) : t :=
  Build (endpoint c) (secure c) (uid c) m.
Definition new (endpoint : string) (secure : bool) (uuid : string) : t :=
  Build endpoint secure uuid [].
End ComfyClient.

(** ** The environment *)

Inductive Method : Type := GET | POST.

(** What [JSON.stringify] is applied to in a request body. *)
Inductive Body : Type :=
  | JsonWorkflow (workflow : value)
  | JsonClear
  | JsonDelete (entries : list string).

Record Request : Type := MkRequest {
  url : string;
  method : Method;
  body : option Body
}.

(** The part of a fetch [Response] the client reads; [json] is the decoded
    body. *)
Record Response (B : Type) : Type := MkResponse {
  ok : bool;
  resp_status : Z;
  statusText : string;
  json : B
}.
Arguments MkResponse {B} _ _ _ _.
Arguments ok {B} _.
Arguments resp_status {B} _.
Arguments statusText {B} _.
Arguments json {B} _.

(** The body of the reply to [POST /prompt] as [queue] reads it. *)
Record PromptReply : Type := MkPromptReply {
  prompt_id : string;
  node_errors : list (string * value);
  reply_errors : value
}.

(** Decoded socket frames, by their [type] discriminator. *)
Inductive Frame : Type :=
  | Status (data : value)
  | Executing (prompt_id : string) (node : value)
  | CrystoolsMonitor
  | OtherType (type : string).

(** A call of a user callback with its arguments. *)
Inductive Call : Type :=
  | CallCompleted (f : handler) (obj : job_ref)
  | CallCancelled (f : handler) (obj : job_ref)
  | CallUpdate (f : handler) (obj : job_ref) (node : value)
  | CallError (f : handler) (obj : job_ref) (errors : value).

Record World : Type := MkWorld {
  heap : list ComfyJob.t;
  clients : list ComfyClient.t;
  network : list Request;
  calls : list Call
}.

Definition empty_world : World := MkWorld [] [] [] [].

(** ** The monad of method bodies *)

(** [Error(message, {cause})], and the [TypeError] of a member access on
    [undefined]. *)
Inductive Error : Type :=
  | JsError (message : string) (cause : option Z)
  | TypeError.

Inductive Outcome (A : Type) : Type :=
  | Return (a : A)
  | Throw (e : Error).
Arguments Return {A} _.
Arguments Throw {A} _.

Definition JS (A : Type) : Type := World → Outcome A * World.

#[global] Instance JS_ret : MRet JS := λ A a w, (Return a, w).
#[global] Instance JS_bind : MBind JS := λ A B f m w,
  match m w with
  | (Return a, w') => f a w'
  | (Throw e, w') => (Throw e, w')
  end.

Definition throw {A} (e : Error) : JS A := λ w, (Throw e, w).

(** Reading a private field of a job. *)
Definition read {A} (j : job_ref) (field : ComfyJob.t → A) : JS A := λ w,
  match heap w !! j with
  | Some o => (Return (field o), w)
  | None => (Throw TypeError, w)
  end.

(** Assigning a private field of a job. *)
Definition write (j : job_ref) (assign : ComfyJob.t → ComfyJob.t) : JS unit :=
  λ w, (Return tt,
        MkWorld (alter assign j (heap w)) (clients w) (network w) (calls w)).

(** [new ComfyJob(wk)] *)
Definition new_ComfyJob (wk : value) : JS job_ref := λ w,
  (Return (length (heap w)),
   MkWorld (heap w ++ [ComfyJob.new wk]) (clients w) (network w) (calls w)).

Definition get_client (c : client_ref) : JS ComfyClient.t := λ w,
  match clients w !! c with
  | Some cl => (Return cl, w)
  | None => (Throw TypeError, w)
  end.

Definition update_jobs (c : client_ref)
    (f : JsMap Entry.t → JsMap Entry.t) : JS unit := λ w,
  (Return tt,
   MkWorld (heap w)
           (alter (λ cl, ComfyClient.set_jobs (f (ComfyClient.jobs cl)) cl) c
                  (clients w))
           (network w) (calls w)).

(** [new ComfyClient(endpoint, {secure})]; [uuid] is what
    [crypto.randomUUID()] returns. *)
Definition new_ComfyClient (endpoint : string) (secure : bool) (uuid : string)
    : JS client_ref := λ w,
  (Return (length (clients w)),
   MkWorld (heap w) (clients w ++ [ComfyClient.new endpoint secure uuid])
           (network w) (calls w)).

(** [this.#parent!]: a member access on it throws when it is undefined. *)
Definition read_parent (j : job_ref) : JS client_ref :=
  p ← read j ComfyJob.parent;
  match p with
  | Some c => mret c
  | None => throw TypeError
  end.

(** [await fetch(url, {method, body})]: the request leaves, the response
    chosen by the environment comes back. *)
Definition fetch {B} (u : string) (m : Method) (b : option Body)
    (resp : Response B) : JS (Response B) := λ w,
  (Return resp,
   MkWorld (heap w) (clients w) (network w ++ [MkRequest u m b]) (calls w)).

(** [if (f) await f(...)] for an optional user callback. *)
Definition call_if (f : option handler) (c : handler → Call) : JS unit := λ w,
  match f with
  | Some h =>
      (Return tt, MkWorld (heap w) (clients w) (network w) (calls w ++ [c h]))
  | None => (Return tt, w)
  end.

(** The request URL of an endpoint: scheme from [#secure], then the
    endpoint, the path and the [clientId] query.  A UUID is left unchanged
    by the encoding of [URLSearchParams]. *)
Definition endpoint_url (cl : ComfyClient.t) (path : string) : string :=
  "http" +:+ (if ComfyClient.secure cl then "s" else "") +:+ "://" +:+
  ComfyClient.endpoint cl +:+ path +:+ "?clientId=" +:+ ComfyClient.uid cl.

(** [throw Error(tmp.statusText, { cause: tmp.status })] *)
Definition RequestError {B} (tmp : Response B) : Error :=
  JsError (statusText tmp) (Some (resp_status tmp)).

(** [Error('Cannot place a ComfyJob on queue twice. Consider cloning.')] *)
Definition InvalidStateError : Error :=
  JsError "Cannot place a ComfyJob on queue twice. Consider cloning." None.

(** ** class ComfyClient: methods *)

(** [this.#jobs.set(job.uid!, { job, ...cb })].  [queue] assigns the uid
    right before it registers; a missing uid is answered with [TypeError]
    here. *)
Definition registerExecutingCallback (c : client_ref) (job : job_ref)
    (cb : job_ref * Callbacks.t) : JS unit :=
  u ← read job ComfyJob.uid;
  match u with
  | Some key => update_jobs c (map_set key (Entry.Build job cb.1 cb.2))
  | None => throw TypeError
  end.

(** [this.#jobs.delete(job.uid!)]; no entry is stored under [undefined]. *)
Definition unregisterExecutingCallback (c : client_ref) (job : job_ref)
    : JS unit :=
  u ← read job ComfyJob.uid;
  match u with
  | Some key => update_jobs c (map_delete key)
  | None => mret tt
  end.

(** The arrow functions that [queue] registers, applied to [obj].  The
    client calls [onCompleted] from its message listener and [onError] from
    [clear_queue] and [delete_queue_entries]; nothing in it calls [onUpdate]
    or [onCancelled]. *)
Definition entry_onCompleted (t : Entry.t) (obj : job_ref) : JS unit :=
  write (Entry.this t) (ComfyJob.set_status completed);;
  p ← read_parent (Entry.this t);
  unregisterExecutingCallback p (Entry.this t);;
  call_if (Callbacks.onCompleted (Entry.callbacks t))
          (λ f, CallCompleted f obj).

Definition entry_onUpdate (t : Entry.t) (obj : job_ref) (node : value)
    : JS unit :=
  write (Entry.this t) (ComfyJob.set_status running);;
  call_if (Callbacks.onUpdate (Entry.callbacks t))
          (λ f, CallUpdate f obj node).

Definition entry_onError (t : Entry.t) (obj : job_ref) (errors : value)
    : JS unit :=
  write (Entry.this t) (ComfyJob.set_status failed);;
  p ← read_parent (Entry.this t);
  unregisterExecutingCallback p (Entry.this t);;
  call_if (Callbacks.onError (Entry.callbacks t))
          (λ f, CallError f obj errors).

Definition entry_onCancelled (t : Entry.t) (obj : job_ref) : JS unit :=
  write (Entry.this t) (ComfyJob.set_status cancelled);;
  call_if (Callbacks.onCancelled (Entry.callbacks t))
          (λ f, CallCancelled f obj).

(** The listener of the socket's [message] events. *)
Definition on_message (c : client_ref) (data : Frame) : JS unit :=
  match data with
  | Status _ => mret tt
  | Executing prompt_id node =>
      cl ← get_client c;
      let t := map_get prompt_id (ComfyClient.jobs cl) in
      if is_null node then
        match t with
        | Some t => entry_onCompleted t (Entry.job t)
        | None => mret tt
        end
      else mret tt
  | CrystoolsMonitor => mret tt
  | OtherType _ => mret tt
  end.

(** [for (const [key, value] of this.#jobs) body].  The iterator of a [Map]
    is live: it walks the entries in insertion order, passes over one that
    has been deleted before its turn and yields the value stored at that
    time.  [keys] are the keys at the start of the loop; no entry is added
    while it runs, the bodies here only delete. *)
Fixpoint for_of_from (c : client_ref) (keys : list string)
    (body : string → Entry.t → JS unit) : JS unit :=
  match keys with
  | [] => mret tt
  | key :: rest =>
      cl ← get_client c;
      match map_get key (ComfyClient.jobs cl) with
      | Some value => body key value
      | None => mret tt
      end;;
      for_of_from c rest body
  end.

Definition for_of_jobs (c : client_ref) (body : string → Entry.t → JS unit)
    : JS unit :=
  cl ← get_client c;
  for_of_from c (map_keys (ComfyClient.jobs cl)) body.

(** [entries.includes(key)] *)
Definition includes (key : string) (entries : list string) : bool :=
  bool_decide (key ∈ entries).

Definition clear_queue (c : client_ref) (resp : Response value) : JS value :=
  cl ← get_client c;
  tmp ← fetch (endpoint_url cl "/queue") POST (Some JsonClear) resp;
  if ok tmp then
    for_of_jobs c (λ key value, entry_onError value (Entry.job value) (VArr []));;
    mret (json tmp)
  else throw (RequestError tmp).

Definition delete_queue_entries (c : client_ref) (entries : list string)
    (resp : Response value) : JS value :=
  cl ← get_client c;
  tmp ← fetch (endpoint_url cl "/queue") POST (Some (JsonDelete entries)) resp;
  if ok tmp then
    for_of_jobs c (λ key value,
      if includes key entries
      then entry_onError value (Entry.job value) (VArr [])
      else mret tt);;
    mret (json tmp)
  else throw (RequestError tmp).

Definition post_prompt (c : client_ref) (workflow : value)
    (resp : Response PromptReply) : JS PromptReply :=
  cl ← get_client c;
  tmp ← fetch (endpoint_url cl "/prompt") POST (Some (JsonWorkflow workflow))
              resp;
  if ok tmp then mret (json tmp) else throw (RequestError tmp).

(** ** class ComfyJob: methods *)

Definition clone (this : job_ref) : JS job_ref :=
  tmp ← new_ComfyJob (VObj []);
  wk ← read this ComfyJob.workflow;
  write tmp (ComfyJob.set_workflow wk);;
  mret tmp.

Definition queue (this : job_ref) (parent : client_ref)
    (callbacks : Callbacks.t) (resp : Response PromptReply) : JS job_ref :=
  st ← read this ComfyJob.status;
  if bool_decide (st ≠ building) then throw InvalidStateError else
  write this (ComfyJob.set_parent (Some parent));;
  write this (ComfyJob.set_onCompleted (Callbacks.onCompleted callbacks));;
  write this (ComfyJob.set_onUpdate (Callbacks.onUpdate callbacks));;
  write this (ComfyJob.set_onError (Callbacks.onError callbacks));;
  p ← read_parent this;
  wk ← read this ComfyJob.workflow;
  tmp ← post_prompt p wk resp;
  write this (ComfyJob.set_status queued);;
  write this (ComfyJob.set_uid (Some (prompt_id tmp)));;
  (if bool_decide (length (node_errors tmp) ≠ 0) then
     write this (ComfyJob.set_status failed);;
     f ← read this ComfyJob.onError;
     call_if f (λ f, CallError f this (reply_errors tmp))
   else mret tt);;
  p ← read_parent this;
  registerExecutingCallback p this (this, callbacks);;
  mret this.

(** [completion]: the loop body neither awaits nor writes, so the status it
    tests is the same at every turn; [fuel] bounds the number of turns and
    [None] means the loop is still spinning. *)
Fixpoint completion (fuel : nat) (this : job_ref) (w : World)
    : option (Outcome unit * World) :=
  match fuel with
  | O => None
  | S fuel' =>
      match read this ComfyJob.status w with
      | (Return st, w') =>
          if bool_decide (st = running) then completion fuel' this w'
          else Some (Return tt, w')
      | (Throw e, w') => Some (Throw e, w')
      end
  end.

(** [cancel]: past the guard the job has been submitted, so [#parent] and
    [#uid] are assigned; a missing uid is answered with [TypeError]. *)
Definition cancel (this : job_ref) (resp : Response value) : JS unit :=
  st ← read this ComfyJob.status;
  if bool_decide (st ∈ [cancelled; failed; completed; building]) then mret tt
  else
    p ← read_parent this;
    u ← read this ComfyJob.uid;
    match u with
    | Some id => delete_queue_entries p [id] resp;; mret tt
    | None => throw TypeError
    end.

(** ** Runs *)

(** What can happen to a world: the program constructs objects and calls
    methods, the backend answers requests and pushes frames. *)
Inductive Op : Type :=
  | NewClient (endpoint : string) (secure : bool) (uuid : string)
  | NewJob (wk : value)
  | CloneJob (j : job_ref)
  | QueueJob (j : job_ref) (parent : client_ref) (callbacks : Callbacks.t)
             (resp : Response PromptReply)
  | CancelJob (j : job_ref) (resp : Response value)
  | Message (c : client_ref) (data : Frame)
  | ClearQueue (c : client_ref) (resp : Response value)
  | DeleteQueueEntries (c : client_ref) (entries : list string)
                       (resp : Response value).

(** The world an operation leaves behind, whether it returned or threw. *)
Definition exec (op : Op) (w : World) : World :=
  match op with
  | NewClient e s u => (new_ComfyClient e s u w).2
  | NewJob wk => (new_ComfyJob wk w).2
  | CloneJob j => (clone j w).2
  | QueueJob j p cbs resp => (queue j p cbs resp w).2
  | CancelJob j resp => (cancel j resp w).2
  | Message c data => (on_message c data w).2
  | ClearQueue c resp => (clear_queue c resp w).2
  | DeleteQueueEntries c entries resp => (delete_queue_entries c entries resp w).2
  end.

Definition run (ops : list Op) (w : World) : World :=
  foldl (λ w op, exec op w) w ops.

(** The worlds seen along a run, the starting one included. *)
Fixpoint trace (ops : list Op) (w : World) : list World :=
  match ops with
  | [] => [w]
  | op :: ops' => w :: trace ops' (exec op w)
  end.

(** ** Observations *)

Definition status_of (w : World) (j : job_ref) : option ComfyJob_Status :=
  ComfyJob.status <$> heap w !! j.

Definition uid_of (w : World) (j : job_ref) : option string :=
  heap w !! j ≫= ComfyJob.uid.

(** The registry of client [c]. *)
Definition registry (w : World) (c : client_ref) : JsMap Entry.t :=
  from_option ComfyClient.jobs [] (clients w !! c).

(** The statuses job [j] goes through along a run. *)
Definition statuses (ops : list Op) (w : World) (j : job_ref)
    : list (option ComfyJob_Status) :=
  (λ w, status_of w j) <$> trace ops w.

Definition is_update_of (j : job_ref) (c : Call) : bool :=
  match c with CallUpdate _ obj _ => bool_decide (obj = j) | _ => false end.
Definition is_completed_of (j : job_ref) (c : Call) : bool :=
  match c with CallCompleted _ obj => bool_decide (obj = j) | _ => false end.
Definition is_error_of (j : job_ref) (c : Call) : bool :=
  match c with CallError _ obj _ => bool_decide (obj = j) | _ => false end.
Definition is_cancelled_of (j : job_ref) (c : Call) : bool :=
  match c with CallCancelled _ obj => bool_decide (obj = j) | _ => false end.

(** How many calls of a kind the log holds. *)
Definition count (p : Call → bool) (w : World) : nat :=
  length (List.filter p (calls w)).

Definition terminal (s : ComfyJob_Status) : bool :=
  bool_decide (s ∈ [completed; failed; cancelled]).

(** Replies of the backend used in the examples. *)
Definition accepted (id : string) : Response PromptReply :=
  MkResponse true 200 "OK" (MkPromptReply id [] VUndefined).
Definition rejected_nodes (id : string) (errs : value) : Response PromptReply :=
  MkResponse true 200 "OK"
    (MkPromptReply id [("4", VStr "value_not_in_list")] errs).
Definition ok_reply : Response value := MkResponse true 200 "OK" (VObj []).
Definition refused {B} (b : B) : Response B :=
  MkResponse false 500 "Internal Server Error" b.

(** Four user callbacks named 1 to 4. *)
Definition observers : Callbacks.t :=
  Callbacks.Build (Some 1) (Some 2) (Some 3) (Some 4).

(** One client at reference 0 and one job at reference 0, just built. *)
Definition setup : list Op :=
  [NewClient "127.0.0.1:8188" false "c0ffee"; NewJob (VObj [("3", VObj [])])].

(** ** Scenarios *)

(** Job 0 queued on client 0 under the identity X, all four callbacks
    given, no node errors reported. *)
Definition queued_X : World :=
  run (setup ++ [QueueJob 0 0 observers (accepted "X")]) empty_world.

(** Job 0 submitted on client 0; the backend answers with the identity X
    and a node error. *)
Definition rejected_X : World :=
  run (setup ++ [QueueJob 0 0 observers (rejected_nodes "X" (VStr "bad"))])
      empty_world.

(** Job 0 submitted on client 0; the backend refuses the request. *)
Definition refused_once : World :=
  run (setup ++ [QueueJob 0 0 observers
                   (refused (MkPromptReply "" [] VUndefined))])
      empty_world.

(** The frames of a progress stream for X with steps 3, 7 and null. *)
Definition steps_3_7_null : list Op :=
  [Message 0 (Executing "X" (VNum 3));
   Message 0 (Executing "X" (VNum 7));
   Message 0 (Executing "X" VNull)].

(** ** Vocabulary of the statements *)

(** [keeps P m]: the body [m] leaves [P] standing, returning or throwing. *)
Definition keeps (P : World → Prop) {A} (m : JS A) : Prop :=
  ∀ w, P w → P (m w).2.

(** [P] reads the objects only, not the logs. *)
Definition log_free (P : World → Prop) : Prop :=
  ∀ w n l, P w → P (MkWorld (heap w) (clients w) n l).

(** An assignment that never takes a job back to [building]. *)
Definition gentle (f : ComfyJob.t → ComfyJob.t) : Prop :=
  ∀ o, ComfyJob.status o ≠ building → ComfyJob.status (f o) ≠ building.

(** Which jobs an operation assigns to on its own account. *)
Definition writes_only_allowed (may_write : job_ref → Prop) (op : Op)
    : Prop :=
  match op with
  | QueueJob j _ _ _ => may_write j
  | _ => True
  end.

(** The fields of the job once [queue] has assigned the client and the
    callbacks; [#onCancelled] is not among them. *)
Definition attached (o : ComfyJob.t) (p : client_ref) (cbs : Callbacks.t)
    : ComfyJob.t :=
  ComfyJob.Build (Some p) (ComfyJob.uid o) (ComfyJob.status o)
    (Callbacks.onCompleted cbs) (ComfyJob.onCancelled o)
    (Callbacks.onUpdate cbs) (Callbacks.onError cbs)
    (ComfyJob.workflow o) (ComfyJob.errors o).

Definition has_node_errors (tmp : PromptReply) : bool :=
  bool_decide (length (node_errors tmp) ≠ 0).

(** The fields of the job when [queue] returns. *)
Definition submitted_job (o : ComfyJob.t) (p : client_ref) (cbs : Callbacks.t)
    (tmp : PromptReply) : ComfyJob.t :=
  ComfyJob.Build (Some p) (Some (prompt_id tmp))
    (if has_node_errors tmp then failed else queued)
    (Callbacks.onCompleted cbs) (ComfyJob.onCancelled o)
    (Callbacks.onUpdate cbs) (Callbacks.onError cbs)
    (ComfyJob.workflow o) (ComfyJob.errors o).

Definition prompt_request (cl : ComfyClient.t) (wk : value) : Request :=
  MkRequest (endpoint_url cl "/prompt") POST (Some (JsonWorkflow wk)).

(** The calls [queue] makes itself: the error callback on node errors. *)
Definition submission_calls (j : job_ref) (cbs : Callbacks.t)
    (tmp : PromptReply) : list Call :=
  if has_node_errors tmp then
    match Callbacks.onError cbs with
    | Some f => [CallError f j (reply_errors tmp)]
    | None => []
    end
  else [].

(** The job exists and has left [building]. *)
Definition submitted (j : job_ref) (w : World) : Prop :=
  ∃ o, heap w !! j = Some o ∧ ComfyJob.status o ≠ building.

(** The backend hands out a prompt identity once: no job carries [id]. *)
Definition unused (id : string) (w : World) : bool :=
  forallb (λ o, bool_decide (ComfyJob.uid o ≠ Some id)) (heap w).

(** The one assumption on the environment: a reply to a submission names
    an identity that has not been given to a job before. *)
Definition admissible (w : World) (op : Op) : bool :=
  match op with
  | QueueJob _ _ _ resp => unused (prompt_id (json resp)) w
  | _ => true
  end.

(** The worlds of sequential use: those the operations lead to from the
    empty world when each one runs to its end before the next starts.
    What calls of [queue] that overlap leave behind is not among them; it
    is among the worlds of the schedules ([schedule] below), which contain
    these. *)
Inductive reachable : World → Prop :=
  | reachable_empty : reachable empty_world
  | reachable_exec w op :
      reachable w → admissible w op = true → reachable (exec op w).

(** The same along a list of operations, as a test. *)
Fixpoint admissible_run (ops : list Op) (w : World) : bool :=
  match ops with
  | [] => true
  | op :: ops' => admissible w op && admissible_run ops' (exec op w)
  end.

(** What ties the registry to the jobs. *)
Record consistent (w : World) : Prop := {
  (** an entry stored under [k] at client [c] belongs to a job whose uid
      is [k] and whose parent is [c], which is queued, running or failed;
      it was registered with the job's own error callback *)
  entries_sound : ∀ c k e,
    map_get k (registry w c) = Some e →
    Entry.job e = Entry.this e ∧
    ∃ o, heap w !! Entry.this e = Some o
         ∧ ComfyJob.uid o = Some k ∧ ComfyJob.parent o = Some c
         ∧ ComfyJob.status o ∈ [queued; running; failed]
         ∧ ComfyJob.onError o = Callbacks.onError (Entry.callbacks e);
  (** a job that is being built has no uid *)
  building_fresh : ∀ j o,
    heap w !! j = Some o → ComfyJob.status o = building →
    ComfyJob.uid o = None;
  (** a queued or running job has its entry in the registry of its parent *)
  live_tracked : ∀ j o,
    heap w !! j = Some o → ComfyJob.status o ∈ [queued; running] →
    ∃ c k e, ComfyJob.parent o = Some c ∧ ComfyJob.uid o = Some k
             ∧ map_get k (registry w c) = Some e ∧ Entry.this e = j
}.

(** The order of the lifecycle as the code has it, over any number of
    operations: a job never goes back to [building] or [queued], never is
    [running] or [cancelled] unless it was so before, and stays
    [completed] once it is; a failed job may still be completed. *)
Definition advances (s s' : ComfyJob_Status) : bool :=
  match s, s' with
  | building, (building | queued | failed | completed) => true
  | queued, (queued | completed | failed) => true
  | running, (running | completed | failed) => true
  | failed, (failed | completed) => true
  | completed, completed => true
  | cancelled, cancelled => true
  | _, _ => false
  end.

(** Every job of [w0] is still there in [w], further along its lifecycle. *)
Definition follows (w0 w : World) : Prop :=
  ∀ j o, heap w0 !! j = Some o →
    ∃ o', heap w !! j = Some o'
          ∧ advances (ComfyJob.status o) (ComfyJob.status o') = true.

Definition evolved (w0 w : World) : Prop := consistent w ∧ follows w0 w.

(** The call of an optional user callback, as a piece of the log. *)
Definition optional_call (f : option handler) (c : handler → Call)
    : list Call :=
  match f with Some h => [c h] | None => [] end.

(** The world after [onError] or [onCompleted] of an entry whose job has
    parent [c] and uid [k]: status [s] assigned, entry [k] deleted at [c],
    the user's callback called. *)
Definition settled (w : World) (t : Entry.t) (o : ComfyJob.t)
    (s : ComfyJob_Status) (c : client_ref) (cl : ComfyClient.t) (k : string)
    (called : list Call) : World :=
  MkWorld (<[Entry.this t:=ComfyJob.set_status s o]> (heap w))
          (<[c:=ComfyClient.set_jobs (map_delete k (ComfyClient.jobs cl)) cl]>
             (clients w))
          (network w) (calls w ++ called).

(** Job [c] has the fields [r] and no entry of any registry is about it. *)
Definition aside (c : job_ref) (r : ComfyJob.t) (w : World) : Prop :=
  heap w !! c = Some r
  ∧ ∀ c' k e, map_get k (registry w c') = Some e → Entry.this e ≠ c.

(** An operation other than [queue] on job [c]. *)
Definition spares (c : job_ref) (op : Op) : Prop :=
  writes_only_allowed (λ j, j ≠ c) op.

Definition delete_request (cl : ComfyClient.t) (entries : list string)
    : Request :=
  MkRequest (endpoint_url cl "/queue") POST (Some (JsonDelete entries)).

(** The world once [req] has been sent. *)
Definition sent (req : Request) (w : World) : World :=
  MkWorld (heap w) (clients w) (network w ++ [req]) (calls w).

(** ** Invariants of the reachable worlds *)

(** No job is running or cancelled. *)
Definition plain (w : World) : Prop :=
  ∀ j o, heap w !! j = Some o →
    ComfyJob.status o ∈ [building; queued; completed; failed].

(** Two states of a client with the same endpoint, scheme and identity. *)
Definition same_connection (cl cl' : ComfyClient.t) : Prop :=
  ComfyClient.endpoint cl' = ComfyClient.endpoint cl
  ∧ ComfyClient.secure cl' = ComfyClient.secure cl
  ∧ ComfyClient.uid cl' = ComfyClient.uid cl.

(** Client [c] exists and is the connection [cl]. *)
Definition connected (c : client_ref) (cl : ComfyClient.t) (w : World) : Prop :=
  ∃ cl', clients w !! c = Some cl' ∧ same_connection cl cl'.

Definition clear_request (cl : ComfyClient.t) : Request :=
  MkRequest (endpoint_url cl "/queue") POST (Some JsonClear).

(** Is the frame a closing frame for an identity found in [m]? *)
Definition closes_tracked (m : JsMap Entry.t) (data : Frame) : bool :=
  match data with
  | Executing id node => is_null node && bool_decide (is_Some (map_get id m))
  | _ => false
  end.

(** ** [queue] across its suspensions *)

(** A call of [queue] is suspended at the [await] of line 79 until the
    response is in, and once more at the [await] of line 84 when it has
    called the error callback.  While it is suspended other code runs: the
    three segments below are what it does in between. *)

(** The request leaves. *)
Definition send (req : Request) : JS unit := λ w, (Return tt, sent req w).

(** From the call to the [await] of line 79: the guard, the assignments
    and the request of [post_prompt]. *)
Definition queue_begin (this : job_ref) (parent : client_ref)
    (callbacks : Callbacks.t) : JS unit :=
  st ← read this ComfyJob.status;
  if bool_decide (st ≠ building) then throw InvalidStateError else
  write this (ComfyJob.set_parent (Some parent));;
  write this (ComfyJob.set_onCompleted (Callbacks.onCompleted callbacks));;
  write this (ComfyJob.set_onUpdate (Callbacks.onUpdate callbacks));;
  write this (ComfyJob.set_onError (Callbacks.onError callbacks));;
  p ← read_parent this;
  wk ← read this ComfyJob.workflow;
  cl ← get_client p;
  send (prompt_request cl wk).

(** From line 86 to the end. *)
Definition queue_finish (this : job_ref) (callbacks : Callbacks.t)
    : JS job_ref :=
  p ← read_parent this;
  registerExecutingCallback p this (this, callbacks);;
  mret this.

(** From the response on: the call runs to its end, or it is suspended
    once more, on the error callback it has just called ([None]). *)
Definition queue_reply (this : job_ref) (callbacks : Callbacks.t)
    (resp : Response PromptReply) : JS (option job_ref) :=
  if ok resp then
    write this (ComfyJob.set_status queued);;
    write this (ComfyJob.set_uid (Some (prompt_id (json resp))));;
    if bool_decide (length (node_errors (json resp)) ≠ 0) then
      write this (ComfyJob.set_status failed);;
      f ← read this ComfyJob.onError;
      match f with
      | Some h =>
          call_if (Some h) (λ f, CallError f this (reply_errors (json resp)));;
          mret None
      | None => r ← queue_finish this callbacks; mret (Some r)
      end
    else r ← queue_finish this callbacks; mret (Some r)
  else throw (RequestError resp).

(** A suspended call of [queue]: the job and the [callbacks] it closes
    over, and where it waits. *)
Inductive Pending : Type :=
  | AwaitReply (this : job_ref) (callbacks : Callbacks.t)
  | AwaitOnError (this : job_ref) (callbacks : Callbacks.t).

#[global] Instance Callbacks_eq_dec : EqDecision Callbacks.t.
Proof. solve_decision. Defined.

#[global] Instance Pending_eq_dec : EqDecision Pending.
Proof. solve_decision. Defined.

(** What the scheduler runs next: an operation from its call to its end,
    or a segment of a call of [queue]. *)
Inductive Step : Type :=
  | Whole (op : Op)
  | QueueBegin (j : job_ref) (parent : client_ref) (callbacks : Callbacks.t)
  | QueueReply (j : job_ref) (callbacks : Callbacks.t)
               (resp : Response PromptReply)
  | QueueFinish (j : job_ref) (callbacks : Callbacks.t).

(** [ps] without the first [p] in it, if there is one. *)
Fixpoint take_out (p : Pending) (ps : list Pending) : option (list Pending) :=
  match ps with
  | [] => None
  | q :: ps' =>
      if decide (q = p) then Some ps' else (q ::.) <$> take_out p ps'
  end.

(** The world and the suspended calls of [queue]. *)
Abbreviation Sched := (World * list Pending)%type.

(** A segment that resumes a call runs only if that call is suspended
    there; otherwise nothing happens. *)
Definition step (s : Step) (σ : Sched) : Sched :=
  match s with
  | Whole op => (exec op σ.1, σ.2)
  | QueueBegin j p cbs =>
      match queue_begin j p cbs σ.1 with
      | (Return _, w) => (w, σ.2 ++ [AwaitReply j cbs])
      | (Throw _, w) => (w, σ.2)
      end
  | QueueReply j cbs resp =>
      match take_out (AwaitReply j cbs) σ.2 with
      | Some ps =>
          match queue_reply j cbs resp σ.1 with
          | (Return None, w) => (w, ps ++ [AwaitOnError j cbs])
          | (_, w) => (w, ps)
          end
      | None => σ
      end
  | QueueFinish j cbs =>
      match take_out (AwaitOnError j cbs) σ.2 with
      | Some ps => ((queue_finish j cbs σ.1).2, ps)
      | None => σ
      end
  end.

Definition schedule (steps : list Step) (σ : Sched) : Sched :=
  foldl (λ σ s, step s σ) σ steps.

(** Nothing has happened and no call is suspended. *)
Definition start : Sched := (empty_world, []).

(** Two calls of [queue] on job [j], the second made while the first waits
    for its response; the responses come in the order of the requests. *)
Definition overlapping (j : job_ref) (p1 p2 : client_ref)
    (cbs1 cbs2 : Callbacks.t) (r1 r2 : Response PromptReply) : list Step :=
  [QueueBegin j p1 cbs1; QueueBegin j p2 cbs2;
   QueueReply j cbs1 r1; QueueReply j cbs2 r2].

(** The fields of a job once the response of its submission is in: the
    uid and the status are assigned, the rest is what it was. *)
Definition replied (o : ComfyJob.t) (tmp : PromptReply) : ComfyJob.t :=
  ComfyJob.Build (ComfyJob.parent o) (Some (prompt_id tmp))
    (if has_node_errors tmp then failed else queued)
    (ComfyJob.onCompleted o) (ComfyJob.onCancelled o) (ComfyJob.onUpdate o)
    (ComfyJob.onError o) (ComfyJob.workflow o) (ComfyJob.errors o).

(** The clients once [e] is stored under [k] at client [c]. *)
Definition registered (c : client_ref) (k : string) (e : Entry.t)
    (cs : list ComfyClient.t) : list ComfyClient.t :=
  alter (λ cl, ComfyClient.set_jobs (map_set k e (ComfyClient.jobs cl)) cl)
        c cs.

(** The fields [o'] of a job that had the fields [o]: the workflow and the
    cancellation callback are what they were, the job has not gone back to
    [building], and it still has a uid and a parent if it had them. *)
Definition outlives (o o' : ComfyJob.t) : Prop :=
  ComfyJob.workflow o' = ComfyJob.workflow o
  ∧ ComfyJob.onCancelled o' = ComfyJob.onCancelled o
  ∧ (ComfyJob.status o ≠ building → ComfyJob.status o' ≠ building)
  ∧ (is_Some (ComfyJob.uid o) → is_Some (ComfyJob.uid o'))
  ∧ (is_Some (ComfyJob.parent o) → is_Some (ComfyJob.parent o')).

(** An assignment after which a job outlives what it was. *)
Definition mild (f : ComfyJob.t → ComfyJob.t) : Prop := ∀ o, outlives o (f o).

(** Every job of [w0] is still there in [w]. *)
Definition persists (w0 w : World) : Prop :=
  ∀ j o, heap w0 !! j = Some o →
    ∃ o', heap w !! j = Some o' ∧ outlives o o'.

(** A job is being built and has no uid, or it has been submitted: it has
    a uid and a parent and is queued, completed or failed. *)
Definition identified (o : ComfyJob.t) : Prop :=
  (ComfyJob.status o = building ∧ ComfyJob.uid o = None)
  ∨ (ComfyJob.status o ∈ [queued; completed; failed]
     ∧ is_Some (ComfyJob.uid o) ∧ is_Some (ComfyJob.parent o)).

(** What holds of the jobs, the registries and the suspended calls under
    every schedule. *)
Record sound (w : World) (ps : list Pending) : Prop := {
  jobs_identified : ∀ j o, heap w !! j = Some o → identified o;
  entries_submitted : ∀ c k e,
    map_get k (registry w c) = Some e →
    Entry.job e = Entry.this e ∧ submitted (Entry.this e) w;
  awaited_attached : ∀ j cbs,
    AwaitReply j cbs ∈ ps →
    ∃ o, heap w !! j = Some o ∧ is_Some (ComfyJob.parent o);
  awaited_submitted : ∀ j cbs, AwaitOnError j cbs ∈ ps → submitted j w
}.

(** ** The socket of a client *)

(** What happens to the socket of a client: the three events the
    constructor listens to besides [message], and the two ways the program
    closes it. *)
Inductive SocketAction : Type :=
  | SocketOpen
  | SocketClose
  | SocketError
  | CallClose
  | Dispose.

(** The listeners and [close], as functions of the field [#running]. *)
Definition on_open (running : bool) : bool := true.
Definition on_close (running : bool) : bool := false.
Definition on_error (running : bool) : bool := false.
Definition close (running : bool) : bool := false.
Definition dispose (running : bool) : bool := close running.

Definition socket_step (running : bool) (a : SocketAction) : bool :=
  match a with
  | SocketOpen => on_open running
  | SocketClose => on_close running
  | SocketError => on_error running
  | CallClose => close running
  | Dispose => dispose running
  end.

(** [#running] after a history of the socket; the field starts false. *)
Definition running_after (history : list SocketAction) : bool :=
  foldl socket_step false history.

(** ** The REST wrappers *)

(** [type ComfyResType] *)
Inductive ComfyResType : Type := input | output | temp.

Definition ComfyResType_string (t : ComfyResType) : string :=
  match t with input => "input" | output => "output" | temp => "temp" end.

Inductive Channel : Type := rgba | rgb | alpha.

Definition Channel_string (c : Channel) : string :=
  match c with rgba => "rgba" | rgb => "rgb" | alpha => "a" end.

Inductive Format : Type := jpg | png | webp.

Definition Format_string (f : Format) : string :=
  match f with jpg => "jpg" | png => "png" | webp => "webp" end.

(** A [Blob] with the [name] the uploads read from it; a [Blob] that is
    not a [File] has none. *)
Record Blob : Type := MkBlob {
  blob_name : option string;
  blob_bytes : string
}.

(** A value of a [FormData]: a string, or a blob with the file name handed
    to [set] as third argument. *)
Inductive FormValue : Type :=
  | FormString (s : string)
  | FormFile (content : Blob) (filename : option string).

Inductive Payload : Type :=
  | NoPayload
  | JsonPayload (v : value)
  | FormPayload (form : JsMap FormValue).

(** The arguments of a [fetch] of a wrapper: the URL by its parts, the
    query as the pairs handed to [URLSearchParams] in their order, the
    method and the body. *)
Record Fetch : Type := MkFetch {
  fetch_secure : bool;
  fetch_endpoint : string;
  fetch_path : string;
  fetch_query : list (string * string);
  fetch_method : Method;
  fetch_payload : Payload
}.

(** Every wrapper addresses the endpoint of the client and puts
    [clientId] first in the query ([upload_mask] writes that pair into the
    URL by hand). *)
Definition rest_fetch (cl : ComfyClient.t) (path : string)
    (query : list (string * string)) (m : Method) (b : Payload) : Fetch :=
  MkFetch (ComfyClient.secure cl) (ComfyClient.endpoint cl) path
          (("clientId", ComfyClient.uid cl) :: query) m b.

(** [if (tmp.ok) return await tmp.json(); throw Error(...)]; for [view]
    the body is the blob of the response. *)
Definition checked (tmp : Response value) : Outcome value :=
  if ok tmp then Return (json tmp) else Throw (RequestError tmp).

(** [return await (await fetch(...)).json()] *)
Definition unchecked (tmp : Response value) : Outcome value :=
  Return (json tmp).

(** Truthiness of a string and of a number.  The numbers are the integers
    JavaScript prints in plain decimal digits. *)
Definition truthy (s : string) : bool := bool_decide (s ≠ "").
Definition truthy_number (n : Z) : bool := bool_decide (n ≠ 0%Z).

(** [x ? `/${x}` : ''] for an optional string. *)
Definition optional_segment (x : option string) : string :=
  match x with
  | Some s => if truthy s then "/" +:+ s else ""
  | None => ""
  end.

Definition system_stats (cl : ComfyClient.t) (resp : Response value)
    : Fetch * Outcome value :=
  (rest_fetch cl "/system_stats" [] GET NoPayload, unchecked resp).

Definition embeddings (cl : ComfyClient.t) (resp : Response value)
    : Fetch * Outcome value :=
  (rest_fetch cl "/embeddings" [] GET NoPayload, unchecked resp).

Definition extensions (cl : ComfyClient.t) (resp : Response value)
    : Fetch * Outcome value :=
  (rest_fetch cl "/extensions" [] GET NoPayload, unchecked resp).

Record UploadOpts : Type := MkUploadOpts {
  up_overwrite : option bool;
  up_subfolder : option string;
  up_type : option ComfyResType;
  up_original_ref : option string
}.

(** [form.set(name, value)] *)
Definition form_set (name : string) (v : FormValue) (form : JsMap FormValue)
    : JsMap FormValue :=
  map_set name v form.

(** [if (opts.overwrite === true) form.set("overwrite", "true")] *)
Definition set_overwrite (o : option bool) (form : JsMap FormValue)
    : JsMap FormValue :=
  match o with
  | Some true => form_set "overwrite" (FormString "true") form
  | _ => form
  end.

(** [upload_image]; [up_original_ref] is not among its options. *)
Definition upload_image (cl : ComfyClient.t) (content : Blob)
    (opts : UploadOpts) (resp : Response value) : Fetch * Outcome value :=
  let form := set_overwrite (up_overwrite opts) [] in
  let form := form_set "image" (FormFile content (blob_name content)) form in
  let form :=
    form_set "subfolder" (FormString (default "" (up_subfolder opts))) form in
  let form :=
    form_set "type"
      (FormString (ComfyResType_string (default input (up_type opts)))) form in
  (rest_fetch cl "/upload/image" [] POST (FormPayload form), checked resp).

Definition upload_mask (cl : ComfyClient.t) (content : Blob)
    (opts : UploadOpts) (resp : Response value) : Fetch * Outcome value :=
  let form := set_overwrite (up_overwrite opts) [] in
  let form := form_set "image" (FormFile content (blob_name content)) form in
  let form :=
    form_set "subfolder" (FormString (default "" (up_subfolder opts))) form in
  let form :=
    match up_original_ref opts with
    | Some r => form_set "original_ref" (FormString r) form
    | None => form
    end in
  let form :=
    form_set "type"
      (FormString (ComfyResType_string (default input (up_type opts)))) form in
  (rest_fetch cl "/upload/mask" [] POST (FormPayload form), checked resp).

Record ViewOpts : Type := MkViewOpts {
  view_subfolder : option string;
  view_channel : option Channel;
  view_format : option Format;
  view_quality : option Z
}.

(** [`${opts.format}${opts.quality ? `;${opts.quality}` : ''}`] *)
Definition preview (f : Format) (quality : option Z) : string :=
  Format_string f +:+
  match quality with
  | Some q => if truthy_number q then ";" +:+ pretty q else ""
  | None => ""
  end.

Definition view (cl : ComfyClient.t) (filename : string) (opts : ViewOpts)
    (resp : Response value) : Fetch * Outcome value :=
  (rest_fetch cl "/view"
     ([("filename", filename)]
      ++ match view_subfolder opts with
         | Some s => if truthy s then [("subfolder", s)] else []
         | None => []
         end
      ++ match view_format opts with
         | Some f => [("preview", preview f (view_quality opts))]
         | None => []
         end
      ++ match view_channel opts with
         | Some c => [("channel", Channel_string c)]
         | None => []
         end)
     GET NoPayload,
   checked resp).

Definition view_metadata (cl : ComfyClient.t) (folder filename : string)
    (resp : Response value) : Fetch * Outcome value :=
  (rest_fetch cl ("/view_metadata/" +:+ folder) [("filename", filename)] GET
              NoPayload,
   checked resp).

Definition object_info (cl : ComfyClient.t) (subclass : option string)
    (resp : Response value) : Fetch * Outcome value :=
  (rest_fetch cl ("/object_info" +:+ optional_segment subclass) [] GET
              NoPayload,
   checked resp).

Definition interrupt (cl : ComfyClient.t) (resp : Response value)
    : Fetch * Outcome value :=
  (rest_fetch cl "/interrupt" [] POST NoPayload, checked resp).

(** [free] sends its argument as it is given. *)
Definition free (cl : ComfyClient.t) (opts : value) (resp : Response value)
    : Fetch * Outcome value :=
  (rest_fetch cl "/free" [] POST (JsonPayload opts), checked resp).

Definition get_history (cl : ComfyClient.t) (id : option string)
    (resp : Response value) : Fetch * Outcome value :=
  (rest_fetch cl ("/history" +:+ optional_segment id) [] GET NoPayload,
   checked resp).

Definition clear_history (cl : ComfyClient.t) (resp : Response value)
    : Fetch * Outcome value :=
  (rest_fetch cl "/history" [] POST
              (JsonPayload (VObj [("clear", VBool true)])),
   checked resp).

Definition delete_history_entries (cl : ComfyClient.t) (entries : list string)
    (resp : Response value) : Fetch * Outcome value :=
  (rest_fetch cl "/history" [] POST
              (JsonPayload (VObj [("delete", VArr (VStr <$> entries))])),
   checked resp).

Definition get_queue (cl : ComfyClient.t) (resp : Response value)
    : Fetch * Outcome value :=
  (rest_fetch cl "/queue" [] GET NoPayload, checked resp).

Definition get_prompt (cl : ComfyClient.t) (resp : Response value)
    : Fetch * Outcome value :=
  (rest_fetch cl "/prompt" [] GET NoPayload, checked resp).

(** A call of one of the wrappers with its arguments. *)
Inductive RestCall : Type :=
  | SystemStats
  | Embeddings
  | Extensions
  | UploadImage (content : Blob) (opts : UploadOpts)
  | UploadMask (content : Blob) (opts : UploadOpts)
  | View (filename : string) (opts : ViewOpts)
  | ViewMetadata (folder filename : string)
  | ObjectInfo (subclass : option string)
  | Interrupt
  | Free (opts : value)
  | GetHistory (id : option string)
  | ClearHistory
  | DeleteHistoryEntries (entries : list string)
  | GetQueue
  | GetPrompt.

Definition rest (cl : ComfyClient.t) (call : RestCall) (resp : Response value)
    : Fetch * Outcome value :=
  match call with
  | SystemStats => system_stats cl resp
  | Embeddings => embeddings cl resp
  | Extensions => extensions cl resp
  | UploadImage content opts => upload_image cl content opts resp
  | UploadMask content opts => upload_mask cl content opts resp
  | View filename opts => view cl filename opts resp
  | ViewMetadata folder filename => view_metadata cl folder filename resp
  | ObjectInfo subclass => object_info cl subclass resp
  | Interrupt => interrupt cl resp
  | Free opts => free cl opts resp
  | GetHistory id => get_history cl id resp
  | ClearHistory => clear_history cl resp
  | DeleteHistoryEntries entries => delete_history_entries cl entries resp
  | GetQueue => get_queue cl resp
  | GetPrompt => get_prompt cl resp
  end.

(** The three wrappers that read the body without looking at the status. *)
Definition reads_unchecked (call : RestCall) : bool :=
  match call with
  | SystemStats | Embeddings | Extensions => true
  | _ => false
  end.

(** * Properties *)

(** ** The registry as a map *)

Section JsMapFacts.
Context {V : Type}.
Implicit Types (m : JsMap V) (k : string) (v : V).

Lemma map_get_set_eq m k v : map_get k (map_set k v m) = Some v.
Proof.
  induction m as [|[k' v'] m IH]; simpl.
  - by rewrite bool_decide_true.
  - case_bool_decide as Hk; simpl.
    + by rewrite bool_decide_true.
    + by rewrite bool_decide_false.
Qed.

Lemma map_get_set_ne m k k' v :
  k ≠ k' → map_get k' (map_set k v m) = map_get k' m.
Proof.
  intros Hne. induction m as [|[k0 v0] m IH]; simpl.
  - by rewrite bool_decide_false.
  - case_bool_decide as Hk; simpl.
    + subst k0. by rewrite !bool_decide_false.
    + by rewrite IH.
Qed.

Lemma map_get_delete_eq m k : map_get k (map_delete k m) = None.
Proof.
  unfold map_delete. induction m as [|[k' v'] m IH]; [done|].
  rewrite filter_cons. simpl. case_decide as Hk; simpl; [|done].
  by rewrite bool_decide_false.
Qed.

Lemma map_get_delete_ne m k k' :
  k ≠ k' → map_get k' (map_delete k m) = map_get k' m.
Proof.
  intros Hne. unfold map_delete. induction m as [|[k0 v0] m IH]; [done|].
  rewrite filter_cons. simpl. case_decide as Hk; simpl.
  - by rewrite IH.
  - subst k0. by rewrite bool_decide_false.
Qed.

Lemma map_get_delete_Some m k k' v :
  map_get k' (map_delete k m) = Some v → k ≠ k' ∧ map_get k' m = Some v.
Proof.
  intros H. destruct (decide (k = k')) as [->|Hne].
  - by rewrite map_get_delete_eq in H.
  - by rewrite map_get_delete_ne in H.
Qed.
End JsMapFacts.

(** ** The lifecycle on concrete runs *)

(** A frame with a step indicator other than [null] changes nothing: the
    listener only acts on the last execution of a prompt. *)
Lemma on_message_step_ignored (w : World) c id node :
  is_null node = false → (on_message c (Executing id node) w).2 = w.
Proof.
  intros Hnode. unfold on_message, mbind, JS_bind, get_client.
  destruct (clients w !! c) as [cl|]; [|done].
  simpl. by rewrite Hnode.
Qed.

(** C1, evaluated on the stream of the claim.  Job 0 is queued under X and
    the frames with steps 3, 7, null arrive.  The claim has the job go
    queued, running, running, completed with two calls of the progress
    callback; the listener leaves it queued on the first two frames and
    never calls the progress callback.  The completion callback is called
    once and the entry for X is gone afterwards. *)
Theorem progress_stream_skips_running :
  statuses steps_3_7_null queued_X 0
    = [Some queued; Some queued; Some queued; Some completed]
  ∧ count (is_update_of 0) (run steps_3_7_null queued_X) = 0
  ∧ count (is_completed_of 0) (run steps_3_7_null queued_X) = 1
  ∧ map_get "X" (registry (run steps_3_7_null queued_X) 0) = None.
Proof. by vm_compute. Qed.

(** C2, evaluated on a submission answered with a node error.  The job ends
    failed and its error callback (handler 4) is called with the [errors]
    member of the reply, as the claim says; but the registry of the client
    holds an entry for the job under X afterwards. *)
Theorem node_errors_leave_entry :
  status_of rejected_X 0 = Some failed
  ∧ calls rejected_X = [CallError 4 0 (VStr "bad")]
  ∧ map_get "X" (registry rejected_X 0) = Some (Entry.Build 0 0 observers).
Proof. by vm_compute. Qed.

(** C4, evaluated on a job whose submission reported a node error and whose
    prompt the backend then finishes.  The job is built, fails at
    submission and, being registered all the same, is completed by the
    closing frame: it leaves one terminal state for another. *)
Theorem failed_job_completes_later :
  statuses [QueueJob 0 0 observers (rejected_nodes "X" (VStr "bad"));
            Message 0 (Executing "X" VNull)]
           (run setup empty_world) 0
    = [Some building; Some failed; Some completed].
Proof. by vm_compute. Qed.

(** C5, evaluated on a job that has just been queued: [completion] returns
    at its first turn and the job is still queued, not in a terminal
    state. *)
Theorem completion_returns_while_queued :
  completion 1 0 queued_X = Some (Return tt, queued_X)
  ∧ status_of queued_X 0 = Some queued
  ∧ terminal queued = false.
Proof. by vm_compute. Qed.

(** C6, evaluated on a job that failed at submission.  Its error callback
    has been called once; a successful bulk queue-clear calls it a second
    time, so a job already in a terminal state is not left alone. *)
Theorem clear_queue_recalls_failed_job :
  status_of rejected_X 0 = Some failed
  ∧ count (is_error_of 0) rejected_X = 1
  ∧ (clear_queue 0 ok_reply rejected_X).1 = Return (VObj [])
  ∧ status_of (clear_queue 0 ok_reply rejected_X).2 0 = Some failed
  ∧ calls (clear_queue 0 ok_reply rejected_X).2
      = [CallError 4 0 (VStr "bad"); CallError 4 0 (VArr [])]
  ∧ count (is_error_of 0) (clear_queue 0 ok_reply rejected_X).2 = 2.
Proof. by vm_compute. Qed.

(** C3, evaluated on a job that has just been queued.  [cancel] sends the
    deletion request for X and returns on the successful response; the
    claim has the job cancelled and its cancellation callback called, but
    the job is failed, the error callback (handler 4) has been called with
    an empty list and the cancellation callback (handler 2) has not been
    called: the registered [onCancelled], the only code that assigns
    [cancelled], is called by nothing. *)
Theorem cancel_ends_failed_not_cancelled :
  status_of queued_X 0 = Some queued
  ∧ (cancel 0 ok_reply queued_X).1 = Return tt
  ∧ status_of (cancel 0 ok_reply queued_X).2 0 = Some failed
  ∧ status_of (cancel 0 ok_reply queued_X).2 0 ≠ Some cancelled
  ∧ count (is_cancelled_of 0) (cancel 0 ok_reply queued_X).2 = 0
  ∧ calls (cancel 0 ok_reply queued_X).2 = [CallError 4 0 (VArr [])]
  ∧ network (cancel 0 ok_reply queued_X).2
    = network queued_X
      ++ [MkRequest "http://127.0.0.1:8188/queue?clientId=c0ffee" POST
                    (Some (JsonDelete ["X"]))].
Proof. by vm_compute. Qed.

(** ** Running method bodies *)

Lemma bind_run {A B} (m : JS A) (f : A → JS B) w :
  (m ≫= f) w = match m w with
               | (Return a, w') => f a w'
               | (Throw e, w') => (Throw e, w')
               end.
Proof. reflexivity. Qed.

Lemma read_run {A} j (field : ComfyJob.t → A) w o :
  heap w !! j = Some o → read j field w = (Return (field o), w).
Proof. intros H. unfold read. by rewrite H. Qed.

Lemma get_client_run c w cl :
  clients w !! c = Some cl → get_client c w = (Return cl, w).
Proof. intros H. unfold get_client. by rewrite H. Qed.

(** [completion] keeps spinning on a running job, whatever the fuel. *)
Lemma completion_spins fuel j w o :
  heap w !! j = Some o → ComfyJob.status o = running →
  completion fuel j w = None.
Proof.
  intros Hj Hst. induction fuel as [|fuel IH]; [done|].
  simpl. rewrite (read_run _ _ _ _ Hj), Hst. by rewrite bool_decide_true.
Qed.

(** [completion] returns at once on a job in any other status. *)
Lemma completion_returns fuel j w o :
  heap w !! j = Some o → ComfyJob.status o ≠ running →
  completion (S fuel) j w = Some (Return tt, w).
Proof.
  intros Hj Hst. simpl. rewrite (read_run _ _ _ _ Hj).
  by rewrite bool_decide_false.
Qed.

(** ** Preservation of a property of the store by method bodies *)

Section Keeps.
Context (P : World → Prop).

Lemma keeps_ret {A} (a : A) : keeps P (mret a).
Proof. by intros w. Qed.

Lemma keeps_throw {A} e : keeps P (@throw A e).
Proof. by intros w. Qed.

Lemma keeps_bind {A B} (m : JS A) (f : A → JS B) :
  keeps P m → (∀ a, keeps P (f a)) → keeps P (m ≫= f).
Proof.
  intros Hm Hf w Hw. rewrite bind_run. specialize (Hm w Hw).
  destruct (m w) as [[a|e] w']; simpl in *; [by apply Hf|done].
Qed.

Lemma keeps_read {A} j (field : ComfyJob.t → A) : keeps P (read j field).
Proof. intros w Hw. unfold read. by destruct (heap w !! j). Qed.

Lemma keeps_get_client c : keeps P (get_client c).
Proof. intros w Hw. unfold get_client. by destruct (clients w !! c). Qed.

Lemma keeps_read_parent j : keeps P (read_parent j).
Proof.
  apply keeps_bind; [apply keeps_read|].
  intros [c|]; [apply keeps_ret|apply keeps_throw].
Qed.

Lemma keeps_fetch {B} u m b (resp : Response B) :
  log_free P → keeps P (fetch u m b resp).
Proof. intros HP w Hw. by apply HP. Qed.

Lemma keeps_call_if f c : log_free P → keeps P (call_if f c).
Proof. intros HP w Hw. unfold call_if. destruct f; [by apply HP|done]. Qed.

(** Reading the registry of a client and going on with what is found. *)
Lemma keeps_get_client_bind {B} c (f : ComfyClient.t → JS B) :
  (∀ w cl, P w → clients w !! c = Some cl → P (f cl w).2) →
  keeps P (get_client c ≫= f).
Proof.
  intros Hf w Hw. rewrite bind_run. unfold get_client.
  destruct (clients w !! c) as [cl|] eqn:Hc; [by apply Hf|done].
Qed.

(** A loop over the registry keeps [P] when its body does, on every entry
    found in the registry at its turn. *)
Lemma keeps_for_of_from c keys body :
  (∀ w cl key value, P w → clients w !! c = Some cl →
     map_get key (ComfyClient.jobs cl) = Some value →
     P (body key value w).2) →
  keeps P (for_of_from c keys body).
Proof.
  intros Hbody. induction keys as [|key rest IH]; [apply keeps_ret|].
  simpl. apply keeps_get_client_bind. intros w cl Hw Hc.
  rewrite bind_run.
  destruct (map_get key (ComfyClient.jobs cl)) as [value|] eqn:Hv.
  - specialize (Hbody w cl key value Hw Hc Hv).
    destruct (body key value w) as [[[]|e] w']; [by apply IH|done].
  - by apply IH.
Qed.

Lemma keeps_for_of_jobs c body :
  (∀ w cl key value, P w → clients w !! c = Some cl →
     map_get key (ComfyClient.jobs cl) = Some value →
     P (body key value w).2) →
  keeps P (for_of_jobs c body).
Proof.
  intros Hbody. apply keeps_bind; [apply keeps_get_client|intros cl].
  by apply keeps_for_of_from.
Qed.
End Keeps.

(** Every assignment made by the methods sets a field other than the
    status, or sets the status to a constant other than [building]. *)
Ltac solve_gentle := intros ? ?; simpl; done.

(** A property of the store that stands as long as only the jobs in
    [may_write] are assigned to (and never set back to [building]) is kept
    by every method, provided [queue] is called on such a job and the jobs
    of the registry entries are such jobs. *)
Section Footprint.
Context (P : World → Prop) (may_write : job_ref → Prop).
Hypothesis Hlog : log_free P.
Hypothesis Hwrite :
  ∀ j f, may_write j → gentle f → keeps P (write j f).
Hypothesis Hentry :
  ∀ w c cl k t, P w → clients w !! c = Some cl →
    map_get k (ComfyClient.jobs cl) = Some t → may_write (Entry.this t).
Hypothesis Hset :
  ∀ c k j cbs, may_write j →
    keeps P (update_jobs c (map_set k (Entry.Build j j cbs))).
Hypothesis Hdelete : ∀ c k, keeps P (update_jobs c (map_delete k)).
Hypothesis Hnew_job : ∀ wk, keeps P (new_ComfyJob wk).
Hypothesis Hnew_client : ∀ e s u, keeps P (new_ComfyClient e s u).
Hypothesis Hclone : ∀ j, keeps P (clone j).

Lemma keeps_register c j cbs :
  may_write j → keeps P (registerExecutingCallback c j (j, cbs)).
Proof.
  intros Hj. apply keeps_bind; [apply keeps_read|].
  intros [k|]; [by apply Hset|apply keeps_throw].
Qed.

Lemma keeps_unregister c j : keeps P (unregisterExecutingCallback c j).
Proof.
  apply keeps_bind; [apply keeps_read|].
  intros [k|]; [apply Hdelete|apply keeps_ret].
Qed.

Lemma keeps_entry_onCompleted t obj :
  may_write (Entry.this t) → keeps P (entry_onCompleted t obj).
Proof.
  intros Ht. apply keeps_bind; [apply Hwrite; [done|solve_gentle]|intros _].
  apply keeps_bind; [apply keeps_read_parent|intros p].
  apply keeps_bind; [apply keeps_unregister|intros _].
  by apply keeps_call_if.
Qed.

Lemma keeps_entry_onError t obj errs :
  may_write (Entry.this t) → keeps P (entry_onError t obj errs).
Proof.
  intros Ht. apply keeps_bind; [apply Hwrite; [done|solve_gentle]|intros _].
  apply keeps_bind; [apply keeps_read_parent|intros p].
  apply keeps_bind; [apply keeps_unregister|intros _].
  by apply keeps_call_if.
Qed.

Lemma keeps_on_message c data : keeps P (on_message c data).
Proof.
  destruct data as [d|id node| |ty]; try apply keeps_ret.
  apply keeps_get_client_bind. intros w cl Hw Hc. simpl.
  destruct (is_null node); [|done].
  destruct (map_get id (ComfyClient.jobs cl)) as [t|] eqn:Ht; [|done].
  apply keeps_entry_onCompleted; eauto.
Qed.

Lemma keeps_clear_queue c resp : keeps P (clear_queue c resp).
Proof.
  apply keeps_bind; [apply keeps_get_client|intros cl].
  apply keeps_bind; [by apply keeps_fetch|intros tmp].
  destruct (ok tmp); [|apply keeps_throw].
  apply keeps_bind; [|intros _; apply keeps_ret].
  apply keeps_for_of_jobs. intros w cl' key value Hw Hc Hv.
  apply keeps_entry_onError; eauto.
Qed.

Lemma keeps_delete_queue_entries c entries resp :
  keeps P (delete_queue_entries c entries resp).
Proof.
  apply keeps_bind; [apply keeps_get_client|intros cl].
  apply keeps_bind; [by apply keeps_fetch|intros tmp].
  destruct (ok tmp); [|apply keeps_throw].
  apply keeps_bind; [|intros _; apply keeps_ret].
  apply keeps_for_of_jobs. intros w cl' key value Hw Hc Hv.
  destruct (includes key entries); [|done].
  apply keeps_entry_onError; eauto.
Qed.

Lemma keeps_post_prompt c wk resp : keeps P (post_prompt c wk resp).
Proof.
  apply keeps_bind; [apply keeps_get_client|intros cl].
  apply keeps_bind; [by apply keeps_fetch|intros tmp].
  destruct (ok tmp); [apply keeps_ret|apply keeps_throw].
Qed.

Lemma keeps_cancel j resp : keeps P (cancel j resp).
Proof.
  apply keeps_bind; [apply keeps_read|intros st].
  case_bool_decide; [apply keeps_ret|].
  apply keeps_bind; [apply keeps_read_parent|intros p].
  apply keeps_bind; [apply keeps_read|intros [id|]]; [|apply keeps_throw].
  apply keeps_bind; [apply keeps_delete_queue_entries|intros _].
  apply keeps_ret.
Qed.

Lemma keeps_queue j p cbs resp :
  may_write j → keeps P (queue j p cbs resp).
Proof.
  intros Hj. apply keeps_bind; [apply keeps_read|intros st].
  case_bool_decide; [apply keeps_throw|].
  repeat (apply keeps_bind; [apply Hwrite; [done|solve_gentle]|intros _]).
  apply keeps_bind; [apply keeps_read_parent|intros p'].
  apply keeps_bind; [apply keeps_read|intros wk].
  apply keeps_bind; [apply keeps_post_prompt|intros tmp].
  repeat (apply keeps_bind; [apply Hwrite; [done|solve_gentle]|intros _]).
  apply keeps_bind.
  { case_bool_decide; [|apply keeps_ret].
    apply keeps_bind; [apply Hwrite; [done|solve_gentle]|intros _].
    apply keeps_bind; [apply keeps_read|intros f].
    by apply keeps_call_if. }
  intros _. apply keeps_bind; [apply keeps_read_parent|intros p''].
  apply keeps_bind; [by apply keeps_register|intros _].
  apply keeps_ret.
Qed.

Lemma keeps_exec op w :
  writes_only_allowed may_write op → P w → P (exec op w).
Proof.
  intros Hop Hw. destruct op; simpl in *.
  - by apply Hnew_client.
  - by apply Hnew_job.
  - by apply Hclone.
  - by apply keeps_queue.
  - by apply keeps_cancel.
  - by apply keeps_on_message.
  - by apply keeps_clear_queue.
  - by apply keeps_delete_queue_entries.
Qed.

Lemma keeps_run ops w :
  Forall (writes_only_allowed may_write) ops → P w → P (run ops w).
Proof.
  intros Hops. revert w. induction Hops as [|op ops Hop _ IH]; [done|].
  intros w Hw. simpl. apply IH. by apply keeps_exec.
Qed.
End Footprint.

(** ** What [queue] does to a job that is being built *)

Lemma alter_as_insert {A} (f : A → A) (l : list A) i x :
  l !! i = Some x → alter f i l = <[i:=f x]> l.
Proof.
  revert i. induction l as [|y l IH]; intros [|i] H; simplify_eq/=; [done|].
  f_equal. by apply IH.
Qed.

Lemma queue_not_building w j o p cbs resp :
  heap w !! j = Some o → ComfyJob.status o ≠ building →
  queue j p cbs resp w = (Throw InvalidStateError, w).
Proof.
  intros Hj Hst. unfold queue. rewrite bind_run, (read_run _ _ _ _ Hj).
  by rewrite bool_decide_true.
Qed.

Lemma queue_dangling w j p cbs resp :
  heap w !! j = None → queue j p cbs resp w = (Throw TypeError, w).
Proof. intros Hj. unfold queue. rewrite bind_run. unfold read. by rewrite Hj. Qed.

(** Unfolding a straight-line body on a world whose lookups are known. *)
Ltac js_run :=
  repeat first
    [ progress unfold mbind, JS_bind, mret, JS_ret, read, write, read_parent,
        get_client, fetch, throw, update_jobs, post_prompt,
        registerExecutingCallback, unregisterExecutingCallback, call_if
    | progress cbn -[lookup alter insert]
    | rewrite list_lookup_alter_eq
    | rewrite list_alter_alter_eq
    | match goal with H : _ !! _ = _ |- _ => rewrite H end ].

Lemma queue_refused w j o p cl cbs resp :
  heap w !! j = Some o → ComfyJob.status o = building →
  clients w !! p = Some cl → ok resp = false →
  queue j p cbs resp w =
    (Throw (RequestError resp),
     MkWorld (<[j:=attached o p cbs]> (heap w)) (clients w)
             (network w ++ [prompt_request cl (ComfyJob.workflow o)])
             (calls w)).
Proof.
  intros Hj Hst Hp Hok. unfold queue. rewrite bind_run, (read_run _ _ _ _ Hj).
  rewrite bool_decide_false by (by rewrite Hst; intros []).
  js_run. rewrite Hok. js_run. do 2 f_equal.
  by rewrite (alter_as_insert _ _ _ _ Hj).
Qed.

Lemma queue_accepted w j o p cl cbs resp :
  heap w !! j = Some o → ComfyJob.status o = building →
  clients w !! p = Some cl → ok resp = true →
  queue j p cbs resp w =
    (Return j,
     MkWorld (<[j:=submitted_job o p cbs (json resp)]> (heap w))
             (<[p:=ComfyClient.set_jobs
                    (map_set (prompt_id (json resp)) (Entry.Build j j cbs)
                             (ComfyClient.jobs cl)) cl]> (clients w))
             (network w ++ [prompt_request cl (ComfyJob.workflow o)])
             (calls w ++ submission_calls j cbs (json resp))).
Proof.
  intros Hj Hst Hp Hok. unfold queue. rewrite bind_run, (read_run _ _ _ _ Hj).
  rewrite bool_decide_false by (by rewrite Hst; intros []).
  js_run. rewrite Hok. unfold submission_calls, has_node_errors.
  js_run. unfold submitted_job, has_node_errors.
  case_bool_decide; js_run.
  - destruct (Callbacks.onError cbs) eqn:E; js_run;
      by rewrite (alter_as_insert _ _ _ _ Hp), (alter_as_insert _ _ _ _ Hj),
                 ?app_nil_r, ?E.
  - by rewrite (alter_as_insert _ _ _ _ Hp), (alter_as_insert _ _ _ _ Hj),
               app_nil_r.
Qed.

Lemma queue_no_client w j o p cbs resp :
  heap w !! j = Some o → ComfyJob.status o = building →
  clients w !! p = None →
  queue j p cbs resp w =
    (Throw TypeError,
     MkWorld (<[j:=attached o p cbs]> (heap w)) (clients w) (network w)
             (calls w)).
Proof.
  intros Hj Hst Hp. unfold queue. rewrite bind_run, (read_run _ _ _ _ Hj).
  rewrite bool_decide_false by (by rewrite Hst; intros []).
  js_run. do 2 f_equal. by rewrite (alter_as_insert _ _ _ _ Hj).
Qed.

(** [queue] returns only for a job that was being built, on an existing
    client, after a successful response. *)
Lemma queue_returns_inv w j p cbs resp r :
  (queue j p cbs resp w).1 = Return r →
  ∃ o cl, heap w !! j = Some o ∧ ComfyJob.status o = building
          ∧ clients w !! p = Some cl ∧ ok resp = true.
Proof.
  intros Hret. destruct (heap w !! j) as [o|] eqn:Hj.
  2: { by rewrite queue_dangling in Hret. }
  destruct (decide (ComfyJob.status o = building)) as [Hst|Hst].
  2: { by rewrite (queue_not_building _ _ _ _ _ _ Hj Hst) in Hret. }
  destruct (clients w !! p) as [cl|] eqn:Hp.
  2: { by rewrite (queue_no_client _ _ _ _ _ _ Hj Hst Hp) in Hret. }
  destruct (ok resp) eqn:Hok.
  2: { by rewrite (queue_refused _ _ _ _ _ _ _ Hj Hst Hp Hok) in Hret. }
  eauto 10.
Qed.

(** ** Submitting again after a refused request *)

(** C7 as stated fails when the first call failed at the request.  The
    call on job 0 has completed, with the error of the refused response;
    the job is still being built, and the next call of [queue] on it does
    not throw: it returns the job, queued under X, after a second POST. *)
Lemma queue_again_after_refused_request :
  (queue 0 0 observers (refused (MkPromptReply "" [] VUndefined))
         (run setup empty_world))
    = (Throw (JsError "Internal Server Error" (Some 500%Z)), refused_once)
  ∧ status_of refused_once 0 = Some building
  ∧ (queue 0 0 observers (accepted "X") refused_once).1 = Return 0
  ∧ (queue 0 0 observers (accepted "X") refused_once).1
    ≠ Throw InvalidStateError
  ∧ status_of (queue 0 0 observers (accepted "X") refused_once).2 0
    = Some queued
  ∧ length (network (queue 0 0 observers (accepted "X") refused_once).2) = 2.
Proof. by vm_compute. Qed.

(** C8.  On a job that is building, failed, completed or cancelled,
    [cancel] returns at once: the world is unchanged, so the status of the
    job is what it was and no request has been issued. *)
Theorem cancel_noop_outside_queue (w : World) j o resp :
  heap w !! j = Some o →
  ComfyJob.status o ∈ [building; failed; completed; cancelled] →
  cancel j resp w = (Return tt, w)
  ∧ status_of (cancel j resp w).2 j = Some (ComfyJob.status o)
  ∧ network (cancel j resp w).2 = network w.
Proof.
  intros Hj Hst.
  assert (Hrun : cancel j resp w = (Return tt, w)).
  { unfold cancel. rewrite bind_run, (read_run _ _ _ _ Hj).
    rewrite bool_decide_true; [done|].
    rewrite !elem_of_cons, elem_of_nil in Hst |- *. tauto. }
  rewrite Hrun. simpl. unfold status_of. by rewrite Hj.
Qed.

Lemma cancel_noop_outside_queue_witness :
  cancel 0 ok_reply (run steps_3_7_null queued_X)
    = (Return tt, run steps_3_7_null queued_X)
  ∧ status_of (cancel 0 ok_reply (run steps_3_7_null queued_X)).2 0
    = Some completed
  ∧ network (cancel 0 ok_reply (run steps_3_7_null queued_X)).2
    = network (run steps_3_7_null queued_X).
Proof.
  apply (cancel_noop_outside_queue (run steps_3_7_null queued_X) 0
           (ComfyJob.Build (Some 0) (Some "X") completed (Some 1) None
              (Some 3) (Some 4) (VObj [("3", VObj [])]) VUndefined)).
  - reflexivity.
  - simpl. repeat constructor.
Defined.

(** ** Worlds that arise from the client's own operations *)

Lemma reachable_run ops w :
  reachable w → admissible_run ops w = true → reachable (run ops w).
Proof.
  revert w. induction ops as [|op ops IH]; intros w Hw Hops; [done|].
  simpl in Hops. apply andb_prop in Hops as [Hop Hops].
  simpl. apply IH; [|done]. by apply reachable_exec.
Defined.

Lemma unused_lookup id w j o :
  unused id w = true → heap w !! j = Some o → ComfyJob.uid o ≠ Some id.
Proof.
  unfold unused. generalize (heap w). intros h. revert j.
  induction h as [|o' h IH]; intros [|j] Hall Hj; simplify_eq/=;
    apply andb_prop in Hall as [Ho Hh].
  - by apply bool_decide_eq_true in Ho.
  - by eapply IH.
Qed.

Lemma registry_Some w c k e :
  map_get k (registry w c) = Some e →
  ∃ cl, clients w !! c = Some cl ∧ map_get k (ComfyClient.jobs cl) = Some e.
Proof.
  unfold registry. destruct (clients w !! c) as [cl|]; [eauto|done].
Qed.

Lemma registry_lookup w c cl :
  clients w !! c = Some cl → registry w c = ComfyClient.jobs cl.
Proof. unfold registry. by intros ->. Qed.

Lemma registry_logs h cs n l n' l' c :
  registry (MkWorld h cs n l) c = registry (MkWorld h cs n' l') c.
Proof. done. Qed.

Lemma registry_heap h h' cs n l c :
  registry (MkWorld h cs n l) c = registry (MkWorld h' cs n l) c.
Proof. done. Qed.

Lemma registry_insert_eq h cs n l c cl cl' :
  cs !! c = Some cl →
  registry (MkWorld h (<[c:=cl']> cs) n l) c = ComfyClient.jobs cl'.
Proof.
  intros Hc. unfold registry. simpl.
  rewrite list_lookup_insert_eq; [done|]. by eapply lookup_lt_Some.
Qed.

Lemma registry_insert_ne h cs n l c c' cl' :
  c ≠ c' →
  registry (MkWorld h (<[c:=cl']> cs) n l) c' = registry (MkWorld h cs n l) c'.
Proof. intros Hne. unfold registry. simpl. by rewrite list_lookup_insert_ne. Qed.

Lemma registry_new_client h cs n l cl c :
  ComfyClient.jobs cl = [] →
  ∀ k, map_get k (registry (MkWorld h (cs ++ [cl]) n l) c)
       = map_get k (registry (MkWorld h cs n l) c).
Proof.
  intros Hcl k. unfold registry. simpl.
  destruct (cs !! c) as [cl'|] eqn:Hc.
  - by rewrite (lookup_app_l_Some _ _ _ _ Hc).
  - apply lookup_ge_None in Hc. rewrite lookup_app_r by done.
    destruct (c - length cs) as [|i]; simpl; [by rewrite Hcl|done].
Qed.

Lemma consistent_logs h cs n l n' l' :
  consistent (MkWorld h cs n l) → consistent (MkWorld h cs n' l').
Proof. intros [H1 H2 H3]. by split. Qed.

Lemma consistent_log_free : log_free consistent.
Proof. intros [h cs n l] n' l'. apply consistent_logs. Qed.

Lemma consistent_empty : consistent empty_world.
Proof. by split. Qed.

Lemma tracked_not_building s : s ∈ [queued; running; failed] → s ≠ building.
Proof.
  rewrite !elem_of_cons, elem_of_nil. by intros [->|[->|[->|[]]]].
Qed.

Lemma not_live_terminal s :
  s ∈ [completed; failed] → s ≠ building ∧ s ∉ [queued; running].
Proof.
  rewrite !elem_of_cons, elem_of_nil.
  intros [->|[->|[]]]; (split; [done|]); by intros [?|[?|[]]].
Qed.

(** A new job, being built and without uid, disturbs nothing. *)
Lemma consistent_new_job h cs n l wk :
  consistent (MkWorld h cs n l) →
  consistent (MkWorld (h ++ [ComfyJob.new wk]) cs n l).
Proof.
  intros [Hsound Hfresh Htracked]. split; simpl in *.
  - intros c k e He. destruct (Hsound c k e He) as (Hjob & o & Ho & Hrest).
    split; [done|]. exists o. split; [|done]. by apply lookup_app_l_Some.
  - intros j o Hj Hst. apply lookup_snoc_Some in Hj as [[_ Hj]|[_ <-]];
      [by eapply Hfresh|done].
  - intros j o Hj Hst. apply lookup_snoc_Some in Hj as [[_ Hj]|[_ <-]].
    + by eapply Htracked.
    + simpl in Hst. rewrite !elem_of_cons, elem_of_nil in Hst.
      by destruct Hst as [?|[?|[]]].
Qed.

Lemma consistent_new_client h cs n l e s u :
  consistent (MkWorld h cs n l) →
  consistent (MkWorld h (cs ++ [ComfyClient.new e s u]) n l).
Proof.
  intros [Hsound Hfresh Htracked]. split; simpl in *.
  - intros c k t Ht. rewrite registry_new_client in Ht by done.
    by apply Hsound.
  - done.
  - intros j o Hj Hst.
    destruct (Htracked j o Hj Hst) as (c & k & t & Hp & Hu & Ht & Hthis).
    exists c, k, t. by rewrite registry_new_client.
Qed.

(** Assigning the client and the callbacks of a job that is being built. *)
Lemma consistent_attach w j o p cbs n l :
  consistent w → heap w !! j = Some o → ComfyJob.status o = building →
  consistent (MkWorld (<[j:=attached o p cbs]> (heap w)) (clients w) n l).
Proof.
  intros [Hsound Hfresh Htracked] Hj Hst. split; simpl.
  - intros c k e He. destruct (Hsound c k e He) as (Hjob & o' & Ho' & Hrest).
    split; [done|]. exists o'. split; [|done].
    rewrite list_lookup_insert_ne; [done|]. intros ->.
    destruct Hrest as (_ & _ & Hnb & _).
    apply tracked_not_building in Hnb. congruence.
  - intros j' o' Hj' Hst'.
    apply list_lookup_insert_Some in Hj' as [(<- & <- & _)|[_ Hj']].
    + simpl. by eapply Hfresh.
    + by eapply Hfresh.
  - intros j' o' Hj' Hst'.
    apply list_lookup_insert_Some in Hj' as [(<- & <- & _)|[_ Hj']].
    + simpl in Hst'. rewrite Hst in Hst'.
      rewrite !elem_of_cons, elem_of_nil in Hst'.
      by destruct Hst' as [?|[?|[]]].
    + by eapply Htracked.
Qed.

(** A successful submission: the job gets its uid and its entry. *)
Lemma consistent_submit w j o p cl cbs tmp n l :
  consistent w → heap w !! j = Some o → ComfyJob.status o = building →
  clients w !! p = Some cl → unused (prompt_id tmp) w = true →
  consistent
    (MkWorld (<[j:=submitted_job o p cbs tmp]> (heap w))
             (<[p:=ComfyClient.set_jobs
                     (map_set (prompt_id tmp) (Entry.Build j j cbs)
                              (ComfyClient.jobs cl)) cl]> (clients w))
             n l).
Proof.
  intros [Hsound Hfresh Htracked] Hj Hst Hp Hid.
  assert (Hlt : j < length (heap w)) by by eapply lookup_lt_Some.
  assert (Hold : ∀ c k e, map_get k (registry w c) = Some e →
                          Entry.this e ≠ j).
  { intros c k e He <-.
    destruct (Hsound c k e He) as (_ & o' & Ho' & _ & _ & Hnb & _).
    apply tracked_not_building in Hnb. congruence. }
  assert (Hreg : ∀ c k e,
    map_get k (registry (MkWorld (<[j:=submitted_job o p cbs tmp]> (heap w))
       (<[p:=ComfyClient.set_jobs (map_set (prompt_id tmp)
          (Entry.Build j j cbs) (ComfyClient.jobs cl)) cl]> (clients w)) n l) c)
      = Some e →
    (c = p ∧ k = prompt_id tmp ∧ e = Entry.Build j j cbs)
    ∨ ((c ≠ p ∨ k ≠ prompt_id tmp) ∧ map_get k (registry w c) = Some e)).
  { intros c k e He. destruct (decide (c = p)) as [->|Hc].
    - rewrite (registry_insert_eq _ _ _ _ _ _ _ Hp) in He. simpl in He.
      destruct (decide (prompt_id tmp = k)) as [<-|Hk].
      + rewrite map_get_set_eq in He. left. by injection He as <-.
      + rewrite map_get_set_ne in He by done. right.
        rewrite (registry_lookup _ _ _ Hp). split; [right; congruence|done].
    - rewrite registry_insert_ne in He by done. right. split; [auto|].
      by destruct w. }
  split; simpl.
  - intros c k e He.
    destruct (Hreg c k e He) as [(-> & -> & ->)|[_ He']]; simpl.
    + split; [done|]. eexists. split; [by apply list_lookup_insert_eq|].
      simpl. do 2 (split; [done|]). split; [|done].
      destruct (has_node_errors tmp); rewrite !elem_of_cons; auto.
    + destruct (Hsound c k e He') as (Hjob & o' & Ho' & Hrest).
      split; [done|]. exists o'. split; [|done].
      rewrite list_lookup_insert_ne; [done|]. intros Heq.
      by apply (Hold c k e He').
  - intros j' o' Hj' Hst'.
    apply list_lookup_insert_Some in Hj' as [(<- & <- & _)|[_ Hj']].
    + simpl in Hst'. by destruct (has_node_errors tmp).
    + by eapply Hfresh.
  - intros j' o' Hj' Hst'.
    apply list_lookup_insert_Some in Hj' as [(<- & <- & _)|[Hne Hj']].
    + exists p, (prompt_id tmp), (Entry.Build j j cbs). simpl.
      repeat split; try done.
      rewrite (registry_insert_eq _ _ _ _ _ _ _ Hp). simpl.
      apply map_get_set_eq.
    + destruct (Htracked j' o' Hj' Hst') as (c & k & e & Hpar & Hu & He & Hthis).
      exists c, k, e. repeat split; try done.
      destruct (decide (c = p)) as [->|Hc].
      * rewrite (registry_insert_eq _ _ _ _ _ _ _ Hp). simpl.
        rewrite map_get_set_ne; [by rewrite <- (registry_lookup _ _ _ Hp)|].
        intros <-. by eapply (unused_lookup _ _ _ _ Hid Hj').
      * rewrite registry_insert_ne by done. by destruct w.
Qed.

(** Settling the job of an entry found in the registry: the job gets a
    terminal status and its entry is deleted. *)
Lemma consistent_settle w c cl k t o s n l :
  consistent w → clients w !! c = Some cl →
  map_get k (ComfyClient.jobs cl) = Some t →
  heap w !! Entry.this t = Some o → s ∈ [completed; failed] →
  consistent
    (MkWorld (<[Entry.this t:=ComfyJob.set_status s o]> (heap w))
             (<[c:=ComfyClient.set_jobs (map_delete k (ComfyClient.jobs cl))
                     cl]> (clients w))
             n l).
Proof.
  intros [Hsound Hfresh Htracked] Hc Ht Ho Hs.
  apply not_live_terminal in Hs as [Hs1 Hs2].
  assert (Ht' : map_get k (registry w c) = Some t)
    by by rewrite (registry_lookup _ _ _ Hc).
  destruct (Hsound c k t Ht') as (Hjob & o0 & Ho0 & Hu & Hpar & Hst & Herr).
  assert (o0 = o) as -> by congruence.
  assert (Hreg : ∀ c' k' e,
    map_get k' (registry (MkWorld (<[Entry.this t:=ComfyJob.set_status s o]>
       (heap w)) (<[c:=ComfyClient.set_jobs (map_delete k
          (ComfyClient.jobs cl)) cl]> (clients w)) n l) c') = Some e ↔
    (c' ≠ c ∨ k' ≠ k) ∧ map_get k' (registry w c') = Some e).
  { intros c' k' e. destruct (decide (c = c')) as [<-|Hne].
    - rewrite (registry_insert_eq _ _ _ _ _ _ _ Hc),
        (registry_lookup _ _ _ Hc). simpl. split.
      + intros [? ?]%map_get_delete_Some. auto.
      + intros [[?|?] He]; [done|]. by rewrite map_get_delete_ne.
    - rewrite registry_insert_ne by done. destruct w. simpl. split.
      + intros He. split; [left; congruence|done].
      + by intros [_ He]. }
  assert (Hother : ∀ c' k' e, (c' ≠ c ∨ k' ≠ k) →
    map_get k' (registry w c') = Some e → Entry.this e ≠ Entry.this t).
  { intros c' k' e Hne He Heq.
    destruct (Hsound c' k' e He) as (_ & o' & Ho' & Hu' & Hpar' & _).
    rewrite Heq in Ho'. destruct Hne as [Hne|Hne]; congruence. }
  split; simpl.
  - intros c' k' e [Hne He]%Hreg.
    destruct (Hsound c' k' e He) as (Hjob' & o' & Ho' & Hrest).
    split; [done|]. exists o'. split; [|done].
    rewrite list_lookup_insert_ne; [done|]. intros Heq.
    by apply (Hother c' k' e Hne He).
  - intros j' o' Hj' Hst'.
    apply list_lookup_insert_Some in Hj' as [(<- & <- & _)|[_ Hj']];
      [done|by eapply Hfresh].
  - intros j' o' Hj' Hst'.
    apply list_lookup_insert_Some in Hj' as [(<- & <- & _)|[Hne Hj']];
      [done|].
    destruct (Htracked j' o' Hj' Hst') as (c' & k' & e & Hp' & Hu' & He & Hthis).
    exists c', k', e. repeat split; try done. apply Hreg. split; [|done].
    destruct (decide (c' = c)) as [->|]; [|auto].
    destruct (decide (k' = k)) as [->|]; [|auto].
    exfalso. apply Hne. congruence.
Qed.

(** ** The registered arrow functions on an entry of the registry *)

Lemma call_if_run f c w :
  call_if f c w
    = (Return tt,
       MkWorld (heap w) (clients w) (network w) (calls w ++ optional_call f c)).
Proof.
  unfold call_if. destruct f; simpl; [done|].
  rewrite app_nil_r. by destruct w.
Qed.

Lemma entry_onError_run w t obj errs o c cl k :
  heap w !! Entry.this t = Some o → ComfyJob.parent o = Some c →
  ComfyJob.uid o = Some k → clients w !! c = Some cl →
  entry_onError t obj errs w
    = (Return tt,
       settled w t o failed c cl k
         (optional_call (Callbacks.onError (Entry.callbacks t))
                        (λ f, CallError f obj errs))).
Proof.
  intros Ho Hp Hu Hc. unfold entry_onError.
  rewrite !bind_run. unfold write at 1. rewrite bind_run.
  unfold read_parent. rewrite bind_run. unfold read at 1. simpl.
  rewrite list_lookup_alter_eq, Ho. simpl. rewrite Hp. simpl.
  unfold unregisterExecutingCallback. rewrite !bind_run. unfold read. simpl.
  rewrite list_lookup_alter_eq, Ho. simpl. rewrite Hu.
  unfold update_jobs. simpl. rewrite call_if_run. simpl.
  unfold settled.
  by rewrite (alter_as_insert _ _ _ _ Ho), (alter_as_insert _ _ _ _ Hc).
Qed.

Lemma entry_onCompleted_run w t obj o c cl k :
  heap w !! Entry.this t = Some o → ComfyJob.parent o = Some c →
  ComfyJob.uid o = Some k → clients w !! c = Some cl →
  entry_onCompleted t obj w
    = (Return tt,
       settled w t o completed c cl k
         (optional_call (Callbacks.onCompleted (Entry.callbacks t))
                        (λ f, CallCompleted f obj))).
Proof.
  intros Ho Hp Hu Hc. unfold entry_onCompleted.
  rewrite !bind_run. unfold write at 1. rewrite bind_run.
  unfold read_parent. rewrite bind_run. unfold read at 1. simpl.
  rewrite list_lookup_alter_eq, Ho. simpl. rewrite Hp. simpl.
  unfold unregisterExecutingCallback. rewrite !bind_run. unfold read. simpl.
  rewrite list_lookup_alter_eq, Ho. simpl. rewrite Hu.
  unfold update_jobs. simpl. rewrite call_if_run. simpl.
  unfold settled.
  by rewrite (alter_as_insert _ _ _ _ Ho), (alter_as_insert _ _ _ _ Hc).
Qed.

(** In a consistent world the entry found under [k] at [c] names a job
    with parent [c] and uid [k]. *)
Lemma entry_job w c cl k t :
  consistent w → clients w !! c = Some cl →
  map_get k (ComfyClient.jobs cl) = Some t →
  Entry.job t = Entry.this t ∧
  ∃ o, heap w !! Entry.this t = Some o
       ∧ ComfyJob.uid o = Some k ∧ ComfyJob.parent o = Some c
       ∧ ComfyJob.status o ∈ [queued; running; failed]
       ∧ ComfyJob.onError o = Callbacks.onError (Entry.callbacks t).
Proof.
  intros Hw Hc Ht. apply (entries_sound w Hw c k t).
  by rewrite (registry_lookup _ _ _ Hc).
Qed.

Lemma consistent_entry_onError w c cl k t obj errs :
  consistent w → clients w !! c = Some cl →
  map_get k (ComfyClient.jobs cl) = Some t →
  consistent (entry_onError t obj errs w).2.
Proof.
  intros Hw Hc Ht.
  destruct (entry_job w c cl k t Hw Hc Ht) as (_ & o & Ho & Hu & Hp & _).
  rewrite (entry_onError_run _ _ _ _ _ _ _ _ Ho Hp Hu Hc). simpl.
  apply consistent_settle; try done. rewrite !elem_of_cons. auto.
Qed.

Lemma consistent_entry_onCompleted w c cl k t obj :
  consistent w → clients w !! c = Some cl →
  map_get k (ComfyClient.jobs cl) = Some t →
  consistent (entry_onCompleted t obj w).2.
Proof.
  intros Hw Hc Ht.
  destruct (entry_job w c cl k t Hw Hc Ht) as (_ & o & Ho & Hu & Hp & _).
  rewrite (entry_onCompleted_run _ _ _ _ _ _ _ Ho Hp Hu Hc). simpl.
  apply consistent_settle; try done. rewrite !elem_of_cons. auto.
Qed.

Lemma clone_run w j o :
  heap w !! j = Some o →
  clone j w
    = (Return (length (heap w)),
       MkWorld (heap w ++ [ComfyJob.new (ComfyJob.workflow o)]) (clients w)
               (network w) (calls w)).
Proof.
  intros Hj. unfold clone. rewrite bind_run. unfold new_ComfyJob.
  rewrite bind_run. unfold read. simpl.
  rewrite (lookup_app_l_Some _ _ _ _ Hj). rewrite bind_run. unfold write.
  simpl. do 2 f_equal.
  rewrite (alter_as_insert _ _ _ (ComfyJob.new (VObj [])))
    by apply list_lookup_middle, eq_refl.
  replace (length (heap w)) with (length (heap w) + 0) at 1 by lia.
  by rewrite insert_app_r.
Qed.

(** Whatever [j] is, [clone] leaves one more job, being built. *)
Lemma clone_world w j :
  ∃ wk, (clone j w).2
        = MkWorld (heap w ++ [ComfyJob.new wk]) (clients w) (network w)
                  (calls w).
Proof.
  destruct (heap w !! j) as [o|] eqn:Hj.
  { exists (ComfyJob.workflow o). by rewrite (clone_run _ _ _ Hj). }
  unfold clone. rewrite bind_run. unfold new_ComfyJob.
  rewrite bind_run. unfold read. simpl.
  destruct ((heap w ++ [ComfyJob.new (VObj [])]) !! j) as [o|] eqn:Hj';
    [|by eexists].
  exists (ComfyJob.workflow o). rewrite bind_run. unfold write. simpl.
  f_equal.
  rewrite (alter_as_insert _ _ _ (ComfyJob.new (VObj [])))
    by apply list_lookup_middle, eq_refl.
  replace (length (heap w)) with (length (heap w) + 0) at 1 by lia.
  by rewrite insert_app_r.
Qed.

(** ** The order of the lifecycle *)

Lemma advances_refl s : advances s s = true.
Proof. by destruct s. Qed.

Lemma advances_trans s1 s2 s3 :
  advances s1 s2 = true → advances s2 s3 = true → advances s1 s3 = true.
Proof. by destruct s1, s2, s3. Qed.

Lemma follows_refl w : follows w w.
Proof. intros j o Hj. exists o. split; [done|apply advances_refl]. Qed.

Lemma follows_trans w1 w2 w3 : follows w1 w2 → follows w2 w3 → follows w1 w3.
Proof.
  intros H12 H23 j o Hj.
  destruct (H12 j o Hj) as (o2 & Hj2 & Ha). destruct (H23 j o2 Hj2) as (o3 & Hj3 & Hb).
  exists o3. split; [done|]. by eapply advances_trans.
Qed.

Lemma follows_new_job w wk cs n l :
  follows w (MkWorld (heap w ++ [ComfyJob.new wk]) cs n l).
Proof.
  intros j o Hj. exists o. split; [|apply advances_refl].
  simpl. by apply lookup_app_l_Some.
Qed.

Lemma follows_insert w j o o' cs n l :
  heap w !! j = Some o →
  advances (ComfyJob.status o) (ComfyJob.status o') = true →
  follows w (MkWorld (<[j:=o']> (heap w)) cs n l).
Proof.
  intros Hj Ha j' o1 Hj'. simpl. destruct (decide (j = j')) as [<-|Hne].
  - exists o'. split; [|congruence].
    apply list_lookup_insert_eq. by eapply lookup_lt_Some.
  - exists o1. split; [|apply advances_refl]. by rewrite list_lookup_insert_ne.
Qed.

Lemma advances_settle s s' :
  s ∈ [queued; running; failed] → s' ∈ [completed; failed] →
  advances s s' = true.
Proof.
  rewrite !elem_of_cons, !elem_of_nil.
  by intros [->|[->|[->|[]]]] [->|[->|[]]].
Qed.

(** ** Every reachable world is consistent *)

Lemma evolved_log_free w0 : log_free (evolved w0).
Proof.
  intros w n l [Hw H0]. split; [by apply consistent_log_free|done].
Qed.

Lemma evolved_step w0 w w' :
  evolved w0 w → consistent w' → follows w w' → evolved w0 w'.
Proof. intros [_ H0] Hw' H. split; [done|]. by eapply follows_trans. Qed.

Lemma evolved_entry_onError w0 w c cl k t obj errs :
  evolved w0 w → clients w !! c = Some cl →
  map_get k (ComfyClient.jobs cl) = Some t →
  evolved w0 (entry_onError t obj errs w).2.
Proof.
  intros Hw Hc Ht. apply (evolved_step w0 w); [done| |].
  { eapply consistent_entry_onError; [apply Hw|done..]. }
  destruct (entry_job w c cl k t (proj1 Hw) Hc Ht)
    as (_ & o & Ho & Hu & Hp & Hst & _).
  rewrite (entry_onError_run _ _ _ _ _ _ _ _ Ho Hp Hu Hc). simpl.
  apply (follows_insert w _ o); [done|]. simpl.
  apply advances_settle; [done|]. rewrite !elem_of_cons. auto.
Qed.

Lemma evolved_entry_onCompleted w0 w c cl k t obj :
  evolved w0 w → clients w !! c = Some cl →
  map_get k (ComfyClient.jobs cl) = Some t →
  evolved w0 (entry_onCompleted t obj w).2.
Proof.
  intros Hw Hc Ht. apply (evolved_step w0 w); [done| |].
  { eapply consistent_entry_onCompleted; [apply Hw|done..]. }
  destruct (entry_job w c cl k t (proj1 Hw) Hc Ht)
    as (_ & o & Ho & Hu & Hp & Hst & _).
  rewrite (entry_onCompleted_run _ _ _ _ _ _ _ Ho Hp Hu Hc). simpl.
  apply (follows_insert w _ o); [done|]. simpl.
  apply advances_settle; [done|]. rewrite !elem_of_cons. auto.
Qed.

Section Evolved.
Context (w0 : World).

Lemma evolved_on_message c data : keeps (evolved w0) (on_message c data).
Proof.
  destruct data as [d|id node| |ty]; try apply keeps_ret.
  apply keeps_get_client_bind. intros w cl Hw Hc. simpl.
  destruct (is_null node); [|done].
  destruct (map_get id (ComfyClient.jobs cl)) as [t|] eqn:Ht; [|done].
  by eapply evolved_entry_onCompleted.
Qed.

Lemma evolved_clear_queue c resp : keeps (evolved w0) (clear_queue c resp).
Proof.
  apply keeps_bind; [apply keeps_get_client|intros cl].
  apply keeps_bind; [apply keeps_fetch, evolved_log_free|intros tmp].
  destruct (ok tmp); [|apply keeps_throw].
  apply keeps_bind; [|intros _; apply keeps_ret].
  apply keeps_for_of_jobs. intros w cl' key value Hw Hc Hv.
  by eapply evolved_entry_onError.
Qed.

Lemma evolved_delete_queue_entries c entries resp :
  keeps (evolved w0) (delete_queue_entries c entries resp).
Proof.
  apply keeps_bind; [apply keeps_get_client|intros cl].
  apply keeps_bind; [apply keeps_fetch, evolved_log_free|intros tmp].
  destruct (ok tmp); [|apply keeps_throw].
  apply keeps_bind; [|intros _; apply keeps_ret].
  apply keeps_for_of_jobs. intros w cl' key value Hw Hc Hv.
  destruct (includes key entries); [|done].
  by eapply evolved_entry_onError.
Qed.

Lemma evolved_cancel j resp : keeps (evolved w0) (cancel j resp).
Proof.
  apply keeps_bind; [apply keeps_read|intros st].
  case_bool_decide; [apply keeps_ret|].
  apply keeps_bind; [apply keeps_read_parent|intros p].
  apply keeps_bind; [apply keeps_read|intros [id|]]; [|apply keeps_throw].
  apply keeps_bind; [apply evolved_delete_queue_entries|intros _].
  apply keeps_ret.
Qed.

Lemma evolved_clone j : keeps (evolved w0) (clone j).
Proof.
  intros w Hw. destruct (clone_world w j) as [wk ->].
  apply (evolved_step w0 w); [done| |apply follows_new_job].
  destruct Hw as [Hw _]. destruct w. by apply consistent_new_job.
Qed.

Lemma evolved_queue w j p cbs resp :
  evolved w0 w → unused (prompt_id (json resp)) w = true →
  evolved w0 (queue j p cbs resp w).2.
Proof.
  intros Hw Hid. destruct (heap w !! j) as [o|] eqn:Hj.
  2: { by rewrite queue_dangling. }
  destruct (decide (ComfyJob.status o = building)) as [Hst|Hst].
  2: { by rewrite (queue_not_building _ _ _ _ _ _ Hj Hst). }
  assert (Hattach : ∀ n l,
    evolved w0 (MkWorld (<[j:=attached o p cbs]> (heap w)) (clients w) n l)).
  { intros n l. apply (evolved_step w0 w); [done| |].
    - apply consistent_attach; [apply Hw|done..].
    - apply (follows_insert w j o); [done|]. simpl. apply advances_refl. }
  destruct (clients w !! p) as [cl|] eqn:Hp.
  2: { rewrite (queue_no_client _ _ _ _ _ _ Hj Hst Hp). apply Hattach. }
  destruct (ok resp) eqn:Hok.
  2: { rewrite (queue_refused _ _ _ _ _ _ _ Hj Hst Hp Hok). apply Hattach. }
  rewrite (queue_accepted _ _ _ _ _ _ _ Hj Hst Hp Hok). simpl.
  apply (evolved_step w0 w); [done| |].
  - apply consistent_submit; [apply Hw|done..].
  - apply (follows_insert w j o); [done|]. simpl. rewrite Hst.
    by destruct (has_node_errors _).
Qed.

Lemma evolved_exec w op :
  evolved w0 w → admissible w op = true → evolved w0 (exec op w).
Proof.
  intros Hw Hop. destruct op; simpl in *.
  - apply (evolved_step w0 w); [done| |by intros ? ? ?; eexists; split;
      [|apply advances_refl]].
    destruct Hw as [Hw _]. destruct w. by apply consistent_new_client.
  - apply (evolved_step w0 w); [done| |apply follows_new_job].
    destruct Hw as [Hw _]. destruct w. by apply consistent_new_job.
  - by apply evolved_clone.
  - by apply evolved_queue.
  - by apply evolved_cancel.
  - by apply evolved_on_message.
  - by apply evolved_clear_queue.
  - by apply evolved_delete_queue_entries.
Qed.

Lemma evolved_run ops w :
  evolved w0 w → admissible_run ops w = true → evolved w0 (run ops w).
Proof.
  revert w. induction ops as [|op ops IH]; intros w Hw Hops; [done|].
  simpl in Hops. apply andb_prop in Hops as [Hop Hops].
  simpl. apply IH; [|done]. by apply evolved_exec.
Qed.
End Evolved.

Lemma consistent_exec w op :
  consistent w → admissible w op = true → consistent (exec op w).
Proof.
  intros Hw Hop. apply (evolved_exec w w op); [|done].
  split; [done|apply follows_refl].
Qed.

Theorem reachable_consistent w : reachable w → consistent w.
Proof.
  induction 1 as [|w op _ IH Hop]; [apply consistent_empty|].
  by apply consistent_exec.
Qed.

(** Along the operations of the client, from a reachable world, every job
    stays and only moves forward in the order [advances]: it never is
    being built or queued again, and a completed job stays completed. *)
Theorem lifecycle_advances w ops j o :
  reachable w → admissible_run ops w = true → heap w !! j = Some o →
  ∃ o', heap (run ops w) !! j = Some o'
        ∧ advances (ComfyJob.status o) (ComfyJob.status o') = true.
Proof.
  intros Hw Hops Hj.
  destruct (evolved_run w ops w) as [_ Hfollows]; [|done|by apply Hfollows].
  split; [by apply reachable_consistent|apply follows_refl].
Qed.

(** C10.  When the submission request itself fails (the response to
    [POST /prompt] is not ok, so [post_prompt] throws), the error reaches
    the caller of [queue], the job is still building, its uid is still
    undefined, and the registry of every client is what it was. *)
Theorem queue_request_failure (w : World) j o p cl cbs resp :
  reachable w →
  heap w !! j = Some o → ComfyJob.status o = building →
  clients w !! p = Some cl → ok resp = false →
  (queue j p cbs resp w).1 = Throw (RequestError resp)
  ∧ status_of (queue j p cbs resp w).2 j = Some building
  ∧ uid_of (queue j p cbs resp w).2 j = None
  ∧ ∀ c, registry (queue j p cbs resp w).2 c = registry w c.
Proof.
  intros Hw Hj Hst Hp Hok.
  rewrite (queue_refused _ _ _ _ _ _ _ Hj Hst Hp Hok). simpl.
  unfold status_of, uid_of. simpl.
  rewrite list_lookup_insert_eq by by eapply lookup_lt_Some. simpl.
  repeat split; [by rewrite Hst|].
  apply (building_fresh w (reachable_consistent w Hw) j o Hj Hst).
Qed.

Lemma queue_request_failure_witness :
  reachable (run setup empty_world)
  ∧ (queue 0 0 observers (refused (MkPromptReply "" [] VUndefined))
           (run setup empty_world)).1
    = Throw (JsError "Internal Server Error" (Some 500%Z))
  ∧ status_of (queue 0 0 observers (refused (MkPromptReply "" [] VUndefined))
                     (run setup empty_world)).2 0 = Some building
  ∧ uid_of (queue 0 0 observers (refused (MkPromptReply "" [] VUndefined))
                  (run setup empty_world)).2 0 = None
  ∧ ∀ c, registry (queue 0 0 observers
                     (refused (MkPromptReply "" [] VUndefined))
                     (run setup empty_world)).2 c
         = registry (run setup empty_world) c.
Proof.
  assert (Hreach : reachable (run setup empty_world))
    by (apply reachable_run; [apply reachable_empty|reflexivity]).
  split; [exact Hreach|].
  apply (queue_request_failure (run setup empty_world) 0
           (ComfyJob.new (VObj [("3", VObj [])])) 0
           (ComfyClient.new "127.0.0.1:8188" false "c0ffee") observers
           (refused (MkPromptReply "" [] VUndefined)) Hreach);
    reflexivity.
Defined.

(** ** A job no entry refers to *)

Lemma registry_update_jobs w c f c' k e :
  map_get k (registry (update_jobs c f w).2 c') = Some e →
  (c' = c ∧ ∃ cl, clients w !! c = Some cl
                  ∧ map_get k (f (ComfyClient.jobs cl)) = Some e)
  ∨ (c' ≠ c ∧ map_get k (registry w c') = Some e).
Proof.
  unfold registry, update_jobs. simpl. intros He.
  destruct (decide (c' = c)) as [->|Hne].
  - left. split; [done|]. rewrite list_lookup_alter_eq in He.
    destruct (clients w !! c) as [cl|]; [eauto|done].
  - right. split; [done|]. by rewrite list_lookup_alter_ne in He.
Qed.

Section Aside.
Context (c : job_ref) (r : ComfyJob.t).

Lemma aside_write j f : j ≠ c → keeps (aside c r) (write j f).
Proof.
  intros Hne w [Hc Hreg]. split; [|done].
  simpl. by rewrite list_lookup_alter_ne.
Qed.

Lemma aside_set c' k j cbs :
  j ≠ c → keeps (aside c r) (update_jobs c' (map_set k (Entry.Build j j cbs))).
Proof.
  intros Hne w [Hc Hreg]. split; [done|].
  intros c'' k' e [(-> & cl & Hcl & He)|[_ He]]%registry_update_jobs;
    [|by eapply Hreg].
  destruct (decide (k = k')) as [->|Hk].
  - rewrite map_get_set_eq in He. by simplify_eq.
  - rewrite map_get_set_ne in He by done.
    apply (Hreg c' k'). by rewrite (registry_lookup _ _ _ Hcl).
Qed.

Lemma aside_delete c' k : keeps (aside c r) (update_jobs c' (map_delete k)).
Proof.
  intros w [Hc Hreg]. split; [done|].
  intros c'' k' e [(-> & cl & Hcl & He)|[_ He]]%registry_update_jobs;
    [|by eapply Hreg].
  apply map_get_delete_Some in He as [_ He].
  apply (Hreg c' k'). by rewrite (registry_lookup _ _ _ Hcl).
Qed.

Lemma aside_new_job wk : keeps (aside c r) (new_ComfyJob wk).
Proof.
  intros w [Hc Hreg]. split; [|done]. simpl. by apply lookup_app_l_Some.
Qed.

Lemma aside_new_client e s u : keeps (aside c r) (new_ComfyClient e s u).
Proof.
  intros w [Hc Hreg]. split; [done|]. intros c' k t Ht.
  simpl in Ht. rewrite registry_new_client in Ht by done.
  apply (Hreg c' k). by destruct w.
Qed.

Lemma aside_clone j : keeps (aside c r) (clone j).
Proof.
  intros w [Hc Hreg]. destruct (clone_world w j) as [wk ->].
  split; [|done]. simpl. by apply lookup_app_l_Some.
Qed.

(** Operations other than [queue] on [c] leave it aside. *)
Lemma aside_run ops w :
  Forall (spares c) ops → aside c r w → aside c r (run ops w).
Proof.
  apply (keeps_run (aside c r) (λ j, j ≠ c)).
  - by intros w' n l.
  - intros j f Hj _. by apply aside_write.
  - intros w' c' cl k t [_ Hreg] Hcl Ht. apply (Hreg c' k).
    by rewrite (registry_lookup _ _ _ Hcl).
  - apply aside_set.
  - apply aside_delete.
  - apply aside_new_job.
  - apply aside_new_client.
  - apply aside_clone.
Qed.
End Aside.

(** C9.  In a reachable world, [clone] of a job in any status returns a
    fresh reference to a job that is being built, has the workflow of the
    original, no uid and no client, and leaves the original as it was.
    Whatever operations follow, short of queueing the clone itself, the
    clone keeps these fields; and queueing it on any client then returns,
    the clone being queued or failed on node errors under the identity of
    the reply, independently of what became of the original. *)
Theorem clone_independent (w : World) j o :
  reachable w → heap w !! j = Some o →
  (clone j w).1 = Return (length (heap w))
  ∧ heap w !! length (heap w) = None
  ∧ heap (clone j w).2 !! length (heap w)
    = Some (ComfyJob.new (ComfyJob.workflow o))
  ∧ heap (clone j w).2 !! j = Some o
  ∧ ∀ ops, Forall (spares (length (heap w))) ops →
      heap (run ops (clone j w).2) !! length (heap w)
        = Some (ComfyJob.new (ComfyJob.workflow o))
      ∧ ∀ p cl cbs resp,
          clients (run ops (clone j w).2) !! p = Some cl → ok resp = true →
          (queue (length (heap w)) p cbs resp (run ops (clone j w).2)).1
            = Return (length (heap w))
          ∧ heap (queue (length (heap w)) p cbs resp
                    (run ops (clone j w).2)).2 !! length (heap w)
            = Some (submitted_job (ComfyJob.new (ComfyJob.workflow o)) p cbs
                      (json resp)).
Proof.
  intros Hw Hj. rewrite (clone_run _ _ _ Hj). simpl.
  set (c := length (heap w)). set (w1 := MkWorld _ _ _ _).
  assert (Hfresh : heap w !! c = None) by by apply lookup_ge_None.
  assert (Hc : heap w1 !! c = Some (ComfyJob.new (ComfyJob.workflow o)))
    by apply list_lookup_middle, eq_refl.
  do 3 (split; [done|]). split; [by apply lookup_app_l_Some|].
  assert (Haside : aside c (ComfyJob.new (ComfyJob.workflow o)) w1).
  { split; [done|]. intros c' k e He Heq.
    destruct (entries_sound w (reachable_consistent w Hw) c' k e)
      as (_ & o' & Ho' & _); [by destruct w|].
    rewrite Heq in Ho'. congruence. }
  intros ops Hops.
  destruct (aside_run c _ ops w1 Hops Haside) as [Hc' _].
  split; [done|]. intros p cl cbs resp Hp Hok.
  rewrite (queue_accepted _ _ _ _ _ _ _ Hc' eq_refl Hp Hok). simpl.
  split; [done|]. apply list_lookup_insert_eq. by eapply lookup_lt_Some.
Qed.

Lemma clone_independent_witness :
  reachable queued_X
  ∧ (clone 0 queued_X).1 = Return 1
  ∧ heap (run [Message 0 (Executing "X" VNull)] (clone 0 queued_X).2) !! 1
    = Some (ComfyJob.new (VObj [("3", VObj [])]))
  ∧ (queue 1 0 observers (accepted "Y")
       (run [Message 0 (Executing "X" VNull)] (clone 0 queued_X).2)).1
    = Return 1.
Proof.
  assert (Hreach : reachable queued_X)
    by (apply reachable_run; [apply reachable_empty|reflexivity]).
  split; [exact Hreach|].
  destruct (clone_independent queued_X 0
              (ComfyJob.Build (Some 0) (Some "X") queued (Some 1) None
                 (Some 3) (Some 4) (VObj [("3", VObj [])]) VUndefined)
              Hreach eq_refl) as (Hret & _ & _ & _ & Hafter).
  split; [exact Hret|].
  destruct (Hafter [Message 0 (Executing "X" VNull)]) as [Hkept Hqueue].
  { repeat constructor. }
  split; [exact Hkept|].
  exact (proj1 (Hqueue 0 (ComfyClient.new "127.0.0.1:8188" false "c0ffee")
                  observers (accepted "Y") eq_refl eq_refl)).
Defined.

(** ** Cancelling a job *)

Lemma map_get_Some_keys {V} (m : JsMap V) k v :
  map_get k m = Some v → k ∈ map_keys m.
Proof.
  unfold map_keys. induction m as [|[k' v'] m IH]; simpl; [done|].
  case_bool_decide as Hk.
  - subst k'. intros _. apply list_elem_of_here.
  - intros Hm. apply list_elem_of_further. by apply IH.
Qed.

(** A loop whose body only acts on key [id] does nothing when [id] is not
    among the keys to visit or is no longer in the registry. *)
Lemma for_of_from_idle c keys (body : string → Entry.t → JS unit) id :
  (∀ key value, key ≠ id → body key value = mret tt) →
  ∀ w cl, clients w !! c = Some cl →
    id ∉ keys ∨ map_get id (ComfyClient.jobs cl) = None →
    for_of_from c keys body w = (Return tt, w).
Proof.
  intros Hbody. induction keys as [|key rest IH]; intros w cl Hc Hid; [done|].
  simpl. rewrite bind_run, (get_client_run _ _ _ Hc), bind_run.
  assert (Hrest : id ∉ rest ∨ map_get id (ComfyClient.jobs cl) = None).
  { destruct Hid as [Hid|Hid]; [left|by right].
    intros Hin. apply Hid. by apply list_elem_of_further. }
  destruct (decide (key = id)) as [->|Hne].
  - destruct Hid as [Hid|Hid]; [destruct Hid; apply list_elem_of_here|].
    rewrite Hid. simpl. by apply (IH w cl).
  - destruct (map_get key (ComfyClient.jobs cl)) as [value|].
    + rewrite (Hbody key value Hne). simpl. by apply (IH w cl).
    + simpl. by apply (IH w cl).
Qed.

Lemma live_not_idle s :
  s ∈ [queued; running] → s ∉ [cancelled; failed; completed; building].
Proof.
  intros Hs Hn. rewrite !elem_of_cons, elem_of_nil in Hs.
  rewrite !elem_of_cons, elem_of_nil in Hn.
  destruct Hs as [->|[->|[]]]; by destruct Hn as [?|[?|[?|[?|[]]]]].
Qed.

(** ** Submissions answered with node errors *)

(** Whatever the job and the reply, a successful response with a non-empty
    [node_errors] leaves the job failed, its error callback called with the
    [errors] member of the reply, and an entry for it in the registry of
    its client. *)
Lemma queue_node_errors_registered w j o p cl cbs resp :
  heap w !! j = Some o → ComfyJob.status o = building →
  clients w !! p = Some cl → ok resp = true →
  node_errors (json resp) ≠ [] →
  (queue j p cbs resp w).1 = Return j
  ∧ status_of (queue j p cbs resp w).2 j = Some failed
  ∧ calls (queue j p cbs resp w).2
    = calls w ++ optional_call (Callbacks.onError cbs)
                               (λ f, CallError f j (reply_errors (json resp)))
  ∧ map_get (prompt_id (json resp)) (registry (queue j p cbs resp w).2 p)
    = Some (Entry.Build j j cbs).
Proof.
  intros Hj Hst Hp Hok Herrs.
  assert (Hbad : has_node_errors (json resp) = true).
  { apply bool_decide_eq_true. by destruct (node_errors (json resp)). }
  rewrite (queue_accepted _ _ _ _ _ _ _ Hj Hst Hp Hok). simpl.
  unfold status_of, submission_calls. simpl. rewrite Hbad.
  split; [done|]. split.
  { rewrite list_lookup_insert_eq by by eapply lookup_lt_Some.
    simpl. by rewrite Hbad. }
  split; [done|].
  rewrite (registry_insert_eq _ _ _ _ _ _ _ Hp). simpl.
  apply map_get_set_eq.
Qed.

(** ** Clearing the queue *)

(** The loop of [clear_queue] from a consistent world: it returns, every
    entry whose key is visited is gone and its job failed, no entry
    appears, and a job without entry at the client is not assigned to. *)
Lemma clear_loop c keys :
  ∀ w cl, consistent w → clients w !! c = Some cl →
    ∃ w' cl',
      for_of_from c keys
        (λ key value, entry_onError value (Entry.job value) (VArr [])) w
        = (Return tt, w')
      ∧ consistent w' ∧ clients w' !! c = Some cl'
      ∧ (∀ k t, map_get k (ComfyClient.jobs cl') = Some t →
                map_get k (ComfyClient.jobs cl) = Some t ∧ k ∉ keys)
      ∧ (∀ k t, map_get k (ComfyClient.jobs cl) = Some t → k ∈ keys →
                status_of w' (Entry.this t) = Some failed)
      ∧ (∀ j, (∀ k t, map_get k (ComfyClient.jobs cl) = Some t →
                      Entry.this t ≠ j) →
              heap w' !! j = heap w !! j).
Proof.
  induction keys as [|key rest IH]; intros w cl Hw Hc.
  { exists w, cl. do 3 (split; [done|]). split; [|split]; [| |done].
    - intros k t Hk. split; [done|]. apply not_elem_of_nil.
    - intros k t _ Hin. by apply elem_of_nil in Hin. }
  simpl. rewrite bind_run, (get_client_run _ _ _ Hc), bind_run.
  destruct (map_get key (ComfyClient.jobs cl)) as [t|] eqn:Ht.
  - destruct (entry_job w c cl key t Hw Hc Ht)
      as (Hjob & o & Ho & Hu & Hp & _).
    pose proof (consistent_entry_onError w c cl key t (Entry.job t) (VArr [])
                  Hw Hc Ht) as Hw1.
    rewrite (entry_onError_run _ _ _ _ _ _ _ _ Ho Hp Hu Hc) in Hw1 |- *.
    simpl in Hw1. set (w1 := settled _ _ _ _ _ _ _ _) in *.
    assert (Hc1 : clients w1 !! c
                  = Some (ComfyClient.set_jobs
                            (map_delete key (ComfyClient.jobs cl)) cl)).
    { simpl. apply list_lookup_insert_eq. by eapply lookup_lt_Some. }
    destruct (IH w1 _ Hw1 Hc1)
      as (w' & cl' & Hrun & Hw' & Hc' & Hleft & Hfailed & Hframe).
    assert (Hsame : ∀ k t', map_get k (ComfyClient.jobs cl) = Some t' →
                            Entry.this t' = Entry.this t → k = key).
    { intros k t' Ht' Heq.
      destruct (entry_job w c cl k t' Hw Hc Ht') as (_ & o' & Ho' & Hu' & _).
      rewrite Heq in Ho'. congruence. }
    assert (Hdone : status_of w' (Entry.this t) = Some failed).
    { unfold status_of. rewrite Hframe.
      - simpl. rewrite list_lookup_insert_eq; [done|].
        by eapply lookup_lt_Some.
      - simpl. intros k t' [Hne Ht']%map_get_delete_Some Heq.
        apply Hne. symmetry. by eapply Hsame. }
    exists w', cl'. split; [done|]. split; [done|]. split; [done|].
    split; [|split].
    + intros k t' Hk. destruct (Hleft k t' Hk) as [Hk1 Hk2].
      simpl in Hk1. apply map_get_delete_Some in Hk1 as [Hne Hk1].
      split; [done|]. rewrite elem_of_cons. intros [->|?]; done.
    + intros k t' Ht' [->|Hin]%elem_of_cons.
      * assert (t' = t) as -> by congruence. done.
      * destruct (decide (k = key)) as [->|Hne].
        { assert (t' = t) as -> by congruence. done. }
        apply (Hfailed k); [|done]. simpl. by rewrite map_get_delete_ne.
    + intros j Hj. rewrite Hframe.
      * simpl. apply list_lookup_insert_ne. by apply (Hj key).
      * simpl. intros k t' [_ Ht']%map_get_delete_Some. by apply (Hj k).
  - simpl. destruct (IH w cl Hw Hc)
      as (w' & cl' & Hrun & Hw' & Hc' & Hleft & Hfailed & Hframe).
    exists w', cl'. split; [done|]. split; [done|]. split; [done|].
    split; [|split]; [| |done].
    + intros k t' Hk. destruct (Hleft k t' Hk) as [Hk1 Hk2].
      split; [done|]. rewrite elem_of_cons. intros [->|?]; [congruence|done].
    + intros k t' Ht' [->|Hin]%elem_of_cons; [congruence|].
      by apply (Hfailed k).
Qed.

(** A successful bulk queue-clear on a reachable world: the registry of the
    client is empty afterwards, every job it tracked is failed, and a job
    it did not track is what it was. *)
Lemma clear_queue_fails_tracked w c cl resp :
  reachable w → clients w !! c = Some cl → ok resp = true →
  (clear_queue c resp w).1 = Return (json resp)
  ∧ (∀ k, map_get k (registry (clear_queue c resp w).2 c) = None)
  ∧ (∀ k t, map_get k (ComfyClient.jobs cl) = Some t →
            status_of (clear_queue c resp w).2 (Entry.this t) = Some failed)
  ∧ (∀ j, (∀ k t, map_get k (ComfyClient.jobs cl) = Some t →
                  Entry.this t ≠ j) →
          heap (clear_queue c resp w).2 !! j = heap w !! j).
Proof.
  intros Hw Hc Hok. apply reachable_consistent in Hw.
  set (w1 := sent (MkRequest (endpoint_url cl "/queue") POST (Some JsonClear))
                  w).
  assert (Hw1 : consistent w1) by by apply consistent_log_free.
  assert (Hc1 : clients w1 !! c = Some cl) by done.
  destruct (clear_loop c (map_keys (ComfyClient.jobs cl)) w1 cl Hw1 Hc1)
    as (w' & cl' & Hrun & Hw' & Hc' & Hleft & Hfailed & Hframe).
  assert (Hall : clear_queue c resp w = (Return (json resp), w')).
  { unfold clear_queue.
    rewrite bind_run, (get_client_run _ _ _ Hc), bind_run.
    unfold fetch at 1. rewrite Hok, bind_run. unfold for_of_jobs.
    rewrite bind_run. fold (sent (MkRequest (endpoint_url cl "/queue") POST
                                    (Some JsonClear)) w). fold w1.
    by rewrite (get_client_run _ _ _ Hc1), Hrun. }
  rewrite Hall. simpl. split; [done|]. split; [|split].
  - intros k. rewrite (registry_lookup _ _ _ Hc').
    destruct (map_get k (ComfyClient.jobs cl')) as [t|] eqn:Hk; [|done].
    destruct (Hleft k t Hk) as [Hk1 Hk2]. destruct Hk2.
    by eapply map_get_Some_keys.
  - intros k t Ht. apply (Hfailed k t Ht). by eapply map_get_Some_keys.
  - intros j Hj. by rewrite Hframe.
Qed.

(** * Further properties of the code *)

(** ** Induction over the operations of the client *)

(** A property holds in every reachable world as soon as it survives the
    elementary steps the methods are made of: sending a request, the
    registered [onCompleted] and [onError] on an entry of the registry,
    [queue], and the construction of a job or of a client. *)
Section Invariant.
Context (P : World → Prop).
Hypothesis Psent : ∀ w req, P w → P (sent req w).
Hypothesis Pcompleted : ∀ w c cl k t,
  P w → clients w !! c = Some cl →
  map_get k (ComfyClient.jobs cl) = Some t →
  P (entry_onCompleted t (Entry.job t) w).2.
Hypothesis Perror : ∀ w c cl k t,
  P w → clients w !! c = Some cl →
  map_get k (ComfyClient.jobs cl) = Some t →
  P (entry_onError t (Entry.job t) (VArr []) w).2.
Hypothesis Pqueue : ∀ w j p cbs resp,
  P w → unused (prompt_id (json resp)) w = true → P (queue j p cbs resp w).2.
Hypothesis Pnew_job : ∀ w wk,
  P w →
  P (MkWorld (heap w ++ [ComfyJob.new wk]) (clients w) (network w) (calls w)).
Hypothesis Pnew_client : ∀ w e s u, P w → P (new_ComfyClient e s u w).2.

Lemma invariant_fetch {B} u m b (resp : Response B) :
  keeps P (fetch u m b resp).
Proof. intros w Hw. by apply (Psent w (MkRequest u m b)). Qed.

Lemma invariant_on_message c data : keeps P (on_message c data).
Proof.
  destruct data as [d|id node| |ty]; try apply keeps_ret.
  apply keeps_get_client_bind. intros w cl Hw Hc. simpl.
  destruct (is_null node); [|done].
  destruct (map_get id (ComfyClient.jobs cl)) as [t|] eqn:Ht; [|done].
  by eapply Pcompleted.
Qed.

Lemma invariant_clear_queue c resp : keeps P (clear_queue c resp).
Proof.
  apply keeps_bind; [apply keeps_get_client|intros cl].
  apply keeps_bind; [apply invariant_fetch|intros tmp].
  destruct (ok tmp); [|apply keeps_throw].
  apply keeps_bind; [|intros _; apply keeps_ret].
  apply keeps_for_of_jobs. intros w cl' key value Hw Hc Hv.
  by eapply Perror.
Qed.

Lemma invariant_delete_queue_entries c entries resp :
  keeps P (delete_queue_entries c entries resp).
Proof.
  apply keeps_bind; [apply keeps_get_client|intros cl].
  apply keeps_bind; [apply invariant_fetch|intros tmp].
  destruct (ok tmp); [|apply keeps_throw].
  apply keeps_bind; [|intros _; apply keeps_ret].
  apply keeps_for_of_jobs. intros w cl' key value Hw Hc Hv.
  destruct (includes key entries); [|done].
  by eapply Perror.
Qed.

Lemma invariant_cancel j resp : keeps P (cancel j resp).
Proof.
  apply keeps_bind; [apply keeps_read|intros st].
  case_bool_decide; [apply keeps_ret|].
  apply keeps_bind; [apply keeps_read_parent|intros p].
  apply keeps_bind; [apply keeps_read|intros [id|]]; [|apply keeps_throw].
  apply keeps_bind; [apply invariant_delete_queue_entries|intros _].
  apply keeps_ret.
Qed.

Lemma invariant_exec w op :
  P w → admissible w op = true → P (exec op w).
Proof.
  intros Hw Hop. destruct op; simpl in *.
  - by apply Pnew_client.
  - by apply Pnew_job.
  - destruct (clone_world w j) as [wk ->]. by apply Pnew_job.
  - by apply Pqueue.
  - by apply invariant_cancel.
  - by apply invariant_on_message.
  - by apply invariant_clear_queue.
  - by apply invariant_delete_queue_entries.
Qed.

Lemma invariant_reachable w : P empty_world → reachable w → P w.
Proof.
  intros H0. induction 1 as [|w op _ IH Hop]; [done|].
  by apply invariant_exec.
Qed.
End Invariant.

(** The worlds [queue] can leave behind. *)
Lemma queue_world_cases w j p cbs resp :
  (queue j p cbs resp w).2 = w
  ∨ (∃ o n, heap w !! j = Some o ∧ ComfyJob.status o = building
            ∧ (queue j p cbs resp w).2
              = MkWorld (<[j:=attached o p cbs]> (heap w)) (clients w) n
                        (calls w))
  ∨ (∃ o cl, heap w !! j = Some o ∧ ComfyJob.status o = building
             ∧ clients w !! p = Some cl ∧ ok resp = true
             ∧ (queue j p cbs resp w).2
               = MkWorld (<[j:=submitted_job o p cbs (json resp)]> (heap w))
                   (<[p:=ComfyClient.set_jobs
                          (map_set (prompt_id (json resp))
                                   (Entry.Build j j cbs)
                                   (ComfyClient.jobs cl)) cl]> (clients w))
                   (network w ++ [prompt_request cl (ComfyJob.workflow o)])
                   (calls w ++ submission_calls j cbs (json resp))).
Proof.
  destruct (heap w !! j) as [o|] eqn:Hj.
  2: { left. by rewrite queue_dangling. }
  destruct (decide (ComfyJob.status o = building)) as [Hst|Hst].
  2: { left. by rewrite (queue_not_building _ _ _ _ _ _ Hj Hst). }
  destruct (clients w !! p) as [cl|] eqn:Hp.
  2: { right. left. exists o, (network w).
       by rewrite (queue_no_client _ _ _ _ _ _ Hj Hst Hp). }
  destruct (ok resp) eqn:Hok.
  - right. right. exists o, cl.
    by rewrite (queue_accepted _ _ _ _ _ _ _ Hj Hst Hp Hok).
  - right. left. eexists o, _.
    by rewrite (queue_refused _ _ _ _ _ _ _ Hj Hst Hp Hok).
Qed.

Lemma consistent_queue w j p cbs resp :
  consistent w → unused (prompt_id (json resp)) w = true →
  consistent (queue j p cbs resp w).2.
Proof.
  intros Hw Hid.
  apply (evolved_queue w w j p cbs resp); [|done].
  split; [done|apply follows_refl].
Qed.

(** In a consistent world the registered functions of an entry of the
    registry settle its job. *)
Lemma entry_onError_settled w c cl k t obj errs :
  consistent w → clients w !! c = Some cl →
  map_get k (ComfyClient.jobs cl) = Some t →
  ∃ o, heap w !! Entry.this t = Some o
       ∧ ComfyJob.status o ∈ [queued; running; failed]
       ∧ Entry.job t = Entry.this t
       ∧ (entry_onError t obj errs w).2
         = settled w t o failed c cl k
             (optional_call (Callbacks.onError (Entry.callbacks t))
                            (λ f, CallError f obj errs)).
Proof.
  intros Hw Hc Ht.
  destruct (entry_job w c cl k t Hw Hc Ht)
    as (Hjob & o & Ho & Hu & Hp & Hst & _).
  exists o. do 3 (split; [done|]).
  by rewrite (entry_onError_run _ _ _ _ _ _ _ _ Ho Hp Hu Hc).
Qed.

Lemma entry_onCompleted_settled w c cl k t obj :
  consistent w → clients w !! c = Some cl →
  map_get k (ComfyClient.jobs cl) = Some t →
  ∃ o, heap w !! Entry.this t = Some o
       ∧ ComfyJob.status o ∈ [queued; running; failed]
       ∧ Entry.job t = Entry.this t
       ∧ (entry_onCompleted t obj w).2
         = settled w t o completed c cl k
             (optional_call (Callbacks.onCompleted (Entry.callbacks t))
                            (λ f, CallCompleted f obj)).
Proof.
  intros Hw Hc Ht.
  destruct (entry_job w c cl k t Hw Hc Ht)
    as (Hjob & o & Ho & Hu & Hp & Hst & _).
  exists o. do 3 (split; [done|]).
  by rewrite (entry_onCompleted_run _ _ _ _ _ _ _ Ho Hp Hu Hc).
Qed.

(** ** Statuses that are never reached *)

Lemma plain_insert w j o' cs n l :
  plain w → ComfyJob.status o' ∈ [building; queued; completed; failed] →
  plain (MkWorld (<[j:=o']> (heap w)) cs n l).
Proof.
  intros Hw Ho' j' o1 Hj'. simpl in Hj'.
  apply list_lookup_insert_Some in Hj' as [(_ & <- & _)|[_ Hj']];
    [done|by eapply Hw].
Qed.

Lemma plain_new_job w wk cs n l :
  plain w → plain (MkWorld (heap w ++ [ComfyJob.new wk]) cs n l).
Proof.
  intros Hw j o Hj. simpl in Hj.
  apply lookup_snoc_Some in Hj as [[_ Hj]|[_ <-]]; [by eapply Hw|].
  simpl. apply list_elem_of_here.
Qed.

Lemma reachable_plain w : reachable w → plain w.
Proof.
  intros Hreach.
  apply (invariant_reachable (λ w, consistent w ∧ plain w)); [..|done].
  - intros w' req [Hc Hp]. split; [by apply consistent_log_free|done].
  - intros w' c cl k t [Hc Hp] Hcl Ht. split.
    + by eapply consistent_entry_onCompleted.
    + destruct (entry_onCompleted_settled w' c cl k t (Entry.job t) Hc Hcl Ht)
        as (o & _ & _ & _ & ->).
      apply plain_insert; [done|]. simpl. rewrite !elem_of_cons. auto.
  - intros w' c cl k t [Hc Hp] Hcl Ht. split.
    + by eapply consistent_entry_onError.
    + destruct (entry_onError_settled w' c cl k t (Entry.job t) (VArr [])
                  Hc Hcl Ht) as (o & _ & _ & _ & ->).
      apply plain_insert; [done|]. simpl. rewrite !elem_of_cons. auto.
  - intros w' j p cbs resp [Hc Hp] Hid. split; [by apply consistent_queue|].
    destruct (queue_world_cases w' j p cbs resp)
      as [->|[(o & n & Hj & Hst & ->)|(o & cl & Hj & Hst & _ & _ & ->)]].
    + done.
    + apply plain_insert; [done|]. simpl. rewrite Hst. apply list_elem_of_here.
    + apply plain_insert; [done|]. simpl.
      destruct (has_node_errors _); rewrite !elem_of_cons; auto.
  - intros w' wk [Hc Hp]. split.
    + destruct w'. by apply consistent_new_job.
    + by apply plain_new_job.
  - intros w' e s u [Hc Hp]. split; [|done].
    destruct w'. by apply consistent_new_client.
  - split; [apply consistent_empty|]. by intros j o Hj.
Qed.

(** X1.  In every reachable world no job is running and no job is
    cancelled: nothing calls the registered [onUpdate] and [onCancelled],
    the only functions that assign these statuses. *)
Theorem never_running_nor_cancelled (w : World) j o :
  reachable w → heap w !! j = Some o →
  ComfyJob.status o ≠ running ∧ ComfyJob.status o ≠ cancelled.
Proof.
  intros Hw Hj. pose proof (reachable_plain w Hw j o Hj) as Hst.
  rewrite !elem_of_cons, elem_of_nil in Hst.
  split; intros Heq; rewrite Heq in Hst; by destruct Hst as [?|[?|[?|[?|[]]]]].
Qed.

Lemma never_running_nor_cancelled_witness :
  reachable (run steps_3_7_null queued_X)
  ∧ completed ≠ running ∧ completed ≠ cancelled.
Proof.
  assert (Hreach : reachable (run steps_3_7_null queued_X)).
  { apply reachable_run; [|reflexivity].
    apply reachable_run; [apply reachable_empty|reflexivity]. }
  split; [exact Hreach|].
  exact (never_running_nor_cancelled (run steps_3_7_null queued_X) 0
           (ComfyJob.Build (Some 0) (Some "X") completed (Some 1) None
              (Some 3) (Some 4) (VObj [("3", VObj [])]) VUndefined)
           Hreach eq_refl).
Defined.

(** X2.  In every reachable world [completion] returns at its first turn,
    on any job, and leaves the world as it is: it never waits for
    anything. *)
Theorem completion_never_waits (w : World) j o fuel :
  reachable w → heap w !! j = Some o →
  completion (S fuel) j w = Some (Return tt, w).
Proof.
  intros Hw Hj. apply (completion_returns fuel j w o Hj).
  intros Heq. pose proof (reachable_plain w Hw j o Hj) as Hst.
  rewrite Heq, !elem_of_cons, elem_of_nil in Hst.
  by destruct Hst as [?|[?|[?|[?|[]]]]].
Qed.

Lemma completion_never_waits_witness :
  reachable queued_X
  ∧ completion 3 0 queued_X = Some (Return tt, queued_X).
Proof.
  assert (Hreach : reachable queued_X)
    by (apply reachable_run; [apply reachable_empty|reflexivity]).
  split; [exact Hreach|].
  exact (completion_never_waits queued_X 0
           (ComfyJob.Build (Some 0) (Some "X") queued (Some 1) None
              (Some 3) (Some 4) (VObj [("3", VObj [])]) VUndefined)
           2 Hreach eq_refl).
Defined.

(** ** The message listener *)

(** X6.  In a reachable world a frame [executing] with [node] null for an
    identity found in the registry of the client completes the job of the
    entry: the job, which was queued, running or failed, is completed, the
    entry is deleted and the other entries stay, the completion callback
    given to [queue] is called with the job, no other job is assigned to
    and no request is sent. *)
Theorem closing_frame_completes (w : World) c id t :
  reachable w → map_get id (registry w c) = Some t →
  ∃ o, heap w !! Entry.this t = Some o
       ∧ ComfyJob.status o ∈ [queued; running; failed]
       ∧ (on_message c (Executing id VNull) w).1 = Return tt
       ∧ heap (on_message c (Executing id VNull) w).2
         = <[Entry.this t:=ComfyJob.set_status completed o]> (heap w)
       ∧ map_get id (registry (on_message c (Executing id VNull) w).2 c) = None
       ∧ (∀ k, k ≠ id →
            map_get k (registry (on_message c (Executing id VNull) w).2 c)
            = map_get k (registry w c))
       ∧ calls (on_message c (Executing id VNull) w).2
         = calls w ++ optional_call (Callbacks.onCompleted (Entry.callbacks t))
                                    (λ f, CallCompleted f (Entry.this t))
       ∧ network (on_message c (Executing id VNull) w).2 = network w.
Proof.
  intros Hw Ht. apply reachable_consistent in Hw.
  apply registry_Some in Ht as (cl & Hc & Ht).
  destruct (entry_job w c cl id t Hw Hc Ht)
    as (Hjob & o & Ho & Hu & Hp & Hst & _).
  exists o. do 2 (split; [done|]).
  assert (Hrun : on_message c (Executing id VNull) w
                 = entry_onCompleted t (Entry.job t) w).
  { unfold on_message. rewrite bind_run, (get_client_run _ _ _ Hc).
    simpl. by rewrite Ht. }
  rewrite Hrun, (entry_onCompleted_run _ _ _ _ _ _ _ Ho Hp Hu Hc), Hjob.
  unfold settled. simpl. do 2 (split; [done|]).
  rewrite (registry_insert_eq _ _ _ _ _ _ _ Hc). simpl.
  split; [apply map_get_delete_eq|]. split; [|done].
  intros k Hk. rewrite (registry_lookup _ _ _ Hc). by apply map_get_delete_ne.
Qed.

Lemma closing_frame_completes_witness :
  reachable queued_X
  ∧ ∃ o, heap queued_X !! 0 = Some o
         ∧ ComfyJob.status o ∈ [queued; running; failed]
         ∧ (on_message 0 (Executing "X" VNull) queued_X).1 = Return tt
         ∧ heap (on_message 0 (Executing "X" VNull) queued_X).2
           = <[0:=ComfyJob.set_status completed o]> (heap queued_X)
         ∧ map_get "X" (registry (on_message 0 (Executing "X" VNull)
                                    queued_X).2 0) = None
         ∧ (∀ k, k ≠ "X" →
              map_get k (registry (on_message 0 (Executing "X" VNull)
                                     queued_X).2 0)
              = map_get k (registry queued_X 0))
         ∧ calls (on_message 0 (Executing "X" VNull) queued_X).2
           = calls queued_X ++ [CallCompleted 1 0]
         ∧ network (on_message 0 (Executing "X" VNull) queued_X).2
           = network queued_X.
Proof.
  assert (Hreach : reachable queued_X)
    by (apply reachable_run; [apply reachable_empty|reflexivity]).
  split; [exact Hreach|].
  exact (closing_frame_completes queued_X 0 "X" (Entry.Build 0 0 observers)
           Hreach eq_refl).
Defined.

(** X7.  Every other frame is ignored: a status frame, a frame of another
    type, a progress frame with a step, and a closing frame for an identity
    that is not in the registry of the client leave the world exactly as it
    is. *)
Theorem frame_ignored (w : World) c cl data :
  clients w !! c = Some cl →
  closes_tracked (ComfyClient.jobs cl) data = false →
  on_message c data w = (Return tt, w).
Proof.
  intros Hc Hdata. destruct data as [d|id node| |ty]; try done.
  unfold on_message. rewrite bind_run, (get_client_run _ _ _ Hc). simpl.
  simpl in Hdata. destruct (is_null node); [|done]. simpl in Hdata.
  apply bool_decide_eq_false in Hdata.
  destruct (map_get id (ComfyClient.jobs cl)) as [t|]; [|done].
  destruct Hdata. by eexists.
Qed.

Lemma frame_ignored_witness :
  on_message 0 (Executing "Y" VNull) queued_X = (Return tt, queued_X)
  ∧ on_message 0 (Executing "X" (VStr "12")) queued_X = (Return tt, queued_X).
Proof.
  split.
  - exact (frame_ignored queued_X 0
             (ComfyClient.Build "127.0.0.1:8188" false "c0ffee"
                [("X", Entry.Build 0 0 observers)])
             (Executing "Y" VNull) eq_refl eq_refl).
  - exact (frame_ignored queued_X 0
             (ComfyClient.Build "127.0.0.1:8188" false "c0ffee"
                [("X", Entry.Build 0 0 observers)])
             (Executing "X" (VStr "12")) eq_refl eq_refl).
Defined.

(** ** Submitting *)

(** X8.  [queue] on a job that is being built, answered with success and
    no node error: it returns the job, which is queued with the identity of
    the reply as uid and the client as parent; the registry of the client
    holds its entry under that identity and keeps its other entries; one
    request has been sent, a POST of the workflow to [/prompt]; no callback
    is called and no other job is assigned to. *)
Theorem queue_success (w : World) j o p cl cbs resp :
  heap w !! j = Some o → ComfyJob.status o = building →
  clients w !! p = Some cl → ok resp = true →
  node_errors (json resp) = [] →
  (queue j p cbs resp w).1 = Return j
  ∧ heap (queue j p cbs resp w).2
    = <[j:=ComfyJob.Build (Some p) (Some (prompt_id (json resp))) queued
             (Callbacks.onCompleted cbs) (ComfyJob.onCancelled o)
             (Callbacks.onUpdate cbs) (Callbacks.onError cbs)
             (ComfyJob.workflow o) (ComfyJob.errors o)]> (heap w)
  ∧ map_get (prompt_id (json resp)) (registry (queue j p cbs resp w).2 p)
    = Some (Entry.Build j j cbs)
  ∧ (∀ k, k ≠ prompt_id (json resp) →
       map_get k (registry (queue j p cbs resp w).2 p)
       = map_get k (registry w p))
  ∧ network (queue j p cbs resp w).2
    = network w ++ [MkRequest (endpoint_url cl "/prompt") POST
                      (Some (JsonWorkflow (ComfyJob.workflow o)))]
  ∧ calls (queue j p cbs resp w).2 = calls w.
Proof.
  intros Hj Hst Hp Hok Herrs.
  assert (Hgood : has_node_errors (json resp) = false).
  { unfold has_node_errors. rewrite Herrs. reflexivity. }
  rewrite (queue_accepted _ _ _ _ _ _ _ Hj Hst Hp Hok). simpl.
  unfold submitted_job, submission_calls. rewrite Hgood.
  split; [done|]. split; [done|].
  rewrite (registry_insert_eq _ _ _ _ _ _ _ Hp). simpl.
  split; [apply map_get_set_eq|]. split; [|split; [done|apply app_nil_r]].
  intros k Hk. rewrite (registry_lookup _ _ _ Hp).
  apply map_get_set_ne. congruence.
Qed.

Lemma queue_success_witness :
  (queue 0 0 observers (accepted "X") (run setup empty_world)).1 = Return 0
  ∧ status_of (queue 0 0 observers (accepted "X") (run setup empty_world)).2 0
    = Some queued
  ∧ calls (queue 0 0 observers (accepted "X") (run setup empty_world)).2 = [].
Proof.
  destruct (queue_success (run setup empty_world) 0
              (ComfyJob.new (VObj [("3", VObj [])])) 0
              (ComfyClient.new "127.0.0.1:8188" false "c0ffee") observers
              (accepted "X") eq_refl eq_refl eq_refl eq_refl eq_refl)
    as (Hret & Hheap & _ & _ & _ & Hcalls).
  split; [exact Hret|]. split; [|exact Hcalls].
  unfold status_of. rewrite Hheap. reflexivity.
Defined.

(** ** Requests the backend refuses *)

(** X9.  [cancel] on a queued or running job whose deletion the backend
    refuses: the error of the response is thrown to the caller, the
    deletion request has been sent, and nothing else has changed: the job
    has the status it had and is still tracked, so that [cancel] can be
    called again. *)
Theorem cancel_refused (w : World) j o resp :
  reachable w → heap w !! j = Some o →
  ComfyJob.status o ∈ [queued; running] → ok resp = false →
  ∃ c cl id,
    ComfyJob.parent o = Some c ∧ ComfyJob.uid o = Some id
    ∧ clients w !! c = Some cl
    ∧ cancel j resp w
      = (Throw (JsError (statusText resp) (Some (resp_status resp))),
         sent (delete_request cl [id]) w).
Proof.
  intros Hw Hj Hst Hok. apply reachable_consistent in Hw.
  destruct (live_tracked w Hw j o Hj Hst) as (c & id & t & Hp & Hu & Ht & _).
  apply registry_Some in Ht as (cl & Hc & _).
  exists c, cl, id. do 3 (split; [done|]).
  unfold cancel. rewrite bind_run, (read_run _ _ _ _ Hj).
  rewrite bool_decide_false by by apply live_not_idle.
  unfold read_parent. rewrite !bind_run, (read_run _ _ _ _ Hj), Hp. simpl.
  rewrite bind_run, (read_run _ _ _ _ Hj), Hu, bind_run.
  unfold delete_queue_entries.
  rewrite bind_run, (get_client_run _ _ _ Hc), bind_run.
  unfold fetch. by rewrite Hok.
Qed.

Lemma cancel_refused_witness :
  reachable queued_X
  ∧ ∃ c cl id,
      Some 0 = Some c ∧ Some "X" = Some id ∧ clients queued_X !! c = Some cl
      ∧ cancel 0 (refused VNull) queued_X
        = (Throw (JsError "Internal Server Error" (Some 500%Z)),
           sent (delete_request cl [id]) queued_X).
Proof.
  assert (Hreach : reachable queued_X)
    by (apply reachable_run; [apply reachable_empty|reflexivity]).
  split; [exact Hreach|].
  apply (cancel_refused queued_X 0
           (ComfyJob.Build (Some 0) (Some "X") queued (Some 1) None
              (Some 3) (Some 4) (VObj [("3", VObj [])]) VUndefined)
           (refused VNull) Hreach eq_refl).
  - repeat constructor.
  - reflexivity.
Defined.

(** X10.  A bulk operation the backend refuses forces no job: [clear_queue]
    and [delete_queue_entries] throw the error of the response, with its
    status text as message and its status as cause, and apart from the
    request that was sent the world is what it was. *)
Theorem bulk_refused (w : World) c cl entries resp :
  clients w !! c = Some cl → ok resp = false →
  clear_queue c resp w
    = (Throw (JsError (statusText resp) (Some (resp_status resp))),
       sent (clear_request cl) w)
  ∧ delete_queue_entries c entries resp w
    = (Throw (JsError (statusText resp) (Some (resp_status resp))),
       sent (delete_request cl entries) w).
Proof.
  intros Hc Hok. unfold clear_queue, delete_queue_entries.
  rewrite !bind_run, !(get_client_run _ _ _ Hc), !bind_run.
  unfold fetch. by rewrite Hok.
Qed.

Lemma bulk_refused_witness :
  clear_queue 0 (refused VNull) queued_X
    = (Throw (JsError "Internal Server Error" (Some 500%Z)),
       sent (clear_request (ComfyClient.Build "127.0.0.1:8188" false "c0ffee"
                              [("X", Entry.Build 0 0 observers)])) queued_X)
  ∧ delete_queue_entries 0 ["X"] (refused VNull) queued_X
    = (Throw (JsError "Internal Server Error" (Some 500%Z)),
       sent (delete_request (ComfyClient.Build "127.0.0.1:8188" false "c0ffee"
                               [("X", Entry.Build 0 0 observers)]) ["X"])
            queued_X).
Proof.
  exact (bulk_refused queued_X 0
           (ComfyClient.Build "127.0.0.1:8188" false "c0ffee"
              [("X", Entry.Build 0 0 observers)])
           ["X"] (refused VNull) eq_refl eq_refl).
Defined.

(** ** Deleting queue entries *)

Lemma same_connection_refl cl : same_connection cl cl.
Proof. by repeat split. Qed.

Lemma if_decide_ext {A} (P Q : Prop) `{Decision P, Decision Q} (a b : A) :
  (P ↔ Q) →
  (if bool_decide P then a else b) = (if bool_decide Q then a else b).
Proof. intros HPQ. by rewrite (bool_decide_ext P Q). Qed.

(** The loop of [delete_queue_entries] from a consistent world: it returns;
    exactly the entries whose key is visited and listed are gone, their
    jobs failed; a job without such an entry is not assigned to. *)
Lemma delete_loop c entries keys :
  ∀ w cl, consistent w → clients w !! c = Some cl →
    ∃ w' cl',
      for_of_from c keys
        (λ key value,
           if includes key entries
           then entry_onError value (Entry.job value) (VArr [])
           else mret tt) w
        = (Return tt, w')
      ∧ consistent w' ∧ clients w' !! c = Some cl'
      ∧ (∀ k, map_get k (ComfyClient.jobs cl')
              = if bool_decide (k ∈ keys ∧ k ∈ entries) then None
                else map_get k (ComfyClient.jobs cl))
      ∧ (∀ k t, map_get k (ComfyClient.jobs cl) = Some t →
                k ∈ keys → k ∈ entries →
                status_of w' (Entry.this t) = Some failed)
      ∧ (∀ j, (∀ k t, map_get k (ComfyClient.jobs cl) = Some t →
                      k ∈ entries → Entry.this t ≠ j) →
              heap w' !! j = heap w !! j)
      ∧ network w' = network w.
Proof.
  induction keys as [|key rest IH]; intros w cl Hw Hc.
  { exists w, cl. do 3 (split; [done|]). split; [|split; [|done]].
    - intros k. rewrite bool_decide_false; [done|].
      intros [Hin _]. by apply elem_of_nil in Hin.
    - intros k t _ Hin. by apply elem_of_nil in Hin. }
  simpl. rewrite bind_run, (get_client_run _ _ _ Hc), bind_run.
  unfold includes at 1.
  destruct (map_get key (ComfyClient.jobs cl)) as [t|] eqn:Ht;
    [destruct (decide (key ∈ entries)) as [Hkey|Hkey]|].
  - rewrite bool_decide_true by done.
    destruct (entry_job w c cl key t Hw Hc Ht)
      as (Hjob & o & Ho & Hu & Hp & _).
    pose proof (consistent_entry_onError w c cl key t (Entry.job t) (VArr [])
                  Hw Hc Ht) as Hw1.
    rewrite (entry_onError_run _ _ _ _ _ _ _ _ Ho Hp Hu Hc) in Hw1 |- *.
    simpl in Hw1. set (w1 := settled _ _ _ _ _ _ _ _) in *.
    assert (Hc1 : clients w1 !! c
                  = Some (ComfyClient.set_jobs
                            (map_delete key (ComfyClient.jobs cl)) cl)).
    { simpl. apply list_lookup_insert_eq. by eapply lookup_lt_Some. }
    destruct (IH w1 _ Hw1 Hc1)
      as (w' & cl' & Hrun & Hw' & Hc' & Hleft & Hfailed & Hframe & Hnet).
    assert (Hsame : ∀ k t', map_get k (ComfyClient.jobs cl) = Some t' →
                            Entry.this t' = Entry.this t → k = key).
    { intros k t' Ht' Heq.
      destruct (entry_job w c cl k t' Hw Hc Ht') as (_ & o' & Ho' & Hu' & _).
      rewrite Heq in Ho'. congruence. }
    assert (Hdone : status_of w' (Entry.this t) = Some failed).
    { unfold status_of. rewrite Hframe.
      - simpl. rewrite list_lookup_insert_eq; [done|].
        by eapply lookup_lt_Some.
      - simpl. intros k t' [Hne Ht']%map_get_delete_Some _ Heq.
        apply Hne. symmetry. by eapply Hsame. }
    exists w', cl'. do 3 (split; [done|]). split; [|split; [|split]].
    + intros k. rewrite Hleft. simpl.
      destruct (decide (k = key)) as [->|Hne].
      * rewrite map_get_delete_eq.
        rewrite (bool_decide_true (key ∈ key :: rest ∧ _));
          [by case_bool_decide|].
        split; [apply list_elem_of_here|done].
      * rewrite map_get_delete_ne by done.
        apply if_decide_ext. rewrite elem_of_cons.
        split; [intros [? ?]; by auto|intros [[->|?] ?]; by auto].
    + intros k t' Ht' [->|Hin]%elem_of_cons Hk.
      * assert (t' = t) as -> by congruence. done.
      * destruct (decide (k = key)) as [->|Hne].
        { assert (t' = t) as -> by congruence. done. }
        apply (Hfailed k); [|done..]. simpl. by rewrite map_get_delete_ne.
    + intros j Hj. rewrite Hframe.
      * simpl. apply list_lookup_insert_ne. by apply (Hj key).
      * simpl. intros k t' [_ Ht']%map_get_delete_Some Hk. by apply (Hj k).
    + by rewrite Hnet.
  - rewrite bool_decide_false by done. simpl.
    destruct (IH w cl Hw Hc)
      as (w' & cl' & Hrun & Hw' & Hc' & Hleft & Hfailed & Hframe & Hnet).
    exists w', cl'. do 3 (split; [done|]). split; [|split; [|done]].
    + intros k. rewrite Hleft. apply if_decide_ext.
      rewrite elem_of_cons.
        split; [intros [? ?]; by auto|intros [[->|?] ?]; by auto].
    + intros k t' Ht' [->|Hin]%elem_of_cons Hk; [done|].
      by apply (Hfailed k).
  - simpl.
    destruct (IH w cl Hw Hc)
      as (w' & cl' & Hrun & Hw' & Hc' & Hleft & Hfailed & Hframe & Hnet).
    exists w', cl'. do 3 (split; [done|]). split; [|split; [|done]].
    + intros k. rewrite Hleft.
      destruct (decide (k = key)) as [->|Hne].
      * rewrite Ht. by repeat case_bool_decide.
      * apply if_decide_ext. rewrite elem_of_cons.
        split; [intros [? ?]; by auto|intros [[->|?] ?]; by auto].
    + intros k t' Ht' [->|Hin]%elem_of_cons Hk; [congruence|].
      by apply (Hfailed k).
Qed.

Lemma map_get_not_key {V} (m : JsMap V) k :
  k ∉ map_keys m → map_get k m = None.
Proof.
  intros Hk. destruct (map_get k m) as [v|] eqn:Hm; [|done].
  destruct Hk. by eapply map_get_Some_keys.
Qed.

(** X11.  In a reachable world [delete_queue_entries], answered with
    success, touches the listed identities only: it returns the body of the
    response; the entries of the client under a listed identity are gone and
    their jobs failed; every other entry is still there; a job that has no
    entry under a listed identity is not assigned to, whether tracked or
    not; and the one request sent names the listed identities. *)
Theorem delete_selected (w : World) c cl entries resp :
  reachable w → clients w !! c = Some cl → ok resp = true →
  (delete_queue_entries c entries resp w).1 = Return (json resp)
  ∧ (∀ k, map_get k (registry (delete_queue_entries c entries resp w).2 c)
          = if bool_decide (k ∈ entries) then None
            else map_get k (ComfyClient.jobs cl))
  ∧ (∀ k t, map_get k (ComfyClient.jobs cl) = Some t → k ∈ entries →
            status_of (delete_queue_entries c entries resp w).2 (Entry.this t)
            = Some failed)
  ∧ (∀ j, (∀ k t, map_get k (ComfyClient.jobs cl) = Some t → k ∈ entries →
                  Entry.this t ≠ j) →
          heap (delete_queue_entries c entries resp w).2 !! j = heap w !! j)
  ∧ network (delete_queue_entries c entries resp w).2
    = network w ++ [delete_request cl entries].
Proof.
  intros Hw Hc Hok. apply reachable_consistent in Hw.
  set (w1 := sent (delete_request cl entries) w).
  assert (Hw1 : consistent w1) by by apply consistent_log_free.
  assert (Hc1 : clients w1 !! c = Some cl) by done.
  destruct (delete_loop c entries (map_keys (ComfyClient.jobs cl)) w1 cl
              Hw1 Hc1)
    as (w' & cl' & Hrun & Hw' & Hc' & Hleft & Hfailed & Hframe & Hnet).
  assert (Hall : delete_queue_entries c entries resp w
                 = (Return (json resp), w')).
  { unfold delete_queue_entries.
    rewrite bind_run, (get_client_run _ _ _ Hc), bind_run.
    unfold fetch at 1. rewrite Hok, bind_run. unfold for_of_jobs.
    rewrite bind_run. fold (delete_request cl entries).
    fold (sent (delete_request cl entries) w). fold w1.
    by rewrite (get_client_run _ _ _ Hc1), Hrun. }
  rewrite Hall. simpl. split; [done|]. split; [|split; [|split]].
  - intros k. rewrite (registry_lookup _ _ _ Hc'), Hleft.
    destruct (decide (k ∈ map_keys (ComfyClient.jobs cl))) as [Hk|Hk].
    + apply if_decide_ext. tauto.
    + rewrite (map_get_not_key _ _ Hk). by repeat case_bool_decide.
  - intros k t Ht Hk. apply (Hfailed k t Ht); [|done].
    by eapply map_get_Some_keys.
  - intros j Hj. by rewrite Hframe.
  - by rewrite Hnet.
Qed.

(** Jobs 0 and 1 queued on client 0 under the identities X and Y. *)
Lemma delete_selected_witness :
  reachable (run [NewJob VNull; QueueJob 1 0 observers (accepted "Y")] queued_X)
  ∧ status_of (delete_queue_entries 0 ["Y"] ok_reply
                 (run [NewJob VNull; QueueJob 1 0 observers (accepted "Y")]
                      queued_X)).2 1 = Some failed
  ∧ heap (delete_queue_entries 0 ["Y"] ok_reply
            (run [NewJob VNull; QueueJob 1 0 observers (accepted "Y")]
                 queued_X)).2 !! 0
    = heap (run [NewJob VNull; QueueJob 1 0 observers (accepted "Y")]
                queued_X) !! 0.
Proof.
  assert (Hreach : reachable
    (run [NewJob VNull; QueueJob 1 0 observers (accepted "Y")] queued_X)).
  { apply reachable_run; [|reflexivity].
    apply reachable_run; [apply reachable_empty|reflexivity]. }
  split; [exact Hreach|].
  destruct (delete_selected
              (run [NewJob VNull; QueueJob 1 0 observers (accepted "Y")]
                   queued_X) 0
              (ComfyClient.Build "127.0.0.1:8188" false "c0ffee"
                 [("X", Entry.Build 0 0 observers);
                  ("Y", Entry.Build 1 1 observers)])
              ["Y"] ok_reply Hreach eq_refl eq_refl)
    as (_ & _ & Hfailed & Hframe & _).
  split.
  - apply (Hfailed "Y" (Entry.Build 1 1 observers) eq_refl).
    repeat constructor.
  - apply Hframe. intros k t Ht Hk.
    apply list_elem_of_singleton in Hk. subst k.
    injection Ht as <-. discriminate.
Defined.

(** ** Clearing the queue twice *)

Lemma map_get_all_None {V} (m : JsMap V) :
  (∀ k, map_get k m = None) → m = [].
Proof.
  destruct m as [|[k v] m]; [done|]. intros Hm. specialize (Hm k).
  simpl in Hm. by rewrite bool_decide_true in Hm.
Qed.

(** On an empty registry a successful [clear_queue] only sends its
    request. *)
Lemma clear_queue_empty_registry w c cl r :
  clients w !! c = Some cl → ComfyClient.jobs cl = [] → ok r = true →
  clear_queue c r w = (Return (json r), sent (clear_request cl) w).
Proof.
  intros Hc Hjobs Hok. unfold clear_queue.
  rewrite bind_run, (get_client_run _ _ _ Hc), bind_run.
  unfold fetch at 1. rewrite Hok, bind_run. unfold for_of_jobs.
  rewrite bind_run. fold (clear_request cl). fold (sent (clear_request cl) w).
  assert (Hc1 : clients (sent (clear_request cl) w) !! c = Some cl) by done.
  by rewrite (get_client_run _ _ _ Hc1), Hjobs.
Qed.

Lemma clear_queue_leaves_empty w c cl r :
  consistent w → clients w !! c = Some cl → ok r = true →
  ∃ w' cl', clear_queue c r w = (Return (json r), w')
            ∧ clients w' !! c = Some cl' ∧ ComfyClient.jobs cl' = [].
Proof.
  intros Hw Hc Hok.
  set (w0 := sent (clear_request cl) w).
  assert (Hw0 : consistent w0) by by apply consistent_log_free.
  assert (Hc0 : clients w0 !! c = Some cl) by done.
  destruct (clear_loop c (map_keys (ComfyClient.jobs cl)) w0 cl Hw0 Hc0)
    as (w' & cl' & Hrun & _ & Hc' & Hleft & _).
  exists w', cl'. split; [|split; [done|]].
  - unfold clear_queue.
    rewrite bind_run, (get_client_run _ _ _ Hc), bind_run.
    unfold fetch at 1. rewrite Hok, bind_run. unfold for_of_jobs.
    rewrite bind_run. fold (clear_request cl).
    fold (sent (clear_request cl) w). fold w0.
    by rewrite (get_client_run _ _ _ Hc0), Hrun.
  - apply map_get_all_None. intros k.
    destruct (map_get k (ComfyClient.jobs cl')) as [t|] eqn:Hk; [|done].
    destruct (Hleft k t Hk) as [Hk1 Hk2]. destruct Hk2.
    by eapply map_get_Some_keys.
Qed.

(** X12.  After a successful [clear_queue] on a reachable world, a second
    successful [clear_queue] on the same client returns without calling any
    callback and without assigning to any job: the first one has left the
    registry of the client empty. *)
Theorem clear_queue_twice (w : World) c cl r1 r2 :
  reachable w → clients w !! c = Some cl → ok r1 = true → ok r2 = true →
  registry (clear_queue c r1 w).2 c = []
  ∧ (clear_queue c r2 (clear_queue c r1 w).2).1 = Return (json r2)
  ∧ calls (clear_queue c r2 (clear_queue c r1 w).2).2
    = calls (clear_queue c r1 w).2
  ∧ heap (clear_queue c r2 (clear_queue c r1 w).2).2
    = heap (clear_queue c r1 w).2
  ∧ clients (clear_queue c r2 (clear_queue c r1 w).2).2
    = clients (clear_queue c r1 w).2.
Proof.
  intros Hw Hc Hok1 Hok2. apply reachable_consistent in Hw.
  destruct (clear_queue_leaves_empty w c cl r1 Hw Hc Hok1)
    as (w' & cl' & -> & Hc' & Hjobs).
  simpl. rewrite (clear_queue_empty_registry w' c cl' r2 Hc' Hjobs Hok2).
  split; [|done]. by rewrite (registry_lookup _ _ _ Hc').
Qed.

Lemma clear_queue_twice_witness :
  reachable queued_X
  ∧ registry (clear_queue 0 ok_reply queued_X).2 0 = []
  ∧ (clear_queue 0 ok_reply (clear_queue 0 ok_reply queued_X).2).1
    = Return (VObj [])
  ∧ calls (clear_queue 0 ok_reply (clear_queue 0 ok_reply queued_X).2).2
    = calls (clear_queue 0 ok_reply queued_X).2
  ∧ heap (clear_queue 0 ok_reply (clear_queue 0 ok_reply queued_X).2).2
    = heap (clear_queue 0 ok_reply queued_X).2
  ∧ clients (clear_queue 0 ok_reply (clear_queue 0 ok_reply queued_X).2).2
    = clients (clear_queue 0 ok_reply queued_X).2.
Proof.
  assert (Hreach : reachable queued_X)
    by (apply reachable_run; [apply reachable_empty|reflexivity]).
  split; [exact Hreach|].
  exact (clear_queue_twice queued_X 0
           (ComfyClient.Build "127.0.0.1:8188" false "c0ffee"
              [("X", Entry.Build 0 0 observers)])
           ok_reply ok_reply Hreach eq_refl eq_refl eq_refl).
Defined.

(** ** Registering and unregistering *)

Lemma map_delete_set_fresh {V} (m : JsMap V) k v :
  map_get k m = None → map_delete k (map_set k v m) = m.
Proof.
  unfold map_delete. induction m as [|[k' v'] m IH]; simpl; intros Hm.
  - rewrite filter_cons. simpl. by rewrite decide_False by (by intros []).
  - case_bool_decide as Hk; [done|]. rewrite filter_cons. simpl.
    rewrite decide_True by done. f_equal. by apply IH.
Qed.

Lemma map_keys_set {V} (m : JsMap V) k v :
  map_keys (map_set k v m)
  = if bool_decide (k ∈ map_keys m) then map_keys m else map_keys m ++ [k].
Proof.
  unfold map_keys. induction m as [|[k' v'] m IH]; [done|].
  simpl map_set. rewrite (fmap_cons fst _ m). simpl fst.
  destruct (decide (k' = k)) as [->|Hk].
  - rewrite (bool_decide_true (k = k)), fmap_cons by done. simpl fst.
    rewrite bool_decide_true; [done|]. apply list_elem_of_here.
  - rewrite (bool_decide_false (k' = k)), fmap_cons, IH by done. simpl fst.
    case_bool_decide as Hin.
    + rewrite bool_decide_true; [done|]. by apply list_elem_of_further.
    + rewrite bool_decide_false; [done|].
      rewrite elem_of_cons. intros [->|?]; done.
Qed.

(** X13.  Registering a job whose uid has no entry at the client and then
    unregistering it: in between the entry is found under the uid of the
    job, and afterwards the world is exactly what it was before. *)
Theorem register_unregister (w : World) c cl j o k cbs :
  heap w !! j = Some o → ComfyJob.uid o = Some k →
  clients w !! c = Some cl → map_get k (ComfyClient.jobs cl) = None →
  map_get k (registry (registerExecutingCallback c j (j, cbs) w).2 c)
    = Some (Entry.Build j j cbs)
  ∧ unregisterExecutingCallback c j
      (registerExecutingCallback c j (j, cbs) w).2
    = (Return tt, w).
Proof.
  intros Hj Hu Hc Hk.
  assert (Hreg : registerExecutingCallback c j (j, cbs) w
    = (Return tt,
       MkWorld (heap w)
         (<[c:=ComfyClient.set_jobs
                 (map_set k (Entry.Build j j cbs) (ComfyClient.jobs cl)) cl]>
            (clients w))
         (network w) (calls w))).
  { unfold registerExecutingCallback.
    rewrite bind_run, (read_run _ _ _ _ Hj), Hu. unfold update_jobs. simpl.
    by rewrite (alter_as_insert _ _ _ _ Hc). }
  rewrite Hreg. simpl. split.
  { rewrite (registry_insert_eq _ _ _ _ _ _ _ Hc). simpl.
    apply map_get_set_eq. }
  unfold unregisterExecutingCallback. rewrite bind_run. unfold read. simpl.
  rewrite Hj, Hu. unfold update_jobs. simpl. f_equal.
  rewrite (alter_as_insert _ _ _
             (ComfyClient.set_jobs
                (map_set k (Entry.Build j j cbs) (ComfyClient.jobs cl)) cl)).
  2: { apply list_lookup_insert_eq. by eapply lookup_lt_Some. }
  rewrite list_insert_insert_eq. simpl.
  rewrite (map_delete_set_fresh _ _ _ Hk).
  destruct w as [h cs n l]. simpl in *. f_equal.
  apply list_insert_id. rewrite Hc. f_equal. by destruct cl.
Qed.

Lemma register_unregister_witness :
  map_get "X" (registry (registerExecutingCallback 0 0 (0, observers)
                           (cancel 0 ok_reply queued_X).2).2 0)
    = Some (Entry.Build 0 0 observers)
  ∧ unregisterExecutingCallback 0 0
      (registerExecutingCallback 0 0 (0, observers)
         (cancel 0 ok_reply queued_X).2).2
    = (Return tt, (cancel 0 ok_reply queued_X).2).
Proof.
  exact (register_unregister (cancel 0 ok_reply queued_X).2 0
           (ComfyClient.Build "127.0.0.1:8188" false "c0ffee" []) 0
           (ComfyJob.Build (Some 0) (Some "X") failed (Some 1) None
              (Some 3) (Some 4) (VObj [("3", VObj [])]) VUndefined)
           "X" observers eq_refl eq_refl eq_refl eq_refl).
Defined.

(** X14.  Registering keeps one entry per identity: whatever the registry
    of the client holds, after [registerExecutingCallback] the uid of the
    job leads to the new entry, every other identity to what it led to,
    and if no identity occurred twice among the keys none does now; an
    identity that was there keeps its place in the iteration order. *)
Theorem register_one_entry (w : World) c cl j o k cbs :
  heap w !! j = Some o → ComfyJob.uid o = Some k →
  clients w !! c = Some cl →
  map_get k (registry (registerExecutingCallback c j (j, cbs) w).2 c)
    = Some (Entry.Build j j cbs)
  ∧ (∀ k', k' ≠ k →
       map_get k' (registry (registerExecutingCallback c j (j, cbs) w).2 c)
       = map_get k' (ComfyClient.jobs cl))
  ∧ map_keys (registry (registerExecutingCallback c j (j, cbs) w).2 c)
    = (if bool_decide (k ∈ map_keys (ComfyClient.jobs cl))
       then map_keys (ComfyClient.jobs cl)
       else map_keys (ComfyClient.jobs cl) ++ [k])
  ∧ (NoDup (map_keys (ComfyClient.jobs cl)) →
     NoDup (map_keys
              (registry (registerExecutingCallback c j (j, cbs) w).2 c))).
Proof.
  intros Hj Hu Hc.
  assert (Hreg : registry (registerExecutingCallback c j (j, cbs) w).2 c
                 = map_set k (Entry.Build j j cbs) (ComfyClient.jobs cl)).
  { unfold registerExecutingCallback.
    rewrite bind_run, (read_run _ _ _ _ Hj), Hu. unfold update_jobs. simpl.
    rewrite (alter_as_insert _ _ _ _ Hc).
    by rewrite (registry_insert_eq _ _ _ _ _ _ _ Hc). }
  rewrite Hreg. split; [apply map_get_set_eq|]. split.
  { intros k' Hk'. apply map_get_set_ne. congruence. }
  split; [apply map_keys_set|].
  intros Hnd. rewrite map_keys_set. case_bool_decide as Hin; [done|].
  apply NoDup_app. split; [done|]. split; [|apply NoDup_singleton].
  intros k' Hk' ->%list_elem_of_singleton. done.
Qed.

Lemma register_one_entry_witness :
  map_get "X" (registry (registerExecutingCallback 0 0 (0, Callbacks.none)
                           queued_X).2 0)
    = Some (Entry.Build 0 0 Callbacks.none)
  ∧ map_keys (registry (registerExecutingCallback 0 0 (0, Callbacks.none)
                          queued_X).2 0) = ["X"].
Proof.
  destruct (register_one_entry queued_X 0
              (ComfyClient.Build "127.0.0.1:8188" false "c0ffee"
                 [("X", Entry.Build 0 0 observers)]) 0
              (ComfyJob.Build (Some 0) (Some "X") queued (Some 1) None
                 (Some 3) (Some 4) (VObj [("3", VObj [])]) VUndefined)
              "X" Callbacks.none eq_refl eq_refl eq_refl)
    as (Hnew & _ & Hkeys & _).
  split; [exact Hnew|exact Hkeys].
Defined.

(** ** The connection of a client *)

Lemma connected_exec_all c cl ops w :
  connected c cl w → connected c cl (run ops w).
Proof.
  apply (keeps_run (connected c cl) (λ _, True)).
  - by intros w' n l.
  - by intros j f _ _ w'.
  - done.
  - intros c' k j cbs _ w' (cl' & Hc' & Hsame). unfold connected. simpl.
    destruct (decide (c' = c)) as [->|Hne].
    + rewrite list_lookup_alter_eq, Hc'. simpl. eexists. split; [done|].
      by destruct cl'.
    + rewrite list_lookup_alter_ne by done. eauto.
  - intros c' k w' (cl' & Hc' & Hsame). unfold connected. simpl.
    destruct (decide (c' = c)) as [->|Hne].
    + rewrite list_lookup_alter_eq, Hc'. simpl. eexists. split; [done|].
      by destruct cl'.
    + rewrite list_lookup_alter_ne by done. eauto.
  - by intros wk w'.
  - intros e s u w' (cl' & Hc' & Hsame). exists cl'. split; [|done].
    simpl. by apply lookup_app_l_Some.
  - intros j w' Hw'. destruct (clone_world w' j) as [wk ->]. done.
  - apply Forall_true. by intros [].
Qed.

(** X15.  The connection data of a client never change: whatever
    operations are run, a client keeps its endpoint, its scheme and the
    identity it generated, hence the URL of each of its endpoints. *)
Theorem connection_fixed (w : World) c cl ops :
  clients w !! c = Some cl →
  ∃ cl', clients (run ops w) !! c = Some cl'
         ∧ ComfyClient.endpoint cl' = ComfyClient.endpoint cl
         ∧ ComfyClient.secure cl' = ComfyClient.secure cl
         ∧ ComfyClient.uid cl' = ComfyClient.uid cl
         ∧ ∀ path, endpoint_url cl' path = endpoint_url cl path.
Proof.
  intros Hc.
  destruct (connected_exec_all c cl ops w) as (cl' & Hc' & He & Hs & Hu).
  { exists cl. split; [done|apply same_connection_refl]. }
  exists cl'. do 4 (split; [done|]).
  intros path. unfold endpoint_url. by rewrite He, Hs, Hu.
Qed.

Lemma connection_fixed_witness :
  ∃ cl', clients (run [ClearQueue 0 ok_reply; NewClient "h" true "u"]
                      queued_X) !! 0 = Some cl'
         ∧ ComfyClient.endpoint cl' = "127.0.0.1:8188"
         ∧ ComfyClient.secure cl' = false
         ∧ ComfyClient.uid cl' = "c0ffee"
         ∧ ∀ path, endpoint_url cl' path
                   = endpoint_url
                       (ComfyClient.Build "127.0.0.1:8188" false "c0ffee"
                          [("X", Entry.Build 0 0 observers)]) path.
Proof.
  exact (connection_fixed queued_X 0
           (ComfyClient.Build "127.0.0.1:8188" false "c0ffee"
              [("X", Entry.Build 0 0 observers)])
           [ClearQueue 0 ok_reply; NewClient "h" true "u"] eq_refl).
Defined.

(** ** The flag [running] of a client *)

Lemma running_after_snoc history a :
  running_after (history ++ [a]) = socket_step (running_after history) a.
Proof. unfold running_after. by rewrite foldl_app. Qed.

(** X16.  The flag [running] of a client is true exactly when the last
    thing that happened to its socket is an [open] event: a [close] or an
    [error] event, a call of [close] and the disposal of the client all
    reset it, whatever came before, and it is false before anything
    happens. *)
Theorem running_tracks_last_event (history : list SocketAction) :
  running_after history = true ↔ last history = Some SocketOpen.
Proof.
  destruct history as [|a history _] using rev_ind; [done|].
  rewrite running_after_snoc, last_snoc.
  destruct a; simpl; unfold on_open, on_close, on_error, dispose, close;
    split; by intros [=].
Qed.

(** ** The REST wrappers *)

(** X17.  Every wrapper but three throws the error built from the status
    of a response that is not ok and returns the body of one that is;
    [system_stats], [embeddings] and [extensions] return the body whatever
    the status says. *)
Theorem rest_status_check (cl : ComfyClient.t) (call : RestCall)
    (resp : Response value) :
  (rest cl call resp).2 =
  if reads_unchecked call || ok resp
  then Return (json resp)
  else Throw (JsError (statusText resp) (Some (resp_status resp))).
Proof.
  destruct call; simpl; try done; unfold checked, RequestError;
    by destruct (ok resp).
Qed.

(** X18.  The request of a wrapper does not depend on the response; it
    goes to the endpoint of the client with the client's choice of
    security, its query starts with the client's [clientId] and names no
    parameter twice, and a GET request carries no body. *)
Theorem rest_request_shape (cl : ComfyClient.t) (call : RestCall)
    (r1 r2 : Response value) :
  (rest cl call r1).1 = (rest cl call r2).1 ∧
  fetch_secure (rest cl call r1).1 = ComfyClient.secure cl ∧
  fetch_endpoint (rest cl call r1).1 = ComfyClient.endpoint cl ∧
  head (fetch_query (rest cl call r1).1) = Some ("clientId", ComfyClient.uid cl) ∧
  NoDup (fetch_query (rest cl call r1).1).*1 ∧
  (fetch_method (rest cl call r1).1 = POST ∨
   fetch_payload (rest cl call r1).1 = NoPayload).
Proof.
  destruct call; simpl; do 4 (split; [done|]);
    (split; [|by auto]);
    try (apply NoDup_singleton);
    try (apply (bool_decide_unpack _); vm_compute; exact I).
  destruct opts as [[s|] [c|] [f|] q]; simpl;
    try destruct (truthy s); simpl;
    apply (bool_decide_unpack _); vm_compute; exact I.
Qed.

(** X19.  Arguments that JavaScript takes for false are dropped: [view]
    ignores a quality given without a format, treats the quality zero as
    no quality and the empty subfolder as no subfolder; [object_info] and
    [get_history] treat the empty string as no argument. *)
Theorem falsy_arguments_dropped (cl : ComfyClient.t) (filename : string)
    (s : option string) (c : option Channel) (f : option Format)
    (q : option Z) (resp : Response value) :
  view cl filename (MkViewOpts s c None q) resp =
    view cl filename (MkViewOpts s c None None) resp ∧
  view cl filename (MkViewOpts s c f (Some 0%Z)) resp =
    view cl filename (MkViewOpts s c f None) resp ∧
  view cl filename (MkViewOpts (Some "") c f q) resp =
    view cl filename (MkViewOpts None c f q) resp ∧
  object_info cl (Some "") resp = object_info cl None resp ∧
  get_history cl (Some "") resp = get_history cl None resp.
Proof.
  by repeat split.
Qed.

(** X20.  The form of an upload names no field twice and always has the
    fields [image], [subfolder] and [type]; [overwrite: false] is sent as
    no [overwrite] at all; and [upload_mask] without [original_ref] sends
    the form [upload_image] sends, which never reads [original_ref]. *)
Theorem upload_forms (cl : ComfyClient.t) (content : Blob)
    (o : option bool) (s : option string) (t : option ComfyResType)
    (ref : option string) (resp : Response value) :
  (∃ form,
     fetch_payload (upload_mask cl content (MkUploadOpts o s t ref) resp).1
       = FormPayload form ∧
     NoDup (map_keys form) ∧
     map_get "image" form = Some (FormFile content (blob_name content)) ∧
     map_get "subfolder" form = Some (FormString (default "" s)) ∧
     map_get "type" form
       = Some (FormString (ComfyResType_string (default input t)))) ∧
  upload_mask cl content (MkUploadOpts (Some false) s t ref) resp =
    upload_mask cl content (MkUploadOpts None s t ref) resp ∧
  upload_image cl content (MkUploadOpts (Some false) s t ref) resp =
    upload_image cl content (MkUploadOpts None s t ref) resp ∧
  fetch_payload (upload_mask cl content (MkUploadOpts o s t None) resp).1 =
    fetch_payload (upload_image cl content (MkUploadOpts o s t ref) resp).1.
Proof.
  split; [|done].
  eexists; split; [reflexivity|].
  destruct o as [[]|], ref; simpl;
    (split; [apply (bool_decide_unpack _); vm_compute; exact I|done]).
Qed.

(** * Calls of [queue] that overlap *)

(** ** The segments of [queue] *)

(** A call of [queue] that nothing overlaps is its three segments in a
    row. *)
Lemma queue_as_segments this parent callbacks resp w :
  queue this parent callbacks resp w
  = (queue_begin this parent callbacks;;
     r ← queue_reply this callbacks resp;
     match r with
     | Some j => mret j
     | None => queue_finish this callbacks
     end) w.
Proof.
  unfold queue, queue_begin, queue_reply, queue_finish.
  destruct (heap w !! this) as [o|] eqn:Hj.
  2: { rewrite !bind_run. unfold read. by rewrite Hj. }
  rewrite !bind_run, (read_run _ _ _ _ Hj).
  case_bool_decide; [done|].
  js_run.
  destruct (clients w !! parent) as [cl|] eqn:Hp; [|done].
  js_run. unfold send, sent, prompt_request. js_run.
  destruct (ok resp); [|done].
  js_run.
  case_bool_decide; js_run.
  - destruct (Callbacks.onError callbacks); js_run; [done|].
    destruct (clients w !! parent); done.
  - done.
Qed.

Lemma queue_begin_run w j o p cl cbs :
  heap w !! j = Some o → ComfyJob.status o = building →
  clients w !! p = Some cl →
  queue_begin j p cbs w
  = (Return tt,
     MkWorld (<[j:=attached o p cbs]> (heap w)) (clients w)
             (network w ++ [prompt_request cl (ComfyJob.workflow o)])
             (calls w)).
Proof.
  intros Hj Hst Hp. unfold queue_begin.
  rewrite bind_run, (read_run _ _ _ _ Hj).
  rewrite bool_decide_false by (by rewrite Hst; intros []).
  js_run. unfold send, sent. simpl. do 2 f_equal.
  by rewrite (alter_as_insert _ _ _ _ Hj).
Qed.

(** The worlds [queue_begin] can leave behind. *)
Lemma queue_begin_cases w j p cbs :
  (∃ e, queue_begin j p cbs w = (Throw e, w))
  ∨ ∃ o r n, heap w !! j = Some o ∧ ComfyJob.status o = building
             ∧ queue_begin j p cbs w
               = (r, MkWorld (<[j:=attached o p cbs]> (heap w)) (clients w) n
                             (calls w)).
Proof.
  destruct (heap w !! j) as [o|] eqn:Hj.
  2: { left. exists TypeError. unfold queue_begin. rewrite bind_run.
       unfold read. by rewrite Hj. }
  destruct (decide (ComfyJob.status o = building)) as [Hst|Hst].
  2: { left. exists InvalidStateError. unfold queue_begin.
       rewrite bind_run, (read_run _ _ _ _ Hj). by rewrite bool_decide_true. }
  right. exists o.
  destruct (clients w !! p) as [cl|] eqn:Hp.
  - eexists _, _. do 2 (split; [done|]).
    by apply queue_begin_run.
  - exists (Throw TypeError), (network w). do 2 (split; [done|]).
    unfold queue_begin. rewrite bind_run, (read_run _ _ _ _ Hj).
    rewrite bool_decide_false by (by rewrite Hst; intros []).
    js_run. do 2 f_equal. by rewrite (alter_as_insert _ _ _ _ Hj).
Qed.

(** The worlds [queue_finish] can leave behind. *)
Lemma queue_finish_cases w j cbs :
  (∃ e, queue_finish j cbs w = (Throw e, w))
  ∨ ∃ o c k, heap w !! j = Some o ∧ ComfyJob.parent o = Some c
             ∧ ComfyJob.uid o = Some k
             ∧ queue_finish j cbs w
               = (Return j,
                  MkWorld (heap w)
                          (registered c k (Entry.Build j j cbs) (clients w))
                          (network w) (calls w)).
Proof.
  unfold queue_finish.
  destruct (heap w !! j) as [o|] eqn:Hj.
  2: { left. exists TypeError. js_run. done. }
  destruct (ComfyJob.parent o) as [c|] eqn:Hp.
  2: { left. exists TypeError. js_run. rewrite Hp. done. }
  destruct (ComfyJob.uid o) as [k|] eqn:Hu.
  2: { left. exists TypeError. js_run. rewrite Hp. js_run. rewrite Hu. done. }
  right. exists o, c, k. do 3 (split; [done|]).
  js_run. rewrite Hp. js_run. rewrite Hu. done.
Qed.

(** A successful response without node errors: the call runs to its
    end. *)
Lemma queue_reply_run w j o c cbs resp :
  heap w !! j = Some o → ComfyJob.parent o = Some c →
  ok resp = true → node_errors (json resp) = [] →
  queue_reply j cbs resp w
  = (Return (Some j),
     MkWorld (<[j:=replied o (json resp)]> (heap w))
             (registered c (prompt_id (json resp)) (Entry.Build j j cbs)
                         (clients w))
             (network w) (calls w)).
Proof.
  intros Hj Hp Hok Herrs. unfold queue_reply, queue_finish.
  rewrite Hok, Herrs.
  rewrite bool_decide_false by (intros Hn; by apply Hn).
  js_run. rewrite Hp. js_run.
  unfold replied, has_node_errors. rewrite Herrs.
  rewrite bool_decide_false by (intros Hn; by apply Hn).
  do 2 f_equal. by rewrite (alter_as_insert _ _ _ _ Hj).
Qed.

(** The worlds [queue_reply] can leave behind. *)
Lemma queue_reply_cases w j o cbs resp :
  heap w !! j = Some o →
  queue_reply j cbs resp w = (Throw (RequestError resp), w)
  ∨ ∃ r cs l,
      queue_reply j cbs resp w
      = (r, MkWorld (<[j:=replied o (json resp)]> (heap w)) cs (network w) l)
      ∧ (cs = clients w
         ∨ ∃ c, cs = registered c (prompt_id (json resp))
                       (Entry.Build j j cbs) (clients w)).
Proof.
  intros Hj. unfold queue_reply, queue_finish.
  destruct (ok resp); [right|by left].
  unfold replied, has_node_errors.
  destruct o as [par u st f1 f2 f3 f4 wk errs].
  case_bool_decide; js_run.
  - destruct f4 as [h|]; js_run.
    + eexists _, _, _. split; [|by left].
      by rewrite (alter_as_insert _ _ _ _ Hj).
    + destruct par as [c|]; js_run.
      * eexists _, _, _. split; [|right; by exists c].
        by rewrite (alter_as_insert _ _ _ _ Hj).
      * eexists _, _, _. split; [|by left].
        by rewrite (alter_as_insert _ _ _ _ Hj).
  - destruct par as [c|]; js_run.
    + eexists _, _, _. split; [|right; by exists c].
      by rewrite (alter_as_insert _ _ _ _ Hj).
    + eexists _, _, _. split; [|by left].
      by rewrite (alter_as_insert _ _ _ _ Hj).
Qed.

(** ** Induction over the schedules *)

Lemma take_out_Some p ps ps' :
  take_out p ps = Some ps' → p ∈ ps ∧ ∀ q, q ∈ ps' → q ∈ ps.
Proof.
  revert ps'. induction ps as [|q0 ps IH]; intros ps' H; [done|].
  simpl in H. destruct (decide (q0 = p)) as [->|Hne].
  - injection H as <-. split; [apply list_elem_of_here|].
    intros q Hq. by apply list_elem_of_further.
  - destruct (take_out p ps) as [ps0|]; [|done].
    injection H as <-. destruct (IH ps0 eq_refl) as [Hin Hsub].
    split; [by apply list_elem_of_further|].
    intros q [->|Hq]%elem_of_cons; [apply list_elem_of_here|].
    apply list_elem_of_further. by apply Hsub.
Qed.

(** A property of the world and of the suspended calls holds along every
    schedule as soon as it survives the elementary steps: sending a
    request, the registered [onCompleted] and [onError] on an entry of the
    registry, the construction of a job or of a client, and the three
    segments of [queue], each resumed only where a call is suspended. *)
Section Scheduled.
Context (P : World → list Pending → Prop).
Hypothesis Pfewer : ∀ w ps ps',
  P w ps → (∀ p, p ∈ ps' → p ∈ ps) → P w ps'.
Hypothesis Psent : ∀ w ps req, P w ps → P (sent req w) ps.
Hypothesis Pcompleted : ∀ w ps c cl k t,
  P w ps → clients w !! c = Some cl →
  map_get k (ComfyClient.jobs cl) = Some t →
  P (entry_onCompleted t (Entry.job t) w).2 ps.
Hypothesis Perror : ∀ w ps c cl k t,
  P w ps → clients w !! c = Some cl →
  map_get k (ComfyClient.jobs cl) = Some t →
  P (entry_onError t (Entry.job t) (VArr []) w).2 ps.
Hypothesis Pnew_job : ∀ w ps wk,
  P w ps →
  P (MkWorld (heap w ++ [ComfyJob.new wk]) (clients w) (network w) (calls w))
    ps.
Hypothesis Pnew_client : ∀ w ps e s u,
  P w ps → P (new_ComfyClient e s u w).2 ps.
Hypothesis Pbegin : ∀ w ps j p cbs,
  P w ps →
  P (queue_begin j p cbs w).2 ps
  ∧ ((queue_begin j p cbs w).1 = Return tt →
     P (queue_begin j p cbs w).2 (AwaitReply j cbs :: ps)).
Hypothesis Preply : ∀ w ps j cbs resp,
  P w ps → AwaitReply j cbs ∈ ps →
  P (queue_reply j cbs resp w).2 ps
  ∧ ((queue_reply j cbs resp w).1 = Return None →
     P (queue_reply j cbs resp w).2 (AwaitOnError j cbs :: ps)).
Hypothesis Pfinish : ∀ w ps j cbs,
  P w ps → AwaitOnError j cbs ∈ ps → P (queue_finish j cbs w).2 ps.

Lemma scheduled_queue w ps j p cbs resp :
  P w ps → P (queue j p cbs resp w).2 ps.
Proof.
  intros Hw. rewrite queue_as_segments, bind_run.
  destruct (Pbegin w ps j p cbs Hw) as [Hb Hb'].
  destruct (queue_begin j p cbs w) as [[[]|e] w1]; simpl in *; [|done].
  specialize (Hb' eq_refl). rewrite bind_run.
  destruct (Preply w1 _ j cbs resp Hb') as [Hr Hr'];
    [apply list_elem_of_here|].
  destruct (queue_reply j cbs resp w1) as [[[r|]|e] w2]; simpl in *.
  - apply (Pfewer _ _ _ Hr). intros q Hq. by apply list_elem_of_further.
  - specialize (Hr' eq_refl).
    apply (Pfewer _ (AwaitOnError j cbs :: AwaitReply j cbs :: ps)).
    + apply Pfinish; [done|apply list_elem_of_here].
    + intros q Hq. by do 2 apply list_elem_of_further.
  - apply (Pfewer _ _ _ Hr). intros q Hq. by apply list_elem_of_further.
Qed.

Lemma scheduled_exec w ps op : P w ps → P (exec op w) ps.
Proof.
  intros Hw. destruct op; simpl.
  - by apply Pnew_client.
  - by apply Pnew_job.
  - destruct (clone_world w j) as [wk ->]. by apply Pnew_job.
  - by apply scheduled_queue.
  - apply (invariant_cancel (λ w, P w ps)); [by auto|by eauto|done].
  - apply (invariant_on_message (λ w, P w ps)); [by eauto|done].
  - apply (invariant_clear_queue (λ w, P w ps)); [by auto|by eauto|done].
  - apply (invariant_delete_queue_entries (λ w, P w ps));
      [by auto|by eauto|done].
Qed.

Lemma scheduled_step s σ : P σ.1 σ.2 → P (step s σ).1 (step s σ).2.
Proof.
  destruct σ as [w ps]. simpl. intros Hw.
  destruct s as [op|j p cbs|j cbs resp|j cbs]; simpl.
  - by apply scheduled_exec.
  - destruct (Pbegin w ps j p cbs Hw) as [Hb Hb'].
    destruct (queue_begin j p cbs w) as [[[]|e] w1]; simpl in *; [|done].
    apply (Pfewer _ _ _ (Hb' eq_refl)).
    intros q [Hq|Hq]%elem_of_app; [by apply list_elem_of_further|].
    apply list_elem_of_singleton in Hq as ->. apply list_elem_of_here.
  - destruct (take_out (AwaitReply j cbs) ps) as [ps'|] eqn:Hout; [|done].
    apply take_out_Some in Hout as [Hin Hsub].
    destruct (Preply w ps j cbs resp Hw Hin) as [Hr Hr'].
    destruct (queue_reply j cbs resp w) as [[[r|]|e] w1]; simpl in *.
    + by apply (Pfewer _ _ _ Hr).
    + apply (Pfewer _ _ _ (Hr' eq_refl)).
      intros q [Hq|Hq]%elem_of_app;
        [apply list_elem_of_further; by apply Hsub|].
      apply list_elem_of_singleton in Hq as ->. apply list_elem_of_here.
    + by apply (Pfewer _ _ _ Hr).
  - destruct (take_out (AwaitOnError j cbs) ps) as [ps'|] eqn:Hout; [|done].
    apply take_out_Some in Hout as [Hin Hsub]. simpl.
    apply (Pfewer _ ps); [by apply Pfinish|done].
Qed.

Lemma scheduled_schedule steps σ :
  P σ.1 σ.2 → P (schedule steps σ).1 (schedule steps σ).2.
Proof.
  revert σ. induction steps as [|s steps IH]; intros σ Hσ; [done|].
  simpl. apply IH. by apply scheduled_step.
Qed.
End Scheduled.

(** ** What a job keeps under every schedule *)

Lemma outlives_refl o : outlives o o.
Proof. by repeat split. Qed.

Lemma outlives_trans o1 o2 o3 : outlives o1 o2 → outlives o2 o3 → outlives o1 o3.
Proof.
  intros (W1 & C1 & S1 & U1 & P1) (W2 & C2 & S2 & U2 & P2).
  split; [congruence|]. split; [congruence|]. repeat split; auto.
Qed.

Lemma mild_set_status s : s ≠ building → mild (ComfyJob.set_status s).
Proof. intros Hs o. by repeat split. Qed.

Lemma mild_set_uid k : mild (ComfyJob.set_uid (Some k)).
Proof. intros o. by repeat split. Qed.

Lemma mild_set_parent p : mild (ComfyJob.set_parent (Some p)).
Proof. intros o. by repeat split. Qed.

Lemma mild_set_onCompleted f : mild (ComfyJob.set_onCompleted f).
Proof. intros o. by repeat split. Qed.

Lemma mild_set_onUpdate f : mild (ComfyJob.set_onUpdate f).
Proof. intros o. by repeat split. Qed.

Lemma mild_set_onError f : mild (ComfyJob.set_onError f).
Proof. intros o. by repeat split. Qed.

Create HintDb mild.
#[local] Hint Resolve mild_set_uid mild_set_parent mild_set_onCompleted
  mild_set_onUpdate mild_set_onError : mild.

Section Persists.
Context (w0 : World).

Lemma persists_refl : persists w0 w0.
Proof. intros j o Hj. exists o. split; [done|apply outlives_refl]. Qed.

Lemma persists_log_free : log_free (persists w0).
Proof. by intros w n l Hw. Qed.

Lemma persists_write j f : mild f → keeps (persists w0) (write j f).
Proof.
  intros Hf w Hw j' o Hj'. destruct (Hw j' o Hj') as (o' & Ho' & Hout).
  simpl. destruct (decide (j = j')) as [->|Hne].
  - exists (f o'). split; [by rewrite list_lookup_alter_eq, Ho'|].
    by eapply outlives_trans.
  - exists o'. split; [by rewrite list_lookup_alter_ne|done].
Qed.

Lemma persists_update_jobs c f : keeps (persists w0) (update_jobs c f).
Proof. by intros w Hw. Qed.

Lemma persists_new_job w wk :
  persists w0 w →
  persists w0 (MkWorld (heap w ++ [ComfyJob.new wk]) (clients w) (network w)
                       (calls w)).
Proof.
  intros Hw j o Hj. destruct (Hw j o Hj) as (o' & Ho' & Hout).
  exists o'. split; [|done]. simpl. by apply lookup_app_l_Some.
Qed.

Lemma persists_unregister c j :
  keeps (persists w0) (unregisterExecutingCallback c j).
Proof. apply keeps_unregister. intros c' k. apply persists_update_jobs. Qed.

Lemma persists_entry_onCompleted t obj :
  keeps (persists w0) (entry_onCompleted t obj).
Proof.
  apply keeps_bind; [by apply persists_write, mild_set_status|intros _].
  apply keeps_bind; [apply keeps_read_parent|intros p].
  apply keeps_bind; [apply persists_unregister|intros _].
  apply keeps_call_if, persists_log_free.
Qed.

Lemma persists_entry_onError t obj errs :
  keeps (persists w0) (entry_onError t obj errs).
Proof.
  apply keeps_bind; [by apply persists_write, mild_set_status|intros _].
  apply keeps_bind; [apply keeps_read_parent|intros p].
  apply keeps_bind; [apply persists_unregister|intros _].
  apply keeps_call_if, persists_log_free.
Qed.

Lemma persists_queue_begin j p cbs : keeps (persists w0) (queue_begin j p cbs).
Proof.
  apply keeps_bind; [apply keeps_read|intros st].
  case_bool_decide; [apply keeps_throw|].
  do 4 (apply keeps_bind; [apply persists_write; auto with mild|intros _]).
  apply keeps_bind; [apply keeps_read_parent|intros p'].
  apply keeps_bind; [apply keeps_read|intros wk].
  apply keeps_bind; [apply keeps_get_client|intros cl].
  by intros w Hw.
Qed.

Lemma persists_queue_finish j cbs : keeps (persists w0) (queue_finish j cbs).
Proof.
  apply keeps_bind; [apply keeps_read_parent|intros p].
  apply keeps_bind; [|intros _; apply keeps_ret].
  apply keeps_bind; [apply keeps_read|intros [k|]];
    [apply persists_update_jobs|apply keeps_throw].
Qed.

Lemma persists_queue_reply j cbs resp :
  keeps (persists w0) (queue_reply j cbs resp).
Proof.
  unfold queue_reply. destruct (ok resp); [|apply keeps_throw].
  apply keeps_bind; [by apply persists_write, mild_set_status|intros _].
  apply keeps_bind; [apply persists_write; auto with mild|intros _].
  assert (Hfinish : keeps (persists w0)
            (r ← queue_finish j cbs; mret (Some r))).
  { apply keeps_bind; [apply persists_queue_finish|intros r; apply keeps_ret]. }
  case_bool_decide; [|done].
  apply keeps_bind; [by apply persists_write, mild_set_status|intros _].
  apply keeps_bind; [apply keeps_read|intros [h|]]; [|done].
  apply keeps_bind; [|intros _; apply keeps_ret].
  apply keeps_call_if, persists_log_free.
Qed.

Lemma persists_schedule steps σ :
  persists w0 σ.1 → persists w0 (schedule steps σ).1.
Proof.
  apply (scheduled_schedule (λ w _, persists w0 w)).
  - done.
  - by intros w _ req Hw.
  - intros w _ c cl k t Hw _ _. by apply persists_entry_onCompleted.
  - intros w _ c cl k t Hw _ _. by apply persists_entry_onError.
  - intros w _ wk. apply persists_new_job.
  - by intros w _ e s u Hw.
  - intros w _ j p cbs Hw. split; [|intros _]; by apply persists_queue_begin.
  - intros w _ j cbs resp Hw _.
    split; [|intros _]; by apply persists_queue_reply.
  - intros w _ j cbs Hw _. by apply persists_queue_finish.
Qed.
End Persists.

(** X4.  Whatever is scheduled, whole operations and segments of calls of
    [queue] that overlap, a job stays in the store with the workflow it
    has and without the cancellation callback ever being stored; once it
    has left [building] it never is [building] again, and it never loses
    its uid or its parent, though overlapping calls may replace them. *)
Theorem job_outlives_schedule (steps : list Step) (σ : Sched) j o :
  heap σ.1 !! j = Some o →
  ∃ o', heap (schedule steps σ).1 !! j = Some o'
        ∧ ComfyJob.workflow o' = ComfyJob.workflow o
        ∧ ComfyJob.onCancelled o' = ComfyJob.onCancelled o
        ∧ (ComfyJob.status o ≠ building → ComfyJob.status o' ≠ building)
        ∧ (is_Some (ComfyJob.uid o) → is_Some (ComfyJob.uid o'))
        ∧ (is_Some (ComfyJob.parent o) → is_Some (ComfyJob.parent o')).
Proof.
  intros Hj.
  apply (persists_schedule σ.1 steps σ (persists_refl σ.1) j o Hj).
Qed.

Lemma job_outlives_schedule_witness :
  ∃ o', heap (schedule [Whole (CancelJob 0 ok_reply);
                        QueueBegin 0 0 Callbacks.none;
                        Whole (Message 0 (Executing "X" VNull))]
                       (queued_X, [])).1 !! 0 = Some o'
        ∧ ComfyJob.workflow o' = VObj [("3", VObj [])]
        ∧ ComfyJob.onCancelled o' = None
        ∧ (queued ≠ building → ComfyJob.status o' ≠ building)
        ∧ (is_Some (Some "X") → is_Some (ComfyJob.uid o'))
        ∧ (is_Some (Some 0) → is_Some (ComfyJob.parent o')).
Proof.
  exact (job_outlives_schedule
           [Whole (CancelJob 0 ok_reply); QueueBegin 0 0 Callbacks.none;
            Whole (Message 0 (Executing "X" VNull))]
           (queued_X, []) 0
           (ComfyJob.Build (Some 0) (Some "X") queued (Some 1) None
              (Some 3) (Some 4) (VObj [("3", VObj [])]) VUndefined)
           eq_refl).
Defined.

(** ** What holds of the registries under every schedule *)

Lemma submitted_insert j' w j o o' cs n l :
  submitted j' w → heap w !! j = Some o →
  (ComfyJob.status o ≠ building → ComfyJob.status o' ≠ building) →
  submitted j' (MkWorld (<[j:=o']> (heap w)) cs n l).
Proof.
  intros (o1 & Ho1 & Hst) Hj Hkeep. unfold submitted. simpl.
  destruct (decide (j = j')) as [->|Hne].
  - exists o'. split; [apply list_lookup_insert_eq; by eapply lookup_lt_Some|].
    apply Hkeep. congruence.
  - exists o1. by rewrite list_lookup_insert_ne.
Qed.

Lemma identified_submitted o :
  identified o → ComfyJob.status o ≠ building →
  is_Some (ComfyJob.uid o) ∧ is_Some (ComfyJob.parent o).
Proof. intros [[Hst _]|(_ & Hu & Hp)] Hnb; [done|auto]. Qed.

Lemma identified_building o :
  identified o → ComfyJob.status o = building → ComfyJob.uid o = None.
Proof.
  intros [[_ Hu]|(Hst & _)] Hb; [done|]. rewrite Hb in Hst.
  rewrite !elem_of_cons, elem_of_nil in Hst. by destruct Hst as [?|[?|[?|[]]]].
Qed.

Section Sound.
Context (ps : list Pending).

Lemma sound_logs w n l :
  sound w ps → sound (MkWorld (heap w) (clients w) n l) ps.
Proof. intros [H1 H2 H3 H4]. by split. Qed.

Lemma sound_log_free : log_free (λ w, sound w ps).
Proof. intros w n l. apply sound_logs. Qed.

(** Assigning to a job: the new fields are those of a job being built or
    of a submitted job, and nothing is taken back. *)
Lemma sound_insert w j o o' n l :
  sound w ps → heap w !! j = Some o → identified o' →
  (ComfyJob.status o ≠ building → ComfyJob.status o' ≠ building) →
  (is_Some (ComfyJob.parent o) → is_Some (ComfyJob.parent o')) →
  sound (MkWorld (<[j:=o']> (heap w)) (clients w) n l) ps.
Proof.
  intros [H1 H2 H3 H4] Hj Ho' Hst Hpar. split; simpl.
  - intros j' o1 Hj'.
    apply list_lookup_insert_Some in Hj' as [(_ & <- & _)|[_ Hj']];
      [done|by eapply H1].
  - intros c k e He. destruct (H2 c k e He) as [Hjob Hsub].
    split; [done|]. by eapply submitted_insert.
  - intros j' cbs Hin. destruct (H3 j' cbs Hin) as (o1 & Ho1 & Hp1).
    destruct (decide (j = j')) as [->|Hne].
    + exists o'. split; [apply list_lookup_insert_eq; by eapply lookup_lt_Some|].
      apply Hpar. congruence.
    + exists o1. by rewrite list_lookup_insert_ne.
  - intros j' cbs Hin. eapply submitted_insert; [by eapply H4|done..].
Qed.

(** Changing the registries: every entry was there before or is about a
    submitted job. *)
Lemma sound_clients w cs :
  sound w ps →
  (∀ c k e,
     map_get k (from_option ComfyClient.jobs [] (cs !! c)) = Some e →
     map_get k (registry w c) = Some e
     ∨ (Entry.job e = Entry.this e ∧ submitted (Entry.this e) w)) →
  sound (MkWorld (heap w) cs (network w) (calls w)) ps.
Proof.
  intros [H1 H2 H3 H4] Hcs. split; simpl; [done| |done..].
  intros c k e He. destruct (Hcs c k e He) as [He'|He']; [|done].
  by apply (H2 c k e).
Qed.

Lemma sound_registered w c k j cbs :
  sound w ps → submitted j w →
  sound (MkWorld (heap w) (registered c k (Entry.Build j j cbs) (clients w))
                 (network w) (calls w)) ps.
Proof.
  intros Hw Hj. apply sound_clients; [done|].
  intros c' k' e He. unfold registered in He.
  destruct (decide (c = c')) as [<-|Hne].
  - rewrite list_lookup_alter_eq in He. unfold registry.
    destruct (clients w !! c) as [cl|]; simpl in *; [|done].
    destruct (decide (k = k')) as [<-|Hk].
    + rewrite map_get_set_eq in He. injection He as <-. by right.
    + rewrite map_get_set_ne in He by done. by left.
  - rewrite list_lookup_alter_ne in He by done. by left.
Qed.

Lemma sound_delete c k :
  keeps (λ w, sound w ps) (update_jobs c (map_delete k)).
Proof.
  intros w Hw. simpl. apply (sound_clients w); [done|].
  intros c' k' e He. left. unfold registry.
  destruct (decide (c = c')) as [<-|Hne].
  - rewrite list_lookup_alter_eq in He.
    destruct (clients w !! c) as [cl|]; simpl in *; [|done].
    by apply map_get_delete_Some in He as [_ He].
  - by rewrite list_lookup_alter_ne in He.
Qed.

(** The registered [onCompleted] and [onError] on a submitted job. *)
Lemma sound_settling w j s f c :
  sound w ps → submitted j w → s ∈ [completed; failed] →
  sound ((write j (ComfyJob.set_status s);;
          p ← read_parent j;
          unregisterExecutingCallback p j;;
          call_if f c) w).2 ps.
Proof.
  intros Hw (o & Hj & Hst) Hs. rewrite bind_run. unfold write at 1.
  rewrite (alter_as_insert _ _ _ _ Hj).
  destruct (identified_submitted o (jobs_identified w ps Hw j o Hj) Hst)
    as [Hu Hp].
  assert (Hs' : s ∈ [queued; completed; failed]).
  { by apply list_elem_of_further. }
  assert (Hnb : s ≠ building).
  { intros ->. rewrite !elem_of_cons, elem_of_nil in Hs.
    by destruct Hs as [?|[?|[]]]. }
  apply (keeps_bind (λ w, sound w ps)).
  - apply keeps_read_parent.
  - intros p. apply keeps_bind.
    + apply keeps_unregister. apply sound_delete.
    + intros _. apply keeps_call_if, sound_log_free.
  - apply (sound_insert w j o); [done|done| |done..].
    right. by split.
Qed.

Lemma sound_entry_onCompleted w c cl k t :
  sound w ps → clients w !! c = Some cl →
  map_get k (ComfyClient.jobs cl) = Some t →
  sound (entry_onCompleted t (Entry.job t) w).2 ps.
Proof.
  intros Hw Hc Ht. apply sound_settling; [done| |apply list_elem_of_here].
  apply (entries_submitted w ps Hw c k t). by rewrite (registry_lookup _ _ _ Hc).
Qed.

Lemma sound_entry_onError w c cl k t :
  sound w ps → clients w !! c = Some cl →
  map_get k (ComfyClient.jobs cl) = Some t →
  sound (entry_onError t (Entry.job t) (VArr []) w).2 ps.
Proof.
  intros Hw Hc Ht. apply sound_settling; [done| |by repeat constructor].
  apply (entries_submitted w ps Hw c k t). by rewrite (registry_lookup _ _ _ Hc).
Qed.

Lemma sound_new_job w wk :
  sound w ps →
  sound (MkWorld (heap w ++ [ComfyJob.new wk]) (clients w) (network w)
                 (calls w)) ps.
Proof.
  assert (Hsub : ∀ j, submitted j w →
    submitted j (MkWorld (heap w ++ [ComfyJob.new wk]) (clients w)
                         (network w) (calls w))).
  { intros j (o & Hj & Hst). exists o. split; [|done].
    simpl. by apply lookup_app_l_Some. }
  intros [H1 H2 H3 H4]. split; simpl.
  - intros j o Hj. apply lookup_snoc_Some in Hj as [[_ Hj]|[_ <-]];
      [by eapply H1|by left].
  - intros c k e He. destruct (H2 c k e He). auto.
  - intros j cbs Hin. destruct (H3 j cbs Hin) as (o & Hj & Hp).
    exists o. split; [|done]. by apply lookup_app_l_Some.
  - intros j cbs Hin. apply Hsub. by eapply H4.
Qed.

Lemma sound_new_client w e s u :
  sound w ps → sound (new_ComfyClient e s u w).2 ps.
Proof.
  intros Hw. apply (sound_clients w); [done|].
  intros c k t Ht. left. destruct w as [h cs n l].
  by rewrite <- (registry_new_client h cs n l (ComfyClient.new e s u) c).
Qed.
End Sound.

Lemma sound_fewer w ps ps' :
  sound w ps → (∀ p, p ∈ ps' → p ∈ ps) → sound w ps'.
Proof. intros [H1 H2 H3 H4] Hsub. split; eauto. Qed.

Lemma sound_await_reply w ps j cbs o :
  sound w ps → heap w !! j = Some o → is_Some (ComfyJob.parent o) →
  sound w (AwaitReply j cbs :: ps).
Proof.
  intros [H1 H2 H3 H4] Hj Hp. split; [done..| |].
  - intros j' cbs' [[= -> ->]|Hin]%elem_of_cons; [eauto|by eapply H3].
  - intros j' cbs' [[=]|Hin]%elem_of_cons. by eapply H4.
Qed.

Lemma sound_await_onError w ps j cbs :
  sound w ps → submitted j w → sound w (AwaitOnError j cbs :: ps).
Proof.
  intros [H1 H2 H3 H4] Hj. split; [done..| |].
  - intros j' cbs' [[=]|Hin]%elem_of_cons. by eapply H3.
  - intros j' cbs' [[= -> ->]|Hin]%elem_of_cons; [done|by eapply H4].
Qed.

Lemma sound_begin w ps j p cbs :
  sound w ps →
  sound (queue_begin j p cbs w).2 ps
  ∧ ((queue_begin j p cbs w).1 = Return tt →
     sound (queue_begin j p cbs w).2 (AwaitReply j cbs :: ps)).
Proof.
  intros Hw.
  destruct (queue_begin_cases w j p cbs)
    as [[e ->]|(o & r & n & Hj & Hst & ->)]; simpl; [by split|].
  assert (Hw' : sound (MkWorld (<[j:=attached o p cbs]> (heap w)) (clients w)
                               n (calls w)) ps).
  { apply (sound_insert ps w j o); try done.
    left. split; [done|]. simpl.
    apply identified_building; [by apply (jobs_identified w ps Hw j o)|done]. }
  split; [done|]. intros _.
  apply (sound_await_reply _ _ _ _ (attached o p cbs)); [done| |by eexists].
  simpl. apply list_lookup_insert_eq. by eapply lookup_lt_Some.
Qed.

Lemma sound_finish w ps j cbs :
  sound w ps → AwaitOnError j cbs ∈ ps → sound (queue_finish j cbs w).2 ps.
Proof.
  intros Hw Hin.
  destruct (queue_finish_cases w j cbs)
    as [[e ->]|(o & c & k & Hj & Hp & Hu & ->)]; simpl; [done|].
  apply sound_registered; [done|]. by eapply awaited_submitted.
Qed.

Lemma sound_reply w ps j cbs resp :
  sound w ps → AwaitReply j cbs ∈ ps →
  sound (queue_reply j cbs resp w).2 ps
  ∧ ((queue_reply j cbs resp w).1 = Return None →
     sound (queue_reply j cbs resp w).2 (AwaitOnError j cbs :: ps)).
Proof.
  intros Hw Hin.
  destruct (awaited_attached w ps Hw j cbs Hin) as (o & Hj & Hp).
  destruct (queue_reply_cases w j o cbs resp Hj)
    as [->|(r & cs & l & -> & Hcs)]; simpl; [by split|].
  assert (Hnb : ComfyJob.status (replied o (json resp)) ≠ building).
  { simpl. by destruct (has_node_errors _). }
  set (w1 := MkWorld (<[j:=replied o (json resp)]> (heap w)) (clients w)
                     (network w) l).
  assert (Hw1 : sound w1 ps).
  { apply (sound_insert ps w j o); try done.
    right. simpl. split; [|by split; [eexists|]].
    destruct (has_node_errors _); rewrite !elem_of_cons; auto. }
  assert (Hsub : submitted j w1).
  { exists (replied o (json resp)). split; [|done].
    simpl. apply list_lookup_insert_eq. by eapply lookup_lt_Some. }
  assert (Hw' : sound (MkWorld (<[j:=replied o (json resp)]> (heap w)) cs
                               (network w) l) ps).
  { destruct Hcs as [->|[c ->]]; [done|].
    by apply (sound_registered ps w1). }
  split; [done|]. intros _.
  apply sound_await_onError; [done|].
  destruct Hsub as (o1 & Ho1 & Hst1). by exists o1.
Qed.

Lemma sound_start : sound empty_world [].
Proof.
  split; try done.
  - intros j cbs Hin. by apply elem_of_nil in Hin.
  - intros j cbs Hin. by apply elem_of_nil in Hin.
Qed.

(** Every schedule leaves a sound world. *)
Lemma sound_schedule steps σ :
  sound σ.1 σ.2 → sound (schedule steps σ).1 (schedule steps σ).2.
Proof.
  apply (scheduled_schedule sound).
  - apply sound_fewer.
  - intros w ps req Hw. by apply sound_logs.
  - intros w ps. apply sound_entry_onCompleted.
  - intros w ps. apply sound_entry_onError.
  - intros w ps. apply sound_new_job.
  - intros w ps. apply sound_new_client.
  - apply sound_begin.
  - apply sound_reply.
  - apply sound_finish.
Qed.

(** X5.  Under every schedule, whole operations and segments of calls of
    [queue] that overlap, an entry of a registry is about a job that has
    been submitted: the job is queued, completed or failed, it has a uid
    and a parent, and [queue] on it throws the error of line 72 and
    changes nothing. *)
Theorem tracked_job_submitted (steps : list Step) c k e :
  map_get k (registry (schedule steps start).1 c) = Some e →
  Entry.job e = Entry.this e
  ∧ ∃ o, heap (schedule steps start).1 !! Entry.this e = Some o
         ∧ ComfyJob.status o ∈ [queued; completed; failed]
         ∧ is_Some (ComfyJob.uid o) ∧ is_Some (ComfyJob.parent o)
         ∧ ∀ p cbs resp,
             queue (Entry.this e) p cbs resp (schedule steps start).1
             = (Throw InvalidStateError, (schedule steps start).1).
Proof.
  intros He.
  pose proof (sound_schedule steps start sound_start) as Hw.
  destruct (entries_submitted _ _ Hw c k e He) as [Hjob (o & Hj & Hst)].
  split; [done|]. exists o. split; [done|].
  destruct (jobs_identified _ _ Hw _ o Hj) as [[Hb _]|(Hin & Hu & Hp)];
    [done|].
  do 3 (split; [done|]).
  intros p cbs resp. by apply (queue_not_building _ _ o).
Qed.

Lemma tracked_job_submitted_witness :
  Entry.job (Entry.Build 0 0 observers) = Entry.this (Entry.Build 0 0 observers)
  ∧ ∃ o, heap (schedule ((Whole <$> setup)
                         ++ overlapping 0 0 0 observers Callbacks.none
                              (accepted "X") (accepted "Y")) start).1
           !! Entry.this (Entry.Build 0 0 observers) = Some o
         ∧ ComfyJob.status o ∈ [queued; completed; failed]
         ∧ is_Some (ComfyJob.uid o) ∧ is_Some (ComfyJob.parent o)
         ∧ ∀ p cbs resp,
             queue (Entry.this (Entry.Build 0 0 observers)) p cbs resp
                   (schedule ((Whole <$> setup)
                              ++ overlapping 0 0 0 observers Callbacks.none
                                   (accepted "X") (accepted "Y")) start).1
             = (Throw InvalidStateError,
                (schedule ((Whole <$> setup)
                           ++ overlapping 0 0 0 observers Callbacks.none
                                (accepted "X") (accepted "Y")) start).1).
Proof.
  exact (tracked_job_submitted
           ((Whole <$> setup)
            ++ overlapping 0 0 0 observers Callbacks.none
                 (accepted "X") (accepted "Y"))
           0 "X" (Entry.Build 0 0 observers) eq_refl).
Defined.

(** X21.  Under every schedule a job has a uid exactly when it has left
    [building]: a job that is being built has none, and any other job is
    queued, completed or failed, never running or cancelled, and has a
    uid and a parent, so that the assertions [this.#uid!] and
    [this.#parent!] hold where the code makes them. *)
Theorem uid_marks_submission (steps : list Step) j o :
  heap (schedule steps start).1 !! j = Some o →
  (ComfyJob.status o = building ∧ ComfyJob.uid o = None)
  ∨ (ComfyJob.status o ∈ [queued; completed; failed]
     ∧ is_Some (ComfyJob.uid o) ∧ is_Some (ComfyJob.parent o)).
Proof.
  intros Hj.
  exact (jobs_identified _ _ (sound_schedule steps start sound_start) j o Hj).
Qed.

Lemma uid_marks_submission_witness :
  (queued = building ∧ Some "Y" = None)
  ∨ (queued ∈ [queued; completed; failed]
     ∧ is_Some (Some "Y") ∧ is_Some (Some 0)).
Proof.
  exact (uid_marks_submission
           ((Whole <$> setup)
            ++ overlapping 0 0 0 observers Callbacks.none
                 (accepted "X") (accepted "Y"))
           0
           (ComfyJob.Build (Some 0) (Some "Y") queued None None None None
              (VObj [("3", VObj [])]) VUndefined)
           eq_refl).
Defined.

(** The worlds of the runs are among the worlds of the schedules: a run
    is a schedule of whole operations. *)
Lemma run_scheduled ops w ps :
  schedule (Whole <$> ops) (w, ps) = (run ops w, ps).
Proof.
  revert w. induction ops as [|op ops IH]; intros w; [done|].
  simpl. by rewrite <- IH.
Qed.

Lemma reachable_scheduled w :
  reachable w → ∃ steps, schedule steps start = (w, []).
Proof.
  induction 1 as [|w op _ [steps Hsteps] _]; [by exists []|].
  exists (steps ++ [Whole op]).
  unfold schedule in *. by rewrite foldl_app, Hsteps.
Qed.

(** ** Two calls of [queue] on one job *)

Lemma step_begin_run w ps j o p cl cbs :
  heap w !! j = Some o → ComfyJob.status o = building →
  clients w !! p = Some cl →
  step (QueueBegin j p cbs) (w, ps)
  = (MkWorld (<[j:=attached o p cbs]> (heap w)) (clients w)
             (network w ++ [prompt_request cl (ComfyJob.workflow o)])
             (calls w),
     ps ++ [AwaitReply j cbs]).
Proof.
  intros Hj Hst Hp. simpl.
  by rewrite (queue_begin_run _ _ _ _ _ _ Hj Hst Hp).
Qed.

Lemma step_reply_run w ps ps' j o c cbs resp :
  take_out (AwaitReply j cbs) ps = Some ps' →
  heap w !! j = Some o → ComfyJob.parent o = Some c →
  ok resp = true → node_errors (json resp) = [] →
  step (QueueReply j cbs resp) (w, ps)
  = (MkWorld (<[j:=replied o (json resp)]> (heap w))
             (registered c (prompt_id (json resp)) (Entry.Build j j cbs)
                         (clients w))
             (network w) (calls w),
     ps').
Proof.
  intros Hout Hj Hp Hok Herrs. simpl. rewrite Hout.
  by rewrite (queue_reply_run _ _ _ _ _ _ Hj Hp Hok Herrs).
Qed.

Lemma schedule_cons s steps σ :
  schedule (s :: steps) σ = schedule steps (step s σ).
Proof. done. Qed.

Lemma has_node_errors_nil tmp :
  node_errors tmp = [] → has_node_errors tmp = false.
Proof.
  intros H. unfold has_node_errors. rewrite H.
  apply bool_decide_false. intros Hn. by apply Hn.
Qed.

(** The world two overlapping calls leave, both answered with success and
    without node errors. *)
Lemma overlapping_run w j o p1 p2 cl1 cl2 cbs1 cbs2 r1 r2 :
  heap w !! j = Some o → ComfyJob.status o = building →
  clients w !! p1 = Some cl1 → clients w !! p2 = Some cl2 →
  ok r1 = true → ok r2 = true →
  node_errors (json r1) = [] → node_errors (json r2) = [] →
  schedule (overlapping j p1 p2 cbs1 cbs2 r1 r2) (w, [])
  = (MkWorld (<[j:=submitted_job o p2 cbs2 (json r2)]> (heap w))
       (registered p2 (prompt_id (json r2)) (Entry.Build j j cbs2)
          (registered p2 (prompt_id (json r1)) (Entry.Build j j cbs1)
             (clients w)))
       ((network w ++ [prompt_request cl1 (ComfyJob.workflow o)])
        ++ [prompt_request cl2 (ComfyJob.workflow o)])
       (calls w),
     []).
Proof.
  intros Hj Hst Hp1 Hp2 Hok1 Hok2 He1 He2.
  assert (Hlt : j < length (heap w)) by by eapply lookup_lt_Some.
  unfold overlapping.
  rewrite schedule_cons, (step_begin_run _ _ _ _ _ _ _ Hj Hst Hp1).
  rewrite schedule_cons.
  erewrite (step_begin_run _ _ j (attached o p1 cbs1) p2 cl2);
    [|by apply list_lookup_insert_eq|done|done].
  rewrite schedule_cons.
  erewrite (step_reply_run _ _ [AwaitReply j cbs2] j
              (attached (attached o p1 cbs1) p2 cbs2) p2);
    [|by simpl; rewrite decide_True
     |simpl; apply list_lookup_insert_eq; by rewrite length_insert
     |done..].
  rewrite schedule_cons.
  erewrite (step_reply_run _ _ [] j
              (replied (attached (attached o p1 cbs1) p2 cbs2) (json r1)) p2);
    [|by simpl; rewrite decide_True
     |simpl; apply list_lookup_insert_eq; by rewrite !length_insert
     |done..].
  simpl. rewrite !list_insert_insert_eq.
  unfold replied, submitted_job. simpl.
  by rewrite (has_node_errors_nil _ He2).
Qed.

Lemma registered_lookup c k e cs cl :
  cs !! c = Some cl →
  registered c k e cs !! c
  = Some (ComfyClient.set_jobs (map_set k e (ComfyClient.jobs cl)) cl).
Proof. intros H. unfold registered. by rewrite list_lookup_alter_eq, H. Qed.

(** X3.  Two calls of [queue] on a job that is being built, the second
    made while the first waits for its response, are both accepted: the
    guard of line 72 reads the status before line 80 assigns it.  When
    both responses are successful and free of node errors, both calls
    return; two requests have been sent, one to each client; the job is
    queued with the uid, the parent and the callbacks of the second call;
    and the registry of the second client holds two entries about the job,
    one under each identity, each with the callbacks of its call. *)
Theorem overlapping_queue_calls (w : World) j o p1 p2 cl1 cl2 cbs1 cbs2 r1 r2 :
  heap w !! j = Some o → ComfyJob.status o = building →
  clients w !! p1 = Some cl1 → clients w !! p2 = Some cl2 →
  ok r1 = true → ok r2 = true →
  node_errors (json r1) = [] → node_errors (json r2) = [] →
  prompt_id (json r1) ≠ prompt_id (json r2) →
  (schedule (overlapping j p1 p2 cbs1 cbs2 r1 r2) (w, [])).2 = []
  ∧ heap (schedule (overlapping j p1 p2 cbs1 cbs2 r1 r2) (w, [])).1
    = <[j:=ComfyJob.Build (Some p2) (Some (prompt_id (json r2))) queued
             (Callbacks.onCompleted cbs2) (ComfyJob.onCancelled o)
             (Callbacks.onUpdate cbs2) (Callbacks.onError cbs2)
             (ComfyJob.workflow o) (ComfyJob.errors o)]> (heap w)
  ∧ map_get (prompt_id (json r1))
      (registry (schedule (overlapping j p1 p2 cbs1 cbs2 r1 r2) (w, [])).1 p2)
    = Some (Entry.Build j j cbs1)
  ∧ map_get (prompt_id (json r2))
      (registry (schedule (overlapping j p1 p2 cbs1 cbs2 r1 r2) (w, [])).1 p2)
    = Some (Entry.Build j j cbs2)
  ∧ network (schedule (overlapping j p1 p2 cbs1 cbs2 r1 r2) (w, [])).1
    = network w ++ [prompt_request cl1 (ComfyJob.workflow o);
                    prompt_request cl2 (ComfyJob.workflow o)]
  ∧ calls (schedule (overlapping j p1 p2 cbs1 cbs2 r1 r2) (w, [])).1
    = calls w.
Proof.
  intros Hj Hst Hp1 Hp2 Hok1 Hok2 He1 He2 Hne.
  rewrite (overlapping_run _ _ _ _ _ _ _ _ _ _ _ Hj Hst Hp1 Hp2 Hok1 Hok2
             He1 He2).
  simpl. split; [done|]. split.
  { unfold submitted_job. by rewrite (has_node_errors_nil _ He2). }
  unfold registry. simpl.
  erewrite registered_lookup; [|by apply registered_lookup].
  simpl. split; [|split; [|split]].
  - rewrite map_get_set_ne by done. apply map_get_set_eq.
  - apply map_get_set_eq.
  - by rewrite <- app_assoc.
  - done.
Qed.

Lemma overlapping_queue_calls_witness :
  (schedule (overlapping 0 0 0 observers Callbacks.none
               (accepted "X") (accepted "Y"))
            (run setup empty_world, [])).2 = []
  ∧ heap (schedule (overlapping 0 0 0 observers Callbacks.none
                      (accepted "X") (accepted "Y"))
                   (run setup empty_world, [])).1
    = [ComfyJob.Build (Some 0) (Some "Y") queued None None None None
         (VObj [("3", VObj [])]) VUndefined]
  ∧ map_get "X"
      (registry (schedule (overlapping 0 0 0 observers Callbacks.none
                             (accepted "X") (accepted "Y"))
                          (run setup empty_world, [])).1 0)
    = Some (Entry.Build 0 0 observers)
  ∧ map_get "Y"
      (registry (schedule (overlapping 0 0 0 observers Callbacks.none
                             (accepted "X") (accepted "Y"))
                          (run setup empty_world, [])).1 0)
    = Some (Entry.Build 0 0 Callbacks.none)
  ∧ network (schedule (overlapping 0 0 0 observers Callbacks.none
                         (accepted "X") (accepted "Y"))
                      (run setup empty_world, [])).1
    = [prompt_request (ComfyClient.new "127.0.0.1:8188" false "c0ffee")
         (VObj [("3", VObj [])]);
       prompt_request (ComfyClient.new "127.0.0.1:8188" false "c0ffee")
         (VObj [("3", VObj [])])]
  ∧ calls (schedule (overlapping 0 0 0 observers Callbacks.none
                       (accepted "X") (accepted "Y"))
                    (run setup empty_world, [])).1
    = [].
Proof.
  apply (overlapping_queue_calls (run setup empty_world) 0
           (ComfyJob.new (VObj [("3", VObj [])])) 0 0
           (ComfyClient.new "127.0.0.1:8188" false "c0ffee")
           (ComfyClient.new "127.0.0.1:8188" false "c0ffee")
           observers Callbacks.none (accepted "X") (accepted "Y"));
    try reflexivity.
  intros [=].
Defined.

Lemma schedule_app steps steps' σ :
  schedule (steps ++ steps') σ = schedule steps' (schedule steps σ).
Proof. unfold schedule. by rewrite foldl_app. Qed.

(** A closing frame for an identity found in the registry, whatever the
    uid [k] of the job of the entry is at that time: the entry under [k]
    is the one that is deleted. *)
Lemma closing_frame_run w c cl id t o k :
  clients w !! c = Some cl → map_get id (ComfyClient.jobs cl) = Some t →
  heap w !! Entry.this t = Some o →
  ComfyJob.parent o = Some c → ComfyJob.uid o = Some k →
  on_message c (Executing id VNull) w
  = (Return tt,
     settled w t o completed c cl k
       (optional_call (Callbacks.onCompleted (Entry.callbacks t))
                      (λ f, CallCompleted f (Entry.job t)))).
Proof.
  intros Hc Ht Ho Hp Hu. unfold on_message.
  rewrite bind_run, (get_client_run _ _ _ Hc). simpl. rewrite Ht.
  by apply entry_onCompleted_run.
Qed.

Lemma step_closing_frame w ps c cl id t o k :
  clients w !! c = Some cl → map_get id (ComfyClient.jobs cl) = Some t →
  heap w !! Entry.this t = Some o →
  ComfyJob.parent o = Some c → ComfyJob.uid o = Some k →
  step (Whole (Message c (Executing id VNull))) (w, ps)
  = (settled w t o completed c cl k
       (optional_call (Callbacks.onCompleted (Entry.callbacks t))
                      (λ f, CallCompleted f (Entry.job t))),
     ps).
Proof.
  intros Hc Ht Ho Hp Hu.
  change (step (Whole (Message c (Executing id VNull))) (w, ps))
    with ((on_message c (Executing id VNull) w).2, ps).
  by rewrite (closing_frame_run _ _ _ _ _ _ _ Hc Ht Ho Hp Hu).
Qed.

(** X22.  After two overlapping calls of [queue] on one job the entry
    under the first identity is stale: the job carries the second uid.  A
    closing frame for the first identity completes the job and calls the
    completion callback of the first call, but the entry it deletes is the
    one under the second identity; the stale entry stays, so a second
    closing frame for the first identity calls the same callback again,
    and no frame can reach the completion callback of the second call. *)
Theorem stale_entry_completes_twice (w : World) j o p1 p2 cl1 cl2 cbs1 cbs2
    r1 r2 :
  heap w !! j = Some o → ComfyJob.status o = building →
  clients w !! p1 = Some cl1 → clients w !! p2 = Some cl2 →
  ok r1 = true → ok r2 = true →
  node_errors (json r1) = [] → node_errors (json r2) = [] →
  prompt_id (json r1) ≠ prompt_id (json r2) →
  status_of
    (schedule (overlapping j p1 p2 cbs1 cbs2 r1 r2
               ++ [Whole (Message p2 (Executing (prompt_id (json r1)) VNull));
                   Whole (Message p2 (Executing (prompt_id (json r1)) VNull))])
              (w, [])).1 j
  = Some completed
  ∧ map_get (prompt_id (json r1))
      (registry
         (schedule (overlapping j p1 p2 cbs1 cbs2 r1 r2
                    ++ [Whole (Message p2
                                 (Executing (prompt_id (json r1)) VNull));
                        Whole (Message p2
                                 (Executing (prompt_id (json r1)) VNull))])
                   (w, [])).1 p2)
    = Some (Entry.Build j j cbs1)
  ∧ map_get (prompt_id (json r2))
      (registry
         (schedule (overlapping j p1 p2 cbs1 cbs2 r1 r2
                    ++ [Whole (Message p2
                                 (Executing (prompt_id (json r1)) VNull));
                        Whole (Message p2
                                 (Executing (prompt_id (json r1)) VNull))])
                   (w, [])).1 p2)
    = None
  ∧ calls
      (schedule (overlapping j p1 p2 cbs1 cbs2 r1 r2
                 ++ [Whole (Message p2
                              (Executing (prompt_id (json r1)) VNull));
                     Whole (Message p2
                              (Executing (prompt_id (json r1)) VNull))])
                (w, [])).1
    = calls w
      ++ optional_call (Callbacks.onCompleted cbs1) (λ f, CallCompleted f j)
      ++ optional_call (Callbacks.onCompleted cbs1) (λ f, CallCompleted f j).
Proof.
  intros Hj Hst Hp1 Hp2 Hok1 Hok2 He1 He2 Hne.
  assert (Hlt : j < length (heap w)) by by eapply lookup_lt_Some.
  assert (Hlt2 : p2 < length (clients w)) by by eapply lookup_lt_Some.
  rewrite schedule_app.
  rewrite (overlapping_run _ _ _ _ _ _ _ _ _ _ _ Hj Hst Hp1 Hp2 Hok1 Hok2
             He1 He2).
  set (id1 := prompt_id (json r1)) in *.
  set (id2 := prompt_id (json r2)) in *.
  set (e1 := Entry.Build j j cbs1).
  set (e2 := Entry.Build j j cbs2).
  set (o4 := submitted_job o p2 cbs2 (json r2)).
  set (cl4 := ComfyClient.set_jobs
                (map_set id2 e2 (map_set id1 e1 (ComfyClient.jobs cl2))) cl2).
  set (w4 := MkWorld _ _ _ _).
  assert (Hc4 : clients w4 !! p2 = Some cl4).
  { simpl. erewrite registered_lookup; [|by apply registered_lookup]. done. }
  assert (Ht4 : map_get id1 (ComfyClient.jobs cl4) = Some e1).
  { simpl. rewrite map_get_set_ne by done. apply map_get_set_eq. }
  assert (Ho4 : heap w4 !! Entry.this e1 = Some o4).
  { simpl. by apply list_lookup_insert_eq. }
  rewrite schedule_cons.
  rewrite (step_closing_frame w4 [] p2 cl4 id1 e1 o4 id2 Hc4 Ht4 Ho4 eq_refl
             eq_refl).
  set (called := optional_call _ _).
  set (w5 := settled w4 e1 o4 completed p2 cl4 id2 called).
  set (cl5 := ComfyClient.set_jobs (map_delete id2 (ComfyClient.jobs cl4)) cl4).
  assert (Hc5 : clients w5 !! p2 = Some cl5).
  { simpl. apply list_lookup_insert_eq. unfold registered.
    by rewrite !length_alter. }
  assert (Ht5 : map_get id1 (ComfyClient.jobs cl5) = Some e1).
  { simpl. rewrite map_get_delete_ne by done.
    rewrite map_get_set_ne by done. apply map_get_set_eq. }
  assert (Ho5 : heap w5 !! Entry.this e1
                = Some (ComfyJob.set_status completed o4)).
  { simpl. apply list_lookup_insert_eq. by rewrite length_insert. }
  rewrite schedule_cons.
  rewrite (step_closing_frame w5 [] p2 cl5 id1 e1 _ id2 Hc5 Ht5 Ho5 eq_refl
             eq_refl).
  simpl. split; [|split; [|split]].
  - unfold status_of. simpl. rewrite list_lookup_insert_eq; [done|].
    by rewrite !length_insert.
  - unfold registry. simpl. rewrite list_lookup_insert_eq.
    2: { rewrite length_insert. unfold registered. by rewrite !length_alter. }
    simpl. rewrite !map_get_delete_ne by done.
    rewrite map_get_set_ne by done. apply map_get_set_eq.
  - unfold registry. simpl. rewrite list_lookup_insert_eq.
    2: { rewrite length_insert. unfold registered. by rewrite !length_alter. }
    simpl. apply map_get_delete_eq.
  - by rewrite <- app_assoc.
Qed.

Lemma stale_entry_completes_twice_witness :
  status_of
    (schedule (overlapping 0 0 0 observers Callbacks.none
                 (accepted "X") (accepted "Y")
               ++ [Whole (Message 0 (Executing "X" VNull));
                   Whole (Message 0 (Executing "X" VNull))])
              (run setup empty_world, [])).1 0
  = Some completed
  ∧ map_get "X"
      (registry
         (schedule (overlapping 0 0 0 observers Callbacks.none
                      (accepted "X") (accepted "Y")
                    ++ [Whole (Message 0 (Executing "X" VNull));
                        Whole (Message 0 (Executing "X" VNull))])
                   (run setup empty_world, [])).1 0)
    = Some (Entry.Build 0 0 observers)
  ∧ map_get "Y"
      (registry
         (schedule (overlapping 0 0 0 observers Callbacks.none
                      (accepted "X") (accepted "Y")
                    ++ [Whole (Message 0 (Executing "X" VNull));
                        Whole (Message 0 (Executing "X" VNull))])
                   (run setup empty_world, [])).1 0)
    = None
  ∧ calls
      (schedule (overlapping 0 0 0 observers Callbacks.none
                   (accepted "X") (accepted "Y")
                 ++ [Whole (Message 0 (Executing "X" VNull));
                     Whole (Message 0 (Executing "X" VNull))])
                (run setup empty_world, [])).1
    = [CallCompleted 1 0; CallCompleted 1 0].
Proof.
  apply (stale_entry_completes_twice (run setup empty_world) 0
           (ComfyJob.new (VObj [("3", VObj [])])) 0 0
           (ComfyClient.new "127.0.0.1:8188" false "c0ffee")
           (ComfyClient.new "127.0.0.1:8188" false "c0ffee")
           observers Callbacks.none (accepted "X") (accepted "Y"));
    try reflexivity.
  intros [=].
Defined.

(** ** Submitting twice *)

(** C7, amended.  Once a call of [queue] on a job has returned, with the
    job queued (success) or failed on node errors (failure), every later
    call of [queue] on that job throws the error "Cannot place a ComfyJob
    on queue twice" and changes nothing, whatever was scheduled in
    between, segments of other calls included; [steps] may hold any number
    of further attempts. *)
Theorem queue_twice_rejected (w : World) j p cbs resp :
  (queue j p cbs resp w).1 = Return j →
  (status_of (queue j p cbs resp w).2 j = Some queued
   ∨ status_of (queue j p cbs resp w).2 j = Some failed)
  ∧ ∀ steps ps p' cbs' resp',
      queue j p' cbs' resp'
            (schedule steps ((queue j p cbs resp w).2, ps)).1
      = (Throw InvalidStateError,
         (schedule steps ((queue j p cbs resp w).2, ps)).1).
Proof.
  intros Hret.
  destruct (queue_returns_inv _ _ _ _ _ _ Hret) as (o & cl & Hj & Hst & Hp & Hok).
  rewrite (queue_accepted _ _ _ _ _ _ _ Hj Hst Hp Hok). simpl.
  set (w1 := MkWorld _ _ _ _).
  assert (Hw1 : heap w1 !! j = Some (submitted_job o p cbs (json resp))).
  { simpl. apply list_lookup_insert_eq. by eapply lookup_lt_Some. }
  split.
  - unfold status_of. rewrite Hw1. simpl. destruct (has_node_errors _); auto.
  - intros steps ps p' cbs' resp'.
    destruct (persists_schedule w1 steps (w1, ps) (persists_refl w1) j _ Hw1)
      as (o' & Hj' & _ & _ & Hnb & _).
    apply (queue_not_building _ _ o'); [done|].
    apply Hnb. simpl. by destruct (has_node_errors _).
Qed.

Lemma queue_twice_rejected_witness :
  (queue 0 0 observers (accepted "X") (run setup empty_world)).1 = Return 0
  ∧ queue 0 0 observers (accepted "Y")
      (schedule [Whole (QueueJob 0 0 observers (accepted "Z"));
                 QueueBegin 0 0 observers;
                 Whole (Message 0 (Executing "X" VNull))]
                (queued_X, [])).1
    = (Throw InvalidStateError,
       (schedule [Whole (QueueJob 0 0 observers (accepted "Z"));
                  QueueBegin 0 0 observers;
                  Whole (Message 0 (Executing "X" VNull))]
                 (queued_X, [])).1).
Proof.
  split; [reflexivity|].
  apply (queue_twice_rejected (run setup empty_world) 0 0 observers
           (accepted "X")).
  reflexivity.
Defined.
